(** * Joy of Painting: the genetic engine, its genomes and its colour sampler

    A shallow embedding of [genetics.py], [painting.py] and
    [weighted_random.py].

    Conventions of the embedding.
    - Python [int] is [Z]; [//] and [%] on ints are [Z.div] and [Z.modulo]
      (both round towards minus infinity, as Python does), with the
      [ZeroDivisionError] written out.
    - A Python [float] is a binary64 number, held as the rational it
      denotes ([Q]). The arithmetic of the engine ([int * float],
      [float + int], [int // float]) rounds every exact result to the
      nearest binary64 number, ties to even, as the hardware does; a
      rational that is not a binary64 number stands for the float nearest
      to it, as a decimal literal does. Infinities and NaN are not values
      of the model, and the exponent has no upper bound: the model follows
      the code for numbers below [2^1024] in magnitude. The draw value of
      the sampler, [random() * totals[-1]], is held exact.
    - Exceptions are an explicit [outcome]; a raise keeps the state reached
      so far, as in Python.
    - [Painting] objects are mutable and shared by reference: they live in a
      heap ([gmap loc Painting]) and populations are lists of references.
    - The pseudo random generator is a tape of numbers that every draw
      consumes from the front; a statement quantified over the world holds
      for every sequence of random outcomes. *)

From Stdlib Require Import ZArith QArith Qround Qabs Lia Sorted.
From stdpp Require Import gmap strings list sorting.
Close Scope Q_scope.

(** ** Python run-time: exceptions, state, slices, [sorted], [bisect], [random] *)
Module py.

(** The built-in exceptions the three modules can run into, and
    [genetics.BreedError], the only exception the repository raises
    itself ([class BreedError(GeneticsError)]). [DanglingReference] is
    not a Python exception: it marks, in the model only, a read through
    a reference that is not in the heap, which no Python program can
    hold. *)
Inductive exn : Type :=
| IndexError
| ValueError
| ZeroDivisionError
| TypeError
| UnboundLocalError
| BreedError (msg : string)
| DanglingReference.

(** [isinstance(e, GeneticsError)]. *)
Definition is_GeneticsError (e : exn) : bool :=
  match e with
  | BreedError _ => true
  | _ => false
  end.

Inductive outcome (A : Type) : Type :=
| Ok (a : A)
| Raise (e : exn).
Arguments Ok {A} a.
Arguments Raise {A} e.

Definition loc := positive.

(** The world a call runs in: the random tape and the heap of objects of
    type [O]. *)
Record world (O : Type) : Type := World {
  rng : nat → N;
  heap : gmap loc O
}.
Arguments World {O} rng heap.
Arguments rng {O} w.
Arguments heap {O} w.

Definition M (O A : Type) : Type := world O → outcome A * world O.

Definition ret {O A} (a : A) : M O A := λ w, (Ok a, w).

Definition bind {O A B} (f : A → M O B) (m : M O A) : M O B :=
  λ w, match m w with
       | (Ok a, w') => f a w'
       | (Raise e, w') => (Raise e, w')
       end.

Definition raise {O A} (e : exn) : M O A := λ w, (Raise e, w).

(** [x ← m; k] runs [m], and [k] on its result unless [m] raised. *)
#[global] Instance M_ret {O} : MRet (M O) := @ret O.
#[global] Instance M_bind {O} : MBind (M O) := @bind O.

(** [for x in xs: acc = body(acc, x)] with effects. *)
Fixpoint for_each {O A B} (xs : list A) (body : B → A → M O B) (acc : B)
  : M O B :=
  match xs with
  | [] => ret acc
  | x :: xs' => acc' ← body acc x; for_each xs' body acc'
  end.

(** [range(n)] for an integer [n]: empty when [n <= 0]. *)
Definition range (n : Z) : list Z := Z.of_nat <$> seq 0 (Z.to_nat n).

(** *** Heap *)

(** Object creation: the new object gets a reference no live object has. *)
Definition alloc {O} (o : O) : M O loc :=
  λ w, let l := fresh (dom (heap w)) in
       (Ok l, World (rng w) (<[l := o]> (heap w))).

(** Reading through a reference. *)
Definition deref {O} (l : loc) : M O O :=
  λ w, match heap w !! l with
       | Some o => (Ok o, w)
       | None => (Raise DanglingReference, w)
       end.

(** In-place update of a live object. *)
Definition update {O} (l : loc) (f : O → O) : M O unit :=
  λ w, (Ok (), World (rng w) (alter f l (heap w))).

(** *** Indexing and slices *)

(** [l[i]] for [0 <= i]. *)
Definition index {O A} (l : list A) (i : nat) : M O A :=
  match l !! i with
  | Some a => ret a
  | None => raise IndexError
  end.

(** [l[-1]]. *)
Definition index_last {O A} (l : list A) : M O A :=
  match last l with
  | Some a => ret a
  | None => raise IndexError
  end.

(** [l[i:]]: a negative [i] counts from the end and is clamped at the
    start of the list; [-0] is [0]. *)
Definition slice_from {A} (i : Z) (l : list A) : list A :=
  if (0 <=? i)%Z then drop (Z.to_nat i) l
  else drop (length l - Z.to_nat (- i)) l.

(** [l[:i]]. *)
Definition slice_to {A} (i : Z) (l : list A) : list A :=
  if (0 <=? i)%Z then take (Z.to_nat i) l
  else take (length l - Z.to_nat (- i)) l.

(** *** Arithmetic *)

(** [a // b] on ints. *)
Definition floordiv {O} (a b : Z) : M O Z :=
  if (b =? 0)%Z then raise ZeroDivisionError else ret (a / b)%Z.

(** [a % b] on ints. *)
Definition modulo {O} (a b : Z) : M O Z :=
  if (b =? 0)%Z then raise ZeroDivisionError else ret (a mod b)%Z.

(** [int(q)] on a float: truncation towards zero. *)
Definition int_of (q : Q) : Z :=
  if Qle_bool 0 q then Qfloor q else Qceiling q.

(** *** Floats: binary64, round to nearest, ties to even *)

(** The binade of [q], for [q] other than 0: the exponent [e] with
    [2^e <= |q| < 2^(e+1)]. *)
Definition binade (q : Q) : Z :=
  let e := (Z.log2 (Z.abs (Qnum q)) - Z.log2 (Z.pos (Qden q)))%Z in
  if Qle_bool (Qpower 2 e) (Qabs q) then e else (e - 1)%Z.

(** The integer nearest to [q]; of two that are as near, the even one. *)
Definition round_half_even (q : Q) : Z :=
  let n := Qfloor q in
  match (q - inject_Z n ?= 1 # 2)%Q with
  | Lt => n
  | Gt => (n + 1)%Z
  | Eq => if Z.even n then n else (n + 1)%Z
  end.

(** The binary64 number nearest to [q]: a multiple, by an integer of at
    most 53 bits, of the unit in the last place of the binade of [q], which
    is [2^(e-52)], and [2^-1074] for the subnormal numbers. *)
Definition round64 (q : Q) : Q :=
  if Qeq_bool q 0 then 0%Q
  else
    let ulp := Qpower 2 (Z.max (binade q - 52) (-1074)) in
    Qred (inject_Z (round_half_even (q / ulp)) * ulp)%Q.

(** [float(n)] on an int, as every mixed operation applies it to its int
    operand. *)
Definition float_of_int (n : Z) : Q := round64 (inject_Z n).

(** [x * y], [x + y], [x - y] and [x / y] on floats. *)
Definition float_mul (x y : Q) : Q := round64 (round64 x * round64 y)%Q.

Definition float_add (x y : Q) : Q := round64 (round64 x + round64 y)%Q.

Definition float_sub (x y : Q) : Q := round64 (round64 x - round64 y)%Q.

Definition float_truediv (x y : Q) : Q := round64 (round64 x / round64 y)%Q.

(** [x < y] on floats. *)
Definition float_lt (x y : Q) : bool := negb (Qle_bool y x).

(** C's [fmod(x, y)], for [y] other than 0: [x - n * y] with [n] the
    quotient truncated towards zero. The result is exact; it has the sign
    of [x]. *)
Definition fmod (x y : Q) : Q :=
  Qred (x - y * inject_Z (int_of (x / y)))%Q.

(** [v // w] on floats, as [float_floor_div] of CPython computes it:
    [mod = fmod(vx, wx); div = (vx - mod) / wx]; one less when [mod] is
    not zero and has not the sign of [wx]; then [div] is snapped to the
    nearest integral value, [floor(div)], or one more when
    [div - floor(div) > 0.5]. *)
Definition float_floordiv {O} (v w : Q) : M O Q :=
  let vx := round64 v in
  let wx := round64 w in
  if Qeq_bool wx 0 then raise ZeroDivisionError
  else
    let mod_ := fmod vx wx in
    let div := float_truediv (float_sub vx mod_) wx in
    let div :=
      if negb (Qeq_bool mod_ 0) && xorb (float_lt wx 0) (float_lt mod_ 0)
      then float_sub div 1 else div in
    if Qeq_bool div 0 then ret 0%Q
    else
      let floordiv := inject_Z (Qfloor div) in
      ret (if float_lt (1 # 2) (float_sub div floordiv)
           then float_add floordiv 1 else floordiv).

(** *** [sorted(l, key=...)]: stable, ascending *)
Section Sorted.
Context {A K : Type} (leb : K → K → bool) (key : A → K).

Fixpoint insert_sorted (x : A) (l : list A) : list A :=
  match l with
  | [] => [x]
  | y :: l' =>
      if leb (key x) (key y) then x :: y :: l'
      else y :: insert_sorted x l'
  end.

Definition sorted (l : list A) : list A := foldr insert_sorted [] l.
End Sorted.

(** *** [bisect.bisect_right(a, x)] *)
Fixpoint bisect_loop (fuel : nat) (a : list Z) (x : Q) (lo hi : nat) : nat :=
  match fuel with
  | 0 => lo
  | S fuel' =>
      if lo <? hi then
        let mid := (lo + hi) `div` 2 in
        if Qle_bool (inject_Z (default 0%Z (a !! mid))) x
        then bisect_loop fuel' a x (mid + 1) hi
        else bisect_loop fuel' a x lo mid
      else lo
  end.

(** The interval [hi - lo] halves at every round, so [length a] rounds
    are more than enough. *)
Definition bisect_right (a : list Z) (x : Q) : nat :=
  bisect_loop (S (length a)) a x 0 (length a).

(** *** [random] *)
Section Random.
Context {O : Type}.

(** One number is taken off the tape. *)
Definition draw : M O N :=
  λ w, (Ok (rng w 0), World (λ n, rng w (S n)) (heap w)).

(** [random._randbelow(n)] for [0 < n]. *)
Definition randbelow (n : nat) : M O nat :=
  k ← draw; ret (N.to_nat (k `mod` N.of_nat n)).

(** [random.random()]: a multiple of [2^-53] in [[0, 1)]. *)
Definition random : M O Q :=
  k ← draw;
  ret (Qmake (Z.of_N k mod 2 ^ 53)%Z (2 ^ 53)%positive).

(** [random.randint(a, b)]: [ValueError] on an empty range. *)
Definition randint (a b : Z) : M O Z :=
  if (b <? a)%Z then raise ValueError
  else k ← randbelow (Z.to_nat (b - a + 1)); ret (a + Z.of_nat k)%Z.

(** [random.choice(seq)]: [IndexError] on an empty sequence. *)
Definition choice {A} (l : list A) : M O A :=
  match l with
  | [] => raise IndexError
  | _ => i ← randbelow (length l); index l i
  end.

(** [random.sample(population, k)]: [k] elements at [k] different
    positions. Each round picks a position among the elements left and
    takes that element out of the pool. *)
Fixpoint sample_loop {A} (k : nat) (pool : list A) : M O (list A) :=
  match k with
  | 0 => ret []
  | S k' =>
      j ← randbelow (length pool);
      x ← index pool j;
      rest ← sample_loop k' (delete j pool);
      ret (x :: rest)
  end.

Definition sample {A} (population : list A) (k : Z) : M O (list A) :=
  if ((k <? 0) || (Z.of_nat (length population) <? k))%Z
  then raise ValueError
  else sample_loop (Z.to_nat k) population.

(** [random.shuffle(x)], Fisher-Yates from the last position down:
    [for i in reversed(range(1, len(x))): j = randbelow(i + 1);
    x[i], x[j] = x[j], x[i]]. *)
Fixpoint shuffle_from {A} (i : nat) (x : list A) : M O (list A) :=
  match i with
  | 0 => ret x
  | S i' =>
      j ← randbelow (S i);
      xi ← index x i;
      xj ← index x j;
      shuffle_from i' (<[j := xi]> (<[i := xj]> x))
  end.

Definition shuffle {A} (x : list A) : M O (list A) :=
  shuffle_from (length x - 1) x.
End Random.

(** *** The values [to_json] builds: ints, lists, and dict literals with
    their items in the order written *)
#[warnings="-register-all"]
Inductive json : Type :=
| Int (n : Z)
| List (items : list json)
| Dict (items : list (string * json)).

End py.

(** ** PIL: what the engine reads from an image *)
Module PIL.

(** A pixel as [Image.getdata()] yields it: the tuple of its band
    values, e.g. [(r, g, b)] or [(r, g, b, a)]. *)
Definition pixel := list Z.

Record Image : Type := mkImage {
  size : Z * Z;
  getdata : list pixel
}.

End PIL.

(** ** weighted_random.py *)
Module weighted_random.
Import py PIL.

Record WeightedRandomColors : Type := mkWeightedRandomColors {
  totals : list Z;
  colors : list pixel
}.

(** One round of the loop of [__init__]: the state is [running_total]
    and the two lists under construction. *)
Definition init_step (st : Z * WeightedRandomColors) (cw : pixel * Z)
  : Z * WeightedRandomColors :=
  let running_total := (st.1 + cw.2)%Z in
  (running_total,
   mkWeightedRandomColors (totals st.2 ++ [running_total])
                          (colors st.2 ++ [cw.1])).

(** [WeightedRandomColors.__init__(color_weights)]. *)
Definition WeightedRandomColors_init {O} (color_weights : list (pixel * Z))
  : M O WeightedRandomColors :=
  ret (fold_left init_step color_weights
         (0%Z, mkWeightedRandomColors [] [])).2.

(** The part of [next] after the random draw: the colour a value [rnd]
    resolves to. *)
Definition resolve {O} (self : WeightedRandomColors) (rnd : Q) : M O pixel :=
  index (colors self) (bisect_right (totals self) rnd).

(** [WeightedRandomColors.next()]. *)
Definition next {O} (self : WeightedRandomColors) : M O pixel :=
  u ← random;
  last_total ← index_last (totals self);
  resolve self (u * inject_Z last_total)%Q.

End weighted_random.

(** ** painting.py *)
Module painting.
Import py PIL weighted_random.

Record Color : Type := mkColor { r : Z; g : Z; b : Z }.

(** [Color] applied to the unpacked [rgb]: the named tuple takes exactly
    three fields. *)
Definition Color_of {O} (rgb : list Z) : M O Color :=
  match rgb with
  | [r; g; b] => ret (mkColor r g b)
  | _ => raise TypeError
  end.

Record Vector : Type := mkVector { x : Z; y : Z }.

(** [Vector.__add__]; both operands are vectors wherever it is called. *)
Definition Vector_add (self other : Vector) : Vector :=
  mkVector (x self + x other) (y self + y other).

Definition scale (self : Vector) (n : Z) : Vector :=
  mkVector (x self * n) (y self * n).

(** The layout strategy is one of two vectors or a string. *)
Inductive strategy : Type :=
| Vec (v : Vector)
| Str (s : string).

#[global] Instance Vector_eq_dec : EqDecision Vector.
Proof. solve_decision. Defined.
#[global] Instance strategy_eq_dec : EqDecision strategy.
Proof. solve_decision. Defined.

Definition HORIZONTAL : Vector := mkVector 1 0.
Definition VERTICAL : Vector := mkVector 0 1.
Definition RANDOM : string := "random".

Record Stroke : Type := mkStroke {
  color : Color;
  brush_size : Z;
  start : Vector;
  end_ : Vector
}.

Record Painting : Type := mkPainting {
  ref : string;
  canvas : Color;
  num_strokes : Z;
  strokes : list Stroke
}.

(** The monad of the whole development: the heap holds paintings. *)
Abbreviation P := (M Painting).

(** [Painting(ref, canvas, strokes)]: a new object. *)
Definition Painting_init (ref : string) (canvas : Color)
    (strokes : list Stroke) : P loc :=
  alloc (mkPainting ref canvas (Z.of_nat (length strokes)) strokes).

(** An attribute read [obj.field]. *)
Definition getattr {A} (obj : loc) (field : Painting → A) : P A :=
  o ← deref obj; ret (field o).

(** [Painting.__mul__(self, other)]. *)
Definition Painting_mul (self other : loc) : P loc :=
  self_canvas ← getattr self canvas;
  other_canvas ← getattr other canvas;
  canvas ← choice [self_canvas; other_canvas];
  n ← getattr self num_strokes;
  strokes ← for_each (range n)
    (λ strokes i,
       parent ← choice [self; other];
       parent_strokes ← getattr parent painting.strokes;
       stroke ← index parent_strokes (Z.to_nat i);
       ret (strokes ++ [stroke]))
    [];
  self_ref ← getattr self ref;
  Painting_init self_ref canvas strokes.

(** What the branch on the strategy before the loop of [generate] binds:
    [strokes_per_line] and [stroke_length]. The RANDOM branch binds no
    [strokes_per_line] and never reads it; [0] stands for it there. *)
Definition layout_parameters (strategy : strategy) (w h num_strokes
    brush_size : Z) : P (Z * Z) :=
  if decide (strategy = Vec HORIZONTAL) then
    num_lines ← floordiv h (2 * brush_size);
    strokes_per_line ← floordiv num_strokes num_lines;
    per_stroke ← floordiv w strokes_per_line;
    ret (strokes_per_line, Z.max (per_stroke - 2 * brush_size) 0)
  else if decide (strategy = Vec VERTICAL) then
    num_lines ← floordiv w (2 * brush_size);
    strokes_per_line ← floordiv num_strokes num_lines;
    per_stroke ← floordiv h strokes_per_line;
    ret (strokes_per_line, Z.max (per_stroke - 2 * brush_size) 0)
  else if decide (strategy = Str RANDOM) then
    stroke_length ← randint 0 (Z.sqrt (w ^ 2 + h ^ 2));
    ret (0, stroke_length)%Z
  else raise UnboundLocalError.

(** The start and end point of stroke [i]. *)
Definition place_stroke (strategy : strategy) (w h brush_size distance
    strokes_per_line stroke_length i : Z) : P (Vector * Vector) :=
  if decide (strategy = Vec HORIZONTAL) then
    move_x ← modulo i strokes_per_line;
    move_y ← floordiv i strokes_per_line;
    let start := mkVector
      (move_x * stroke_length + brush_size * (2 * move_x + 1))
      (brush_size * (2 * move_y + 1)) in
    ret (start, Vector_add start (scale HORIZONTAL stroke_length))
  else if decide (strategy = Vec VERTICAL) then
    move_x ← floordiv i strokes_per_line;
    move_y ← modulo i strokes_per_line;
    let start := mkVector
      (brush_size * (2 * move_x + 1))
      (move_y * stroke_length + brush_size * (2 * move_y + 1)) in
    ret (start, Vector_add start (scale VERTICAL stroke_length))
  else if decide (strategy = Str RANDOM) then
    start_x ← randint 0 w;
    start_y ← randint 0 h;
    rand_x ← randint (start_x - distance) (start_x + distance);
    rand_y ← randint (start_y - distance) (start_y + distance);
    ret (mkVector start_x start_y, mkVector (Z.min rand_x w) (Z.min rand_y h))
  else raise UnboundLocalError.

(** [Painting.generate(ref, image, color_generator, canvas, num_strokes)]. *)
Definition generate (ref : string) (image : Image)
    (color_generator : WeightedRandomColors) (canvas : pixel)
    (num_strokes : Z) : P loc :=
  strategy ← choice [Vec HORIZONTAL; Vec VERTICAL; Str RANDOM];
  canvas ← Color_of (slice_to 3 canvas);
  brush_size ← randint 2 12;
  distance ← randint 5 200;
  let '(w, h) := size image in
  '(strokes_per_line, stroke_length) ←
    layout_parameters strategy w h num_strokes brush_size;
  strokes ← for_each (range num_strokes)
    (λ strokes i,
       '(start, end_) ← place_stroke strategy w h brush_size distance
                          strokes_per_line stroke_length i;
       px ← next color_generator;
       color ← Color_of (slice_to 3 px);
       ret (strokes ++ [mkStroke color brush_size start end_]))
    [];
  Painting_init ref canvas strokes.

(** The dict [{'r': r, 'g': g, 'b': b}] both [to_json] methods build after
    unpacking a colour into [r, g, b]. *)
Definition rgb_to_json (c : Color) : json :=
  Dict [("r", Int (r c)); ("g", Int (g c)); ("b", Int (b c))].

(** [Stroke.to_json()]. *)
Definition Stroke_to_json (self : Stroke) : json :=
  Dict [("color", rgb_to_json (color self));
        ("start", Dict [("x", Int (x (start self)));
                        ("y", Int (y (start self)))]);
        ("end", Dict [("x", Int (x (end_ self)));
                      ("y", Int (y (end_ self)))]);
        ("brushSize", Int (brush_size self))].

(** [Painting.to_json()]. *)
Definition Painting_to_json (self : loc) : P json :=
  self_canvas ← getattr self canvas;
  self_strokes ← getattr self strokes;
  ret (Dict [("canvasColor", rgb_to_json self_canvas);
             ("strokes", List (Stroke_to_json <$> self_strokes))]).

End painting.

(** ** genetics.py *)
Module genetics.
Import py PIL weighted_random painting.

Record ScoredPainting : Type := mkScoredPainting {
  score : Q;
  painting : loc;
  gen_id : Z
}.

Definition SPAN : string := "span".
Definition RANDOM : string := "random".
Definition SURVIVORS : string := "survivors".

Record GeneticPainting : Type := mkGeneticPainting {
  ref : string;
  image : Image;
  num_strokes : Z;
  pop_size : Z;
  mutation_chance : Q;
  fit_percentage : Q;
  lucky_few : Z;
  generation : Z;
  num_children : Z;
  canvas : pixel;
  weights : WeightedRandomColors;
  population : list loc
}.

(** [self.population = population]. *)
Definition set_population (population : list loc) (self : GeneticPainting)
  : GeneticPainting :=
  mkGeneticPainting (ref self) (image self) (num_strokes self)
    (pop_size self) (mutation_chance self) (fit_percentage self)
    (lucky_few self) (generation self) (num_children self) (canvas self)
    (weights self) population.

(** [self.generation += 1]. *)
Definition increment_generation (self : GeneticPainting) : GeneticPainting :=
  mkGeneticPainting (ref self) (image self) (num_strokes self)
    (pop_size self) (mutation_chance self) (fit_percentage self)
    (lucky_few self) (generation self + 1) (num_children self) (canvas self)
    (weights self) (population self).

(** [Counter(image_data).items()]: the colours in the order of their first
    occurrence, each with the number of its occurrences. *)
Fixpoint counter_add (x : pixel) (c : list (pixel * Z)) : list (pixel * Z) :=
  match c with
  | [] => [(x, 1%Z)]
  | (y, n) :: c' =>
      if decide (x = y) then (y, (n + 1)%Z) :: c' else (y, n) :: counter_add x c'
  end.

Definition Counter (data : list pixel) : list (pixel * Z) :=
  fold_left (λ c x, counter_add x c) data [].

(** The comprehension over the counter's items with [if count > 1]. *)
Definition more_than_once (items : list (pixel * Z)) : list (pixel * Z) :=
  filter (λ cw, (1 < cw.2)%Z) items.

(** [sorted(color_weights, key=itemgetter(1))]. *)
Definition by_count (color_weights : list (pixel * Z)) : list (pixel * Z) :=
  sorted Z.leb snd color_weights.

(** Lines 56 to 62 of [__init__]: the colour weights of an image. *)
Definition color_weights_of (image : Image) : list (pixel * Z) :=
  by_count (more_than_once (Counter (getdata image))).

Definition _generate_painting (self : GeneticPainting) : P loc :=
  generate (ref self) (image self) (weights self) (canvas self)
    (num_strokes self).

(** [create_population]: the result is a copy of the new population; the
    engine with the population assigned comes with it. *)
Definition create_population (self : GeneticPainting)
  : P (list loc * GeneticPainting) :=
  population ← for_each (range (pop_size self))
    (λ acc _, p ← _generate_painting self; ret (acc ++ [p])) [];
  ret (population, set_population population self).

(** [score_population(score_func)]. The scoring function is any
    computation over the world: it may read the paintings, draw random
    numbers and raise. *)
Definition score_population (self : GeneticPainting)
    (score_func : GeneticPainting → Z → loc → P Q)
  : P (list ScoredPainting) :=
  for_each (imap (λ i painting, (Z.of_nat i, painting)) (population self))
    (λ scored '(i, painting),
       score ← score_func self (i + 1)%Z painting;
       ret (scored ++ [mkScoredPainting score painting (i + 1)%Z]))
    [].

(** [GeneticPainting.__init__]. *)
Definition GeneticPainting_init (ref : string) (image : Image)
    (num_strokes pop_size : Z)
    (mutation_chance fit_percentage lucky_percentage : Q)
  : P GeneticPainting :=
  let lucky_few :=
    Qceiling (float_mul (float_of_int pop_size) lucky_percentage) in
  quotient ← float_floordiv (float_of_int pop_size)
    (float_add (float_mul (float_of_int pop_size) fit_percentage)
       (float_of_int lucky_few));
  let num_children := int_of quotient in
  let color_weights := color_weights_of image in
  most_common ← index_last color_weights;
  let canvas := most_common.1 in
  weights ← WeightedRandomColors_init color_weights;
  let self := mkGeneticPainting ref image num_strokes pop_size
    mutation_chance fit_percentage lucky_few 0 num_children canvas weights
    [] in
  '(population, self) ← create_population self;
  ret (set_population population self).

(** [winners] of [cull_the_herd]:
    [int(self.pop_size * self.fit_percentage)], the product of an int and
    a float. *)
Definition winners (self : GeneticPainting) : Z :=
  int_of (float_mul (float_of_int (pop_size self)) (fit_percentage self)).

(** [sorted(scored_generation, key=itemgetter(0))]. *)
Definition by_score (scored_generation : list ScoredPainting)
  : list ScoredPainting :=
  sorted Qle_bool score scored_generation.

(** [cull_the_herd(scored_generation, strategy)]. With a strategy that is
    neither SURVIVORS nor RANDOM no branch binds [additions], and
    [survivors.extend(additions)] reads an unbound local. *)
Definition cull_the_herd (self : GeneticPainting)
    (scored_generation : list ScoredPainting) (strategy : string)
  : P (list loc) :=
  let winners := winners self in
  let sorted_pop := by_score scored_generation in
  let survivors := slice_from (- winners) sorted_pop in
  additions ←
    (if decide (strategy = SURVIVORS) then
       sample (slice_to winners sorted_pop) (lucky_few self)
     else if decide (strategy = RANDOM) then
       for_each (range (lucky_few self))
         (λ acc _,
            p ← _generate_painting self;
            ret (acc ++ [mkScoredPainting 0 p 0]))
         []
     else raise UnboundLocalError);
  ret (painting <$> (survivors ++ additions)).

(** The strokes of a painting replaced by [strokes]. *)
Definition set_strokes (strokes : list Stroke) (o : Painting) : Painting :=
  mkPainting (painting.ref o) (painting.canvas o) (painting.num_strokes o)
    strokes.

(** The body of the loop of [mutate]; [u < mutation_chance] is written as
    the negation of [mutation_chance <= u]. *)
Definition mutate_one (mutation_chance : Q) (_ : unit) (painting : loc)
  : P unit :=
  u ← random;
  if negb (Qle_bool mutation_chance u) then
    strokes ← getattr painting strokes;
    shuffled ← shuffle strokes;
    update painting (set_strokes shuffled)
  else ret ().

(** [mutate()]. *)
Definition mutate (self : GeneticPainting) : P unit :=
  for_each (population self) (mutate_one (mutation_chance self)) ().

(** [parent1, parent2 = random.sample(breeders, 2)]. *)
Definition pair_off (breeders : list loc) : P (loc * loc) :=
  parents ← sample breeders 2;
  match parents with
  | [parent1; parent2] => ret (parent1, parent2)
  | _ => raise ValueError
  end.

(** [while len(next_generation) < self.pop_size: ...]. Every round appends
    one child, so the loop runs [pop_size - len(next_generation)] times
    (no time when that is negative); [n] counts the rounds left. *)
Fixpoint fill (n : nat) (breeders next_generation : list loc) : P (list loc) :=
  match n with
  | 0 => ret next_generation
  | S n' =>
      '(parent1, parent2) ← pair_off breeders;
      child ← Painting_mul parent1 parent2;
      fill n' breeders (next_generation ++ [child])
  end.

Definition fill_up (self : GeneticPainting) (breeders next_generation : list loc)
  : P (list loc) :=
  fill (Z.to_nat (pop_size self - Z.of_nat (length next_generation)))
    breeders next_generation.

(** The two nested [for] loops of strategy SPAN. *)
Definition span_pairs (self : GeneticPainting) (breeders : list loc)
  : P (list loc) :=
  for_each (range (Z.of_nat (length breeders) / 2))
    (λ next_generation i,
       for_each (range (num_children self))
         (λ next_generation _,
            parent1 ← index breeders (Z.to_nat i);
            parent2 ← index breeders (length breeders - (Z.to_nat i + 1));
            child ← Painting_mul parent1 parent2;
            ret (next_generation ++ [child]))
         next_generation)
    [].

(** What [breed] computes before it assigns to [self]. *)
Definition next_generation_of (self : GeneticPainting) (breeders : list loc)
    (strategy : string) : P (list loc) :=
  if decide (strategy = RANDOM) then
    fill_up self breeders []
  else if decide (strategy = SPAN) then
    next_generation ← span_pairs self breeders;
    next_generation ← fill_up self breeders next_generation;
    ret (slice_to (pop_size self) next_generation)
  else
    raise (BreedError ("Unsupported breeding strategy: " +:+ strategy)).

(** [breed(breeders, strategy)]: the result, the engine and the world
    after the call. The engine is assigned to only after the new
    generation is complete. *)
Definition breed (self : GeneticPainting) (breeders : list loc)
    (strategy : string) (w : world Painting)
  : outcome (list loc) * GeneticPainting * world Painting :=
  match next_generation_of self breeders strategy w with
  | (Ok next_generation, w') =>
      (Ok next_generation,
       increment_generation (set_population next_generation self), w')
  | (Raise e, w') => (Raise e, self, w')
  end.

End genetics.


(** ** jop.py *)
Module jop.
Import py painting genetics.

(** The calls on the engine in the body of the generation loop of
    [happy_little_accidents]:
    [survivors = world.cull_the_herd(scored, strategy=genetics.SURVIVORS)],
    [world.breed(survivors)], with the default strategy SPAN, and
    [world.mutate()]. The outcome, the engine and the world after them; an
    exception ends the run where it is raised. *)
Definition next_generation (engine : GeneticPainting)
    (scored : list ScoredPainting) (w : world Painting)
  : outcome unit * GeneticPainting * world Painting :=
  match cull_the_herd engine scored SURVIVORS w with
  | (Ok survivors, w1) =>
      match breed engine survivors SPAN w1 with
      | (Ok _, engine', w2) =>
          let '(r, w3) := mutate engine' w2 in (r, engine', w3)
      | (Raise e, engine', w2) => (Raise e, engine', w2)
      end
  | (Raise e, w1) => (Raise e, engine, w1)
  end.

End jop.
(** * Vocabulary of the properties *)

Import py PIL weighted_random painting.

(** ** Scenario data *)

Definition RED : pixel := [255; 0; 0]%Z.
Definition BLUE : pixel := [0; 0; 255]%Z.
Definition GREEN : pixel := [0; 255; 0]%Z.

(** A world with an empty heap whose random tape is all zeros: every
    choice takes the first candidate, every range its lower bound. *)
Definition quiet_world : world Painting := World (λ _, 0%N) ∅.

(** A world whose tape is [3, 10, 17, ...]. *)
Definition lively_world : world Painting :=
  World (λ n, N.of_nat (n * 7 + 3)) ∅.

(** The histogram of the sampler scenario, as the items of a counter. *)
Definition scenario_histogram : list (pixel * Z) :=
  [(RED, 5%Z); (BLUE, 3%Z); (GREEN, 1%Z)].

(** An image with five red, three blue and one green pixel. *)
Definition scenario_image : Image :=
  mkImage (3, 3)%Z (replicate 5 RED ++ replicate 3 BLUE ++ [GREEN]).

(** A 100 by 100 image of the same nine colours. *)
Definition square_image : Image :=
  mkImage (100, 100)%Z (getdata scenario_image).

(** The sampler [__init__] builds for the scenario: blue up to 3, red up
    to 8. *)
Definition scenario_sampler : WeightedRandomColors :=
  mkWeightedRandomColors [3; 8]%Z [BLUE; RED].

(** An engine with the given sizes over the scenario image; the fields
    [cull_the_herd] and [breed] do not read are arbitrary. *)
Definition engine (pop_size : Z) (fit_percentage : Q) (lucky_few : Z)
    (num_children : Z) (population : list loc) : genetics.GeneticPainting :=
  genetics.mkGeneticPainting "1.png" square_image 30 pop_size (1 # 10)
    fit_percentage lucky_few 0 num_children RED scenario_sampler population.

(** ** Running a computation *)

(** [returns m w Q]: run in [w], [m] returns normally, with a value and a
    world that satisfy [Q]. *)
Definition returns {O A} (m : M O A) (w : world O)
    (Q : A → world O → Prop) : Prop :=
  ∃ a w', m w = (Ok a, w') ∧ Q a w'.

(** [stable R m]: whatever its outcome, [m] takes a world to one that is
    [R]-related to it. *)
Definition stable {O A} (R : world O → world O → Prop) (m : M O A) : Prop :=
  ∀ w, R w (m w).2.


(** The world after one number has been taken off the random tape. *)
Definition drawn {O} (w : world O) : world O :=
  World (λ n, rng w (S n)) (heap w).

(** What [randbelow(n)] makes of the number at position [i] of the
    tape. *)
Definition pick {O} (w : world O) (i n : nat) : nat :=
  N.to_nat (rng w i `mod` N.of_nat n).

(** The heap is what it was; only the random tape may have advanced. *)
Definition same_heap {O} (w w' : world O) : Prop := heap w' = heap w.

(** The heap has only grown: every object is where and what it was. *)
Definition heap_extended {O} (w w' : world O) : Prop := heap w ⊆ heap w'.

(** An image in which no colour occurs twice. *)
Definition two_pixel_image : Image := mkImage (2, 1)%Z [RED; BLUE].

(** [ensures m w Q]: run in [w], [m] ends, normally or not, with an
    outcome and a world that satisfy [Q]. *)
Definition ensures {O A} (m : M O A) (w : world O)
    (Q : outcome A → world O → Prop) : Prop :=
  Q (m w).1 (m w).2.

(** ** Genomes *)

(** What [__init__] establishes and no method breaks: the attribute
    [num_strokes] of a painting is the length of its stroke list. *)
Definition well_formed (o : Painting) : Prop :=
  num_strokes o = Z.of_nat (length (strokes o)).

(** [child] is a position-wise crossover of [mother] and [father]: the
    reference of the mother, the canvas of either, as many strokes as the
    mother, and at every index the stroke either parent has there. *)
Definition crossover (mother father child : Painting) : Prop :=
  ref child = ref mother
  ∧ (canvas child = canvas mother ∨ canvas child = canvas father)
  ∧ num_strokes child = Z.of_nat (length (strokes child))
  ∧ length (strokes child) = length (strokes mother)
  ∧ ∀ i s, strokes child !! i = Some s →
           strokes mother !! i = Some s ∨ strokes father !! i = Some s.

(** Whether the draw made at position [i] of the tape of [w], a choice
    between two, takes the second of them. *)
Definition picks_other (w : world Painting) (i : nat) : bool :=
  bool_decide (pick w i 2 = 1).

(** [genome w l o]: in the world [w] the reference [l] is to the painting
    [o], an object as [Painting.__init__] makes them. *)
Definition genome (w : world Painting) (l : loc) (o : Painting) : Prop :=
  heap w !! l = Some o ∧ well_formed o.

(** ** An atelier for the examples *)

Definition stroke_at (c : pixel) (x y : Z) : Stroke :=
  match c with
  | [r; g; b] => mkStroke (mkColor r g b) 2 (mkVector x y) (mkVector (x + 9) y)
  | _ => mkStroke (mkColor 0 0 0) 2 (mkVector x y) (mkVector (x + 9) y)
  end.

Definition red_painting : Painting :=
  mkPainting "1.png" (mkColor 255 0 0) 3
    [stroke_at RED 2 2; stroke_at RED 2 6; stroke_at RED 2 10].

Definition blue_painting : Painting :=
  mkPainting "1.png" (mkColor 0 0 255) 3
    [stroke_at BLUE 2 2; stroke_at BLUE 2 6; stroke_at BLUE 2 10].

Definition green_painting : Painting :=
  mkPainting "1.png" (mkColor 0 255 0) 3
    [stroke_at GREEN 2 2; stroke_at GREEN 2 6; stroke_at GREEN 2 10].

Definition grey_painting : Painting :=
  mkPainting "1.png" (mkColor 128 128 128) 3
    [stroke_at [128; 128; 128]%Z 2 2; stroke_at [128; 128; 128]%Z 2 6;
     stroke_at [128; 128; 128]%Z 2 10].

(** Four paintings of three strokes each, at the references 1 to 4. *)
Definition atelier : world Painting :=
  World (rng lively_world)
    (<[4%positive := grey_painting]>
       (<[3%positive := green_painting]>
          (<[2%positive := blue_painting]>
             (<[1%positive := red_painting]> ∅)))).

(** The four paintings of the atelier with scores, in population order. *)
Definition scored_atelier : list genetics.ScoredPainting :=
  [ genetics.mkScoredPainting (3 # 10) 1%positive 1;
    genetics.mkScoredPainting (9 # 10) 2%positive 2;
    genetics.mkScoredPainting (5 # 10) 3%positive 3;
    genetics.mkScoredPainting (7 # 10) 4%positive 4 ].

(** ** Mutation *)

(** [reordered o o']: [o'] is [o] with its strokes in some other order. *)
Definition reordered (o o' : Painting) : Prop :=
  ref o' = ref o
  ∧ canvas o' = canvas o
  ∧ num_strokes o' = num_strokes o
  ∧ strokes o' ≡ₚ strokes o.

(** The same references are in use, and every object is a reordering of
    what it was. *)
Definition reordering (w w' : world Painting) : Prop :=
  ∀ l, option_Forall2 reordered (heap w !! l) (heap w' !! l).

(** Whether the roll [random.random() < mutation_chance] made in the world
    [w] fires. *)
Definition fires (mutation_chance : Q) (w : world Painting) : bool :=
  match (random w).1 with
  | Ok u => negb (Qle_bool mutation_chance u)
  | Raise _ => false
  end.

(** The rolls of a run of the loop of [mutate] from the world [w], one per
    entry of the population, each made in the world the rounds before it
    have left. *)
Fixpoint rolls (mutation_chance : Q) (population : list loc)
    (w : world Painting) : list bool :=
  match population with
  | [] => []
  | painting :: rest =>
      fires mutation_chance w
      :: rolls mutation_chance rest
           (genetics.mutate_one mutation_chance () painting w).2
  end.

(** ** Breeding *)

(** In the world [w] the painting at [c] is a crossover of the paintings
    at [a] and [b]. *)
Definition offspring (w : world Painting) (a b c : loc) : Prop :=
  ∃ mother father child,
    heap w !! a = Some mother
    ∧ heap w !! b = Some father
    ∧ heap w !! c = Some child
    ∧ crossover mother father child.

(** [a] and [b] are breeders at two different positions of the list. *)
Definition distinct_pair (breeders : list loc) (a b : loc) : Prop :=
  ∃ i j, i ≠ j ∧ breeders !! i = Some a ∧ breeders !! j = Some b.

(** The child at position [k] of the new generation comes from the pair of
    strategy SPAN that position belongs to: with [n] children per pair,
    pair [k / n], that is the breeder at [k / n] and the breeder at
    [len(breeders) - (k / n + 1)]. *)
Definition spanned (breeders : list loc) (n : nat) (w : world Painting)
    (k : nat) (c : loc) : Prop :=
  ∃ a b,
    breeders !! (k `div` n) = Some a
    ∧ breeders !! (length breeders - (k `div` n + 1)) = Some b
    ∧ offspring w a b c.

(** A part of a new generation, bred from [breeders] since the world
    [w0]: the heap has only grown, and the children are different new
    objects, each the offspring of two breeders at different positions. *)
Definition bred (w0 : world Painting) (breeders : list loc)
    (children : list loc) (w : world Painting) : Prop :=
  heap_extended w0 w
  ∧ NoDup children
  ∧ Forall (λ c, heap w0 !! c = None
                 ∧ ∃ a b, distinct_pair breeders a b ∧ offspring w a b c)
      children.

(** The breeders are genomes of [N] strokes each. *)
Definition uniform (w : world Painting) (N : nat) (breeders : list loc)
  : Prop :=
  Forall (λ l, ∃ o, genome w l o ∧ length (strokes o) = N) breeders.

(** A painting of a single stroke. *)
Definition short_painting : Painting :=
  mkPainting "1.png" (mkColor 0 0 0) 1 [stroke_at [0; 0; 0]%Z 2 2].

(** The atelier with the short painting added at the reference 5. *)
Definition mixed_atelier : world Painting :=
  World (rng atelier) (<[5%positive := short_painting]> (heap atelier)).

(** ** The sampler *)

(** The sum of the weights of a list of colour weights. *)
Definition weight_sum (color_weights : list (pixel * Z)) : Z :=
  foldr (λ cw acc, (cw.2 + acc)%Z) 0%Z color_weights.

(** The totals never go down. *)
Definition ascending_totals (totals : list Z) : Prop :=
  ∀ i j a b, i ≤ j → totals !! i = Some a → totals !! j = Some b → (a ≤ b)%Z.

(** ** The histogram *)

(** How many pixels of [data] have the colour [px]. *)
Definition occurrences (px : pixel) (data : list pixel) : Z :=
  Z.of_nat (length (filter (λ y, y = px) data)).

(** One more occurrence of [px] in a counter held as a map. *)
Definition count_one (m : gmap pixel Z) (px : pixel) : gmap pixel Z :=
  <[px := (default 0 (m !! px) + 1)%Z]> m.

(** ** The strokes of a generated painting *)

(** A stroke of the HORIZONTAL tiling of an image of width [wd]: level,
    from left to right, at least a brush size from the left edge, and
    either a single point or ending at least a brush size before the
    right edge. *)
Definition horizontal_stroke (wd : Z) (st : Stroke) : Prop :=
  y (end_ st) = y (start st)
  ∧ (brush_size st ≤ x (start st) ≤ x (end_ st))%Z
  ∧ (brush_size st ≤ y (start st))%Z
  ∧ (end_ st = start st ∨ (x (end_ st) ≤ wd - brush_size st)%Z).

(** The same for the VERTICAL tiling of an image of height [ht]. *)
Definition vertical_stroke (ht : Z) (st : Stroke) : Prop :=
  x (end_ st) = x (start st)
  ∧ (brush_size st ≤ y (start st) ≤ y (end_ st))%Z
  ∧ (brush_size st ≤ x (start st))%Z
  ∧ (end_ st = start st ∨ (y (end_ st) ≤ ht - brush_size st)%Z).

(** A stroke of the RANDOM layout: it starts inside the image, it ends
    no further right or down than the image goes, and no further than 200
    from its start along either axis. *)
Definition scattered_stroke (wd ht : Z) (st : Stroke) : Prop :=
  (0 ≤ x (start st) ≤ wd)%Z
  ∧ (0 ≤ y (start st) ≤ ht)%Z
  ∧ (x (end_ st) ≤ wd)%Z
  ∧ (y (end_ st) ≤ ht)%Z
  ∧ (Z.abs (x (end_ st) - x (start st)) ≤ 200)%Z
  ∧ (Z.abs (y (end_ st) - y (start st)) ≤ 200)%Z.

(** The colour made of the first three bands of a pixel. *)
Definition first_three_bands (px : pixel) (c : Color) : Prop :=
  ∃ r g b, take 3 px = [r; g; b] ∧ c = mkColor r g b.

(** What the loop of [generate] makes of one index: a stroke of the brush
    size drawn, in a colour of the sampler, placed by the layout. *)
Definition placed (s : strategy) (wd ht num_strokes brush distance
    strokes_per_line stroke_length : Z) (sampler : WeightedRandomColors)
    (st : Stroke) : Prop :=
  brush_size st = brush
  ∧ (∃ px, px ∈ colors sampler ∧ first_three_bands px (color st))
  ∧ ∃ i w w',
      (0 ≤ i < num_strokes)%Z
      ∧ place_stroke s wd ht brush distance strokes_per_line stroke_length
          i w = (Ok (start st, end_ st), w').
(** * Properties *)

(** ** The monad *)

Lemma bind_run {O A B} (m : M O A) (f : A → M O B) (w : world O) :
  (m ≫= f) w =
  match m w with
  | (Ok a, w') => f a w'
  | (Raise e, w') => (Raise e, w')
  end.
Proof. reflexivity. Qed.

Lemma bind_ok {O A B} (m : M O A) (f : A → M O B) (w w' : world O) (a : A) :
  m w = (Ok a, w') → (m ≫= f) w = f a w'.
Proof. intros Hm. by rewrite bind_run, Hm. Qed.

Lemma bind_raise {O A B} (m : M O A) (f : A → M O B) (w w' : world O)
    (e : exn) :
  m w = (Raise e, w') → (m ≫= f) w = (Raise e, w').
Proof. intros Hm. by rewrite bind_run, Hm. Qed.

Lemma ret_run {O A} (a : A) (w : world O) : (ret a : M O A) w = (Ok a, w).
Proof. reflexivity. Qed.

Lemma raise_run {O A} (e : exn) (w : world O) :
  (raise e : M O A) w = (Raise e, w).
Proof. reflexivity. Qed.

Lemma returns_ret {O A} (a : A) (w : world O) (Q : A → world O → Prop) :
  Q a w → returns (ret a) w Q.
Proof. intros HQ. exists a, w. split; [reflexivity | exact HQ]. Qed.

Lemma returns_bind {O A B} (m : M O A) (f : A → M O B) (w : world O)
    (Q : B → world O → Prop) :
  returns m w (λ a w', returns (f a) w' Q) → returns (m ≫= f) w Q.
Proof.
  intros (a & w' & Hm & b & w'' & Hf & HQ).
  exists b, w''. rewrite bind_run, Hm. split; assumption.
Qed.

Lemma returns_mono {O A} (m : M O A) (w : world O)
    (Q Q' : A → world O → Prop) :
  returns m w Q → (∀ a w', Q a w' → Q' a w') → returns m w Q'.
Proof.
  intros (a & w' & Hm & HQ) Himp. exists a, w'. split; [exact Hm | auto].
Qed.

Section Stable.
Context {O : Type} (R : world O → world O → Prop).
Context `{!Reflexive R, !Transitive R}.

Lemma stable_ret {A} (a : A) : stable R (ret a : M O A).
Proof. intros w. simpl. reflexivity. Qed.

Lemma stable_raise {A} (e : exn) : stable R (raise e : M O A).
Proof. intros w. simpl. reflexivity. Qed.

Lemma stable_bind {A B} (m : M O A) (f : A → M O B) :
  stable R m → (∀ a, stable R (f a)) → stable R (m ≫= f).
Proof.
  intros Hm Hf w. rewrite bind_run. specialize (Hm w).
  destruct (m w) as [[a | e] w']; simpl in *.
  - transitivity w'; [exact Hm | apply Hf].
  - exact Hm.
Qed.

Lemma stable_for_each {A B} (xs : list A) (body : B → A → M O B) (acc : B) :
  (∀ acc x, stable R (body acc x)) → stable R (for_each xs body acc).
Proof.
  intros Hbody. revert acc.
  induction xs as [| x xs IH]; intros acc; simpl.
  - apply stable_ret.
  - apply stable_bind; [apply Hbody | intros acc'; apply IH].
Qed.
End Stable.

(** ** Operations that leave the heap alone *)

#[local] Instance same_heap_refl {O} : Reflexive (@same_heap O).
Proof. intros w. reflexivity. Qed.

#[local] Instance same_heap_trans {O} : Transitive (@same_heap O).
Proof. intros w1 w2 w3 H12 H23. unfold same_heap in *. congruence. Qed.

#[local] Instance heap_extended_refl {O} : Reflexive (@heap_extended O).
Proof. intros w. unfold heap_extended. reflexivity. Qed.

#[local] Instance heap_extended_trans {O} : Transitive (@heap_extended O).
Proof. intros w1 w2 w3 H12 H23. unfold heap_extended in *. by etrans. Qed.

Lemma same_heap_extended {O} (w w' : world O) :
  same_heap w w' → heap_extended w w'.
Proof. unfold same_heap, heap_extended. intros ->. reflexivity. Qed.

Create HintDb quiet discriminated.

(** Takes a computation apart along its binds, branches and loops; the
    leaves are closed by the lemmas of the [quiet] database. *)
Ltac quiet :=
  repeat first
    [ match goal with
      | |- Reflexive _ => exact _
      | |- Transitive _ => exact _
      end
    | apply stable_ret
    | apply stable_raise
    | apply stable_bind; try exact _; [| intros ?]
    | apply stable_for_each; try exact _; intros ? ?
    | solve [auto with quiet]
    | case_match ].

Section Quiet.
Context {O : Type}.
Local Abbreviation quietly := (stable (@same_heap O)).

Lemma draw_quiet : quietly draw.
Proof. intros w. reflexivity. Qed.
Hint Resolve draw_quiet : quiet.

Lemma randbelow_quiet n : quietly (randbelow n).
Proof. unfold randbelow. quiet. Qed.
Hint Resolve randbelow_quiet : quiet.

Lemma random_quiet : quietly random.
Proof. unfold random. quiet. Qed.

Lemma randint_quiet a b : quietly (randint a b).
Proof. unfold randint. quiet. Qed.

Lemma index_quiet {A} (l : list A) i : quietly (index l i).
Proof. unfold index. quiet. Qed.
Hint Resolve index_quiet : quiet.

Lemma index_last_quiet {A} (l : list A) : quietly (index_last l).
Proof. unfold index_last. quiet. Qed.

Lemma choice_quiet {A} (l : list A) : quietly (choice l).
Proof. unfold choice. quiet. Qed.

Lemma deref_quiet l : quietly (deref l).
Proof. intros w. unfold deref. destruct (heap w !! l); reflexivity. Qed.

Lemma floordiv_quiet a b : quietly (floordiv a b).
Proof. unfold floordiv. quiet. Qed.

Lemma modulo_quiet a b : quietly (modulo a b).
Proof. unfold modulo. quiet. Qed.

Lemma sample_loop_quiet {A} k (pool : list A) : quietly (sample_loop k pool).
Proof. revert pool. induction k as [| k IH]; intros pool; simpl; quiet. Qed.
Hint Resolve sample_loop_quiet : quiet.

Lemma sample_quiet {A} (population : list A) k : quietly (sample population k).
Proof. unfold sample. quiet. Qed.

Lemma shuffle_from_quiet {A} i (x : list A) : quietly (shuffle_from i x).
Proof. revert x. induction i as [| i IH]; intros x; simpl; quiet. Qed.
Hint Resolve shuffle_from_quiet : quiet.

Lemma shuffle_quiet {A} (x : list A) : quietly (shuffle x).
Proof. unfold shuffle. quiet. Qed.

Lemma resolve_quiet self rnd : quietly (resolve self rnd).
Proof. unfold resolve. quiet. Qed.

Lemma WeightedRandomColors_init_quiet cw :
  quietly (WeightedRandomColors_init cw).
Proof. unfold WeightedRandomColors_init. quiet. Qed.
End Quiet.

#[export] Hint Resolve draw_quiet randbelow_quiet random_quiet randint_quiet
  index_quiet index_last_quiet choice_quiet deref_quiet floordiv_quiet
  modulo_quiet sample_loop_quiet sample_quiet shuffle_from_quiet
  shuffle_quiet resolve_quiet WeightedRandomColors_init_quiet : quiet.

Lemma next_quiet {O} self : stable (@same_heap O) (next self).
Proof. unfold next. quiet. Qed.

Lemma Color_of_quiet {O} rgb : stable (@same_heap O) (Color_of rgb).
Proof. unfold Color_of. quiet. Qed.

Lemma getattr_quiet {A} l (field : Painting → A) :
  stable same_heap (getattr l field).
Proof. unfold getattr. quiet. Qed.

#[export] Hint Resolve next_quiet Color_of_quiet getattr_quiet : quiet.

Lemma layout_parameters_quiet s w h n bs :
  stable same_heap (layout_parameters s w h n bs).
Proof. unfold layout_parameters. quiet. Qed.

Lemma place_stroke_quiet s w h bs d spl sl i :
  stable same_heap (place_stroke s w h bs d spl sl i).
Proof. unfold place_stroke. quiet. Qed.

#[export] Hint Resolve layout_parameters_quiet place_stroke_quiet : quiet.

(** ** Rules for total and partial runs *)

Lemma ensures_bind {O A B} (m : M O A) (f : A → M O B) (w : world O)
    (Q : outcome B → world O → Prop) :
  ensures m w (λ r w', match r with
                       | Ok a => ensures (f a) w' Q
                       | Raise e => Q (Raise e) w'
                       end) →
  ensures (m ≫= f) w Q.
Proof.
  unfold ensures. rewrite bind_run.
  destruct (m w) as [[a | e] w']; simpl; auto.
Qed.

Lemma ensures_mono {O A} (m : M O A) (w : world O)
    (Q Q' : outcome A → world O → Prop) :
  ensures m w Q → (∀ r w', Q r w' → Q' r w') → ensures m w Q'.
Proof. unfold ensures. auto. Qed.

Lemma ensures_stable {O A} (R : world O → world O → Prop) (m : M O A)
    (w : world O) (Q : outcome A → world O → Prop) :
  stable R m → (∀ r w', R w w' → Q r w') → ensures m w Q.
Proof. intros Hm HQ. apply HQ, Hm. Qed.

Lemma returns_ensures {O A} (m : M O A) (w : world O)
    (Q : A → world O → Prop) :
  returns m w Q →
  ensures m w (λ r w', match r with Ok a => Q a w' | Raise _ => False end).
Proof. intros (a & w' & Hm & HQ). unfold ensures. rewrite Hm. exact HQ. Qed.

Lemma for_each_returns {O A B} (I : nat → B → world O → Prop)
    (xs : list A) (body : B → A → M O B) (acc : B) (w : world O) :
  I 0 acc w →
  (∀ k x acc w, xs !! k = Some x → I k acc w →
                returns (body acc x) w (I (S k))) →
  returns (for_each xs body acc) w (I (length xs)).
Proof.
  revert I acc w. induction xs as [| x xs IH]; intros I acc w H0 Hstep; simpl.
  - apply returns_ret. exact H0.
  - apply returns_bind.
    eapply returns_mono; [apply (Hstep 0 x acc w eq_refl H0) |].
    intros acc' w' H1. simpl in H1.
    apply (IH (λ k, I (S k))); [exact H1 |].
    intros k y acc'' w'' Hy Hk. apply (Hstep (S k)); assumption.
Qed.

Lemma range_lookup (n : Z) (k : nat) (i : Z) :
  range n !! k = Some i → i = Z.of_nat k ∧ (Z.of_nat k < n)%Z.
Proof.
  unfold range. rewrite list_lookup_fmap. intros Hk.
  destruct (seq 0 (Z.to_nat n) !! k) as [j |] eqn:Hj; [| discriminate].
  apply lookup_seq in Hj as [-> Hlt]. simpl in Hk. inversion Hk. lia.
Qed.

Lemma range_length (n : Z) : length (range n) = Z.to_nat n.
Proof. unfold range. by rewrite length_fmap, length_seq. Qed.

(** ** The primitives, when they return *)

Lemma randbelow_returns {O} (n : nat) (w : world O) :
  returns (randbelow n) w (λ k w', (0 < n → k < n) ∧ same_heap w w').
Proof.
  eexists _, _. split; [reflexivity |]. split; [| reflexivity].
  intros Hn. pose proof (N.mod_lt (rng w 0) (N.of_nat n)). lia.
Qed.

Lemma randbelow_run {O} (n : nat) (w : world O) :
  randbelow n w = (Ok (pick w 0 n), drawn w).
Proof. reflexivity. Qed.

Lemma randint_run {O} (a b : Z) (w : world O) :
  (a ≤ b)%Z →
  randint a b w
  = (Ok (a + Z.of_nat (pick w 0 (Z.to_nat (b - a + 1))))%Z, drawn w).
Proof.
  intros Hab. unfold randint. destruct (Z.ltb_spec b a); [lia |].
  reflexivity.
Qed.

Lemma index_run {O A} (l : list A) (i : nat) (a : A) (w : world O) :
  l !! i = Some a → index l i w = (Ok a, w).
Proof. unfold index. intros ->. reflexivity. Qed.

Lemma choice_returns {O A} (l : list A) (w : world O) :
  l ≠ [] → returns (choice l) w (λ a w', a ∈ l ∧ same_heap w w').
Proof.
  intros Hl. unfold choice. destruct l as [| a0 l0] eqn:El; [done |].
  rewrite <- El. apply returns_bind.
  eapply returns_mono; [apply randbelow_returns |].
  intros k w' [Hk Hw']. cbv beta in *.
  destruct (lookup_lt_is_Some_2 l k) as [a Ha].
  { apply Hk. rewrite El. simpl. lia. }
  exists a, w'. split; [by apply index_run |].
  split; [by eapply list_elem_of_lookup_2 | exact Hw'].
Qed.

Lemma choice_run {O A} (l : list A) (a : A) (w : world O) :
  l !! pick w 0 (length l) = Some a →
  choice l w = (Ok a, drawn w).
Proof.
  intros Ha. unfold choice. destruct l as [| a0 l0] eqn:El; [done |].
  rewrite <- El in *. rewrite bind_run, randbelow_run.
  by apply index_run.
Qed.

Lemma floordiv_run {O} (a b : Z) (w : world O) :
  b ≠ 0%Z → floordiv a b w = (Ok (a `div` b)%Z, w).
Proof. intros Hb. unfold floordiv. destruct (Z.eqb_spec b 0); done. Qed.

Lemma floordiv_zero {O} (a : Z) (w : world O) :
  floordiv a 0 w = (Raise ZeroDivisionError, w).
Proof. reflexivity. Qed.



Lemma deref_run {O} (l : loc) (o : O) (w : world O) :
  heap w !! l = Some o → deref l w = (Ok o, w).
Proof. unfold deref. intros ->. reflexivity. Qed.

Lemma getattr_run {A} (l : loc) (field : Painting → A) (o : Painting)
    (w : world Painting) :
  heap w !! l = Some o → getattr l field w = (Ok (field o), w).
Proof.
  intros Hl. unfold getattr. rewrite bind_run, (deref_run l o w Hl).
  reflexivity.
Qed.

Lemma getattr_returns {A} (l : loc) (field : Painting → A) (o : Painting)
    (w : world Painting) (Q : A → world Painting → Prop) :
  heap w !! l = Some o → Q (field o) w → returns (getattr l field) w Q.
Proof. intros Hl HQ. exists (field o), w. by rewrite (getattr_run l field o). Qed.

Lemma alloc_fresh {O} (o : O) (w : world O) :
  ∃ l, alloc o w = (Ok l, World (rng w) (<[l := o]> (heap w)))
       ∧ heap w !! l = None.
Proof.
  exists (fresh (dom (heap w))). split; [reflexivity |].
  apply not_elem_of_dom, is_fresh.
Qed.

Lemma for_each_ensures {O A B} (I : nat → B → world O → Prop)
    (E : world O → Prop) (xs : list A) (body : B → A → M O B) (acc : B)
    (w : world O) :
  I 0 acc w →
  (∀ k x acc w1, xs !! k = Some x → I k acc w1 →
     ensures (body acc x) w1
       (λ r w2, match r with
                | Ok acc' => I (S k) acc' w2
                | Raise _ => E w2
                end)) →
  ensures (for_each xs body acc) w
    (λ r w', match r with
             | Ok acc' => I (length xs) acc' w'
             | Raise _ => E w'
             end).
Proof.
  revert I acc w. induction xs as [| x xs IH]; intros I acc w H0 Hstep; simpl.
  - exact H0.
  - apply ensures_bind.
    eapply ensures_mono; [apply (Hstep 0 x acc w eq_refl H0) |].
    intros [acc' | e] w1 H1; [| exact H1].
    apply (IH (λ k, I (S k))); [exact H1 |].
    intros k y acc'' w2 Hy Hk. apply (Hstep (S k)); assumption.
Qed.

Lemma float_floordiv_cases {O} (v w : Q) (wd : world O) :
  float_floordiv v w wd = (Raise ZeroDivisionError, wd)
  ∨ ∃ q, float_floordiv v w wd = (Ok q, wd).
Proof.
  unfold float_floordiv. destruct (Qeq_bool (round64 w) 0); [by left |].
  right. destruct (Qeq_bool _ 0); eexists; reflexivity.
Qed.

(** ** Unsupported strategies *)

(** C7. [breed] called with a strategy that is neither SPAN nor RANDOM
    raises [BreedError], the unsupported-strategy error of the repository,
    and the engine (its population list, its generation counter and every
    other field) and the world are exactly what they were before the
    call. *)
Theorem breed_unsupported_strategy (self : genetics.GeneticPainting)
    (breeders : list loc) (strategy : string) (w : world Painting) :
  strategy ≠ genetics.SPAN →
  strategy ≠ genetics.RANDOM →
  genetics.breed self breeders strategy w =
    (Raise (BreedError ("Unsupported breeding strategy: " +:+ strategy)),
     self, w).
Proof.
  intros Hspan Hrandom.
  unfold genetics.breed, genetics.next_generation_of.
  destruct (decide (strategy = genetics.RANDOM)) as [-> | _]; [done |].
  destruct (decide (strategy = genetics.SPAN)) as [-> | _]; [done |].
  reflexivity.
Qed.

Lemma breed_unsupported_strategy_zigzag :
  genetics.breed (engine 10 (1 # 5) 1 3 [1; 2; 3]%positive) [1; 2]%positive
    "zigzag" quiet_world =
    (Raise (BreedError "Unsupported breeding strategy: zigzag"),
     engine 10 (1 # 5) 1 3 [1; 2; 3]%positive, quiet_world).
Proof.
  apply (breed_unsupported_strategy
           (engine 10 (1 # 5) 1 3 [1; 2; 3]%positive) [1; 2]%positive
           "zigzag" quiet_world);
    vm_compute; discriminate.
Defined.

(** C8. [cull_the_herd] called with the strategy ["zigzag"] does fail, but
    with the built-in [UnboundLocalError] of the read of [additions], which
    no branch has bound, and not with an error of the [GeneticsError]
    family, which is what [breed] raises for an unsupported strategy. *)
Theorem cull_the_herd_zigzag_unbound_local (self : genetics.GeneticPainting)
    (scored_generation : list genetics.ScoredPainting) (w : world Painting) :
  genetics.cull_the_herd self scored_generation "zigzag" w =
    (Raise UnboundLocalError, w)
  ∧ is_GeneticsError UnboundLocalError = false.
Proof. split; reflexivity. Qed.

(** The same for every strategy that is neither SURVIVORS nor RANDOM. *)
Lemma cull_the_herd_unsupported_strategy (self : genetics.GeneticPainting)
    (scored_generation : list genetics.ScoredPainting) (strategy : string)
    (w : world Painting) :
  strategy ≠ genetics.SURVIVORS →
  strategy ≠ genetics.RANDOM →
  genetics.cull_the_herd self scored_generation strategy w =
    (Raise UnboundLocalError, w).
Proof.
  intros Hsurvivors Hrandom. unfold genetics.cull_the_herd.
  destruct (decide (strategy = genetics.SURVIVORS)) as [-> | _]; [done |].
  destruct (decide (strategy = genetics.RANDOM)) as [-> | _]; [done |].
  reflexivity.
Qed.

(** ** The colour sampler *)

(** C3, as stated, fails: for the scenario histogram the cumulative totals
    are not [[5, 8]], and the draw value 7.9 does not resolve to blue. *)
Lemma scenario_sampler_not_5_8_blue :
  ∃ sampler,
    WeightedRandomColors_init
      (genetics.by_count (genetics.more_than_once scenario_histogram))
      quiet_world = (Ok sampler, quiet_world)
    ∧ totals sampler ≠ [5; 8]%Z
    ∧ (resolve sampler (79 # 10) quiet_world).1 ≠ Ok BLUE.
Proof.
  exists scenario_sampler. split; [reflexivity |].
  split; vm_compute; discriminate.
Qed.

(** The six orders in which a counter can hold the three entries. *)
Lemma scenario_histogram_orders (items : list (pixel * Z)) :
  items ≡ₚ scenario_histogram →
  items ∈ [ [(RED, 5); (BLUE, 3); (GREEN, 1)]; [(RED, 5); (GREEN, 1); (BLUE, 3)];
            [(BLUE, 3); (RED, 5); (GREEN, 1)]; [(BLUE, 3); (GREEN, 1); (RED, 5)];
            [(GREEN, 1); (RED, 5); (BLUE, 3)]; [(GREEN, 1); (BLUE, 3); (RED, 5)]
          ]%Z.
Proof.
  intros Hperm.
  assert (Hlen : length items = 3) by (by rewrite Hperm).
  destruct items as [| a [| b [| c [| ? ?]]]]; try discriminate Hlen.
  assert (Ha : a ∈ scenario_histogram)
    by (rewrite <- Hperm; repeat constructor).
  assert (Hb : b ∈ scenario_histogram)
    by (rewrite <- Hperm; repeat constructor).
  assert (Hc : c ∈ scenario_histogram)
    by (rewrite <- Hperm; repeat constructor).
  assert (Hnd : NoDup [a; b; c]).
  { rewrite Hperm. apply (bool_decide_unpack _). vm_compute. exact I. }
  unfold scenario_histogram in Ha, Hb, Hc.
  apply NoDup_cons in Hnd as [Hab Hnd].
  apply NoDup_cons in Hnd as [Hbc _].
  repeat match goal with
         | H : _ ∈ _ :: _ |- _ => apply elem_of_cons in H as [-> | H]
         | H : _ ∈ [] |- _ => by apply elem_of_nil in H
         end;
    first [ by repeat constructor
          | exfalso; apply Hab; by repeat constructor
          | exfalso; apply Hbc; by repeat constructor ].
Qed.

(** C3, amended. Whatever the order of its entries, the histogram
    [{RED:5, BLUE:3, GREEN:1}] restricted to counts above one keeps
    [{RED:5, BLUE:3}]; sorted by ascending count the sampler gets blue
    first: the cumulative totals are [[3, 8]] over the colours
    [[BLUE, RED]]. The draw values 4.9 and 7.9 both resolve to RED, the
    first total above them being 8; a draw value below 3, such as 2.9,
    resolves to BLUE. *)
Theorem scenario_sampler_3_8 (items : list (pixel * Z)) (w : world Painting) :
  items ≡ₚ scenario_histogram →
  genetics.more_than_once items ≡ₚ [(RED, 5%Z); (BLUE, 3%Z)]
  ∧ ∃ sampler,
      WeightedRandomColors_init
        (genetics.by_count (genetics.more_than_once items)) w
        = (Ok sampler, w)
      ∧ totals sampler = [3; 8]%Z
      ∧ colors sampler = [BLUE; RED]
      ∧ resolve sampler (49 # 10) w = (Ok RED, w)
      ∧ resolve sampler (79 # 10) w = (Ok RED, w)
      ∧ resolve sampler (29 # 10) w = (Ok BLUE, w).
Proof.
  intros Hperm. apply scenario_histogram_orders in Hperm.
  assert (Hcw : genetics.by_count (genetics.more_than_once items)
                = [(BLUE, 3%Z); (RED, 5%Z)]
                ∧ genetics.more_than_once items ≡ₚ [(RED, 5%Z); (BLUE, 3%Z)]).
  { set_unfold.
    destruct Hperm as [-> | [-> | [-> | [-> | [-> | [-> | []]]]]]];
      (split; [reflexivity | vm_compute; try reflexivity; apply perm_swap]). }
  destruct Hcw as [Hcw Hkept]. split; [exact Hkept |].
  exists scenario_sampler. rewrite Hcw. repeat split; reflexivity.
Qed.

Lemma scenario_sampler_3_8_in_order :
  genetics.more_than_once scenario_histogram ≡ₚ [(RED, 5%Z); (BLUE, 3%Z)]
  ∧ ∃ sampler,
      WeightedRandomColors_init
        (genetics.by_count (genetics.more_than_once scenario_histogram))
        quiet_world = (Ok sampler, quiet_world)
      ∧ totals sampler = [3; 8]%Z
      ∧ colors sampler = [BLUE; RED]
      ∧ resolve sampler (49 # 10) quiet_world = (Ok RED, quiet_world)
      ∧ resolve sampler (79 # 10) quiet_world = (Ok RED, quiet_world)
      ∧ resolve sampler (29 # 10) quiet_world = (Ok BLUE, quiet_world).
Proof.
  apply (scenario_sampler_3_8 scenario_histogram quiet_world). reflexivity.
Defined.

(** The histogram of the scenario image is the scenario histogram, and the
    engine would take red, the most common colour, as its canvas. *)
Lemma scenario_image_histogram :
  genetics.Counter (getdata scenario_image) = scenario_histogram
  ∧ genetics.color_weights_of scenario_image = [(BLUE, 3%Z); (RED, 5%Z)].
Proof. split; reflexivity. Qed.

(** ** Construction on an empty histogram *)





(** On the two-pixel image with the usual configuration the error is the
    [IndexError]. *)
Lemma init_two_pixels_index_error :
  (genetics.GeneticPainting_init "1.png" two_pixel_image 30 10 (1 # 10)
     (1 # 5) (1 # 10) quiet_world).1 = Raise IndexError.
Proof. vm_compute. reflexivity. Qed.

(** ** Generation of a painting *)

Lemma Color_of_run {O} (c : pixel) (w : world O) :
  3 ≤ length c →
  ∃ r g b, Color_of (slice_to 3 c) w = (Ok (mkColor r g b), w).
Proof.
  intros Hc. destruct c as [| r [| g [| b c]]]; simpl in Hc; try lia.
  exists r, g, b. reflexivity.
Qed.

(** The rows (HORIZONTAL) or the columns (VERTICAL) of the tiling are
    [perpendicular // (2 * brush_size)]. With fewer strokes than rows,
    [strokes_per_line] is zero and the division of the other dimension by
    it raises. *)
Lemma layout_parameters_zero_division (s : strategy) (w h num_strokes
    brush_size : Z) (world : py.world Painting) :
  s = Vec HORIZONTAL ∨ s = Vec VERTICAL →
  (0 < brush_size)%Z →
  let perpendicular := if decide (s = Vec HORIZONTAL) then h else w in
  (0 ≤ num_strokes < perpendicular `div` (2 * brush_size))%Z →
  layout_parameters s w h num_strokes brush_size world
  = (Raise ZeroDivisionError, world).
Proof.
  intros Hs Hbrush perpendicular Hfew. unfold layout_parameters.
  assert (Hdiv : (num_strokes `div` (perpendicular `div` (2 * brush_size))
                  = 0)%Z) by (apply Z.div_small; lia).
  subst perpendicular.
  destruct (decide (s = Vec HORIZONTAL)) as [-> | Hnot].
  - rewrite (bind_ok _ _ _ _ _
               (floordiv_run h (2 * brush_size) world ltac:(lia))).
    rewrite (bind_ok _ _ _ _ _
               (floordiv_run num_strokes (h `div` (2 * brush_size)) world
                  ltac:(lia))).
    rewrite Hdiv. reflexivity.
  - destruct Hs as [-> | ->]; [done |].
    destruct (decide (Vec VERTICAL = Vec VERTICAL)); [| done].
    rewrite (bind_ok _ _ _ _ _
               (floordiv_run w (2 * brush_size) world ltac:(lia))).
    rewrite (bind_ok _ _ _ _ _
               (floordiv_run num_strokes (w `div` (2 * brush_size)) world
                  ltac:(lia))).
    rewrite Hdiv. reflexivity.
Qed.

(** [generate] raises [ZeroDivisionError] whenever the layout drawn is
    HORIZONTAL or VERTICAL and the image has more rows, or columns, of the
    brush size drawn than there are strokes to place. *)
Lemma generate_zero_division (ref : string) (image : Image)
    (color_generator : WeightedRandomColors) (canvas : pixel)
    (num_strokes : Z) (w : world Painting) :
  pick w 0 3 < 2 →
  3 ≤ length canvas →
  let brush_size := (2 + Z.of_nat (pick w 1 11))%Z in
  let perpendicular :=
    if decide (pick w 0 3 = 0) then (size image).2 else (size image).1 in
  (0 ≤ num_strokes < perpendicular `div` (2 * brush_size))%Z →
  generate ref image color_generator canvas num_strokes w
  = (Raise ZeroDivisionError, drawn (drawn (drawn w))).
Proof.
  intros Hlayout Hcanvas brush_size perpendicular Hfew. unfold generate.
  set (s := if decide (pick w 0 3 = 0) then Vec HORIZONTAL
            else Vec VERTICAL).
  assert (Hchoice : choice [Vec HORIZONTAL; Vec VERTICAL; Str RANDOM] w
                    = (Ok s, drawn w)).
  { apply choice_run. subst s. simpl length.
    destruct (decide (pick w 0 3 = 0)) as [-> | Hne]; [reflexivity |].
    replace (pick w 0 3) with 1 by lia. reflexivity. }
  rewrite (bind_ok _ _ _ _ _ Hchoice).
  destruct (Color_of_run canvas (drawn w) Hcanvas) as (r & g & b & Hcolor).
  rewrite (bind_ok _ _ _ _ _ Hcolor).
  rewrite (bind_ok _ _ _ _ _ (randint_run 2 12 (drawn w) ltac:(lia))).
  rewrite (bind_ok _ _ _ _ _
             (randint_run 5 200 (drawn (drawn w)) ltac:(lia))).
  destruct (size image) as [width height] eqn:Hsize.
  change (Z.to_nat (12 - 2 + 1)) with 11.
  change (pick (drawn w) 0 11) with (pick w 1 11). fold brush_size.
  apply bind_raise.
  apply layout_parameters_zero_division.
  - subst s. destruct (decide (pick w 0 3 = 0)); auto.
  - subst brush_size. lia.
  - subst s perpendicular. cbn [fst snd] in Hfew.
    destruct (decide (pick w 0 3 = 0)).
    + destruct (decide (Vec HORIZONTAL = Vec HORIZONTAL)); done.
    + destruct (decide (Vec VERTICAL = Vec HORIZONTAL)); done.
Qed.

(** C4. On a 100 by 100 image with ten strokes asked for, when the layout
    drawn is HORIZONTAL and the brush size drawn is 2, [generate] does not
    return a painting: there are 25 rows, [strokes_per_line] is
    [10 // 25 = 0], and [w // strokes_per_line] raises
    [ZeroDivisionError]. *)
Theorem generate_ten_strokes_zero_division :
  generate "1.png" square_image scenario_sampler RED 10 quiet_world
  = (Raise ZeroDivisionError, quiet_world).
Proof.
  change (generate "1.png" square_image scenario_sampler RED 10 quiet_world
          = (Raise ZeroDivisionError, drawn (drawn (drawn quiet_world)))).
  apply (generate_zero_division "1.png" square_image scenario_sampler RED 10
           quiet_world).
  - vm_compute. lia.
  - simpl. lia.
  - vm_compute. split; [discriminate | reflexivity].
Qed.

(** The same with the VERTICAL layout: on the tape [1, 10, 19, ...] the
    brush size is 12, there are four columns and three strokes. *)
Lemma generate_three_strokes_zero_division :
  (generate "1.png" square_image scenario_sampler RED 3
     (World (λ n, N.of_nat (n * 9 + 1)) ∅)).1
  = Raise ZeroDivisionError.
Proof.
  rewrite (generate_zero_division "1.png" square_image scenario_sampler RED 3
             (World (λ n, N.of_nat (n * 9 + 1)) ∅)); [reflexivity | | |].
  - vm_compute. lia.
  - simpl. lia.
  - vm_compute. split; [discriminate | reflexivity].
Qed.

(** One round of the loop of [generate] appends one stroke, if it
    returns, and leaves the heap alone. *)
Lemma generate_round (s : strategy) (w h brush_size distance
    strokes_per_line stroke_length i : Z)
    (color_generator : WeightedRandomColors) (strokes : list Stroke)
    (world : py.world Painting) :
  ensures
    ('(start, end_) ← place_stroke s w h brush_size distance
                        strokes_per_line stroke_length i;
     px ← next color_generator;
     color ← Color_of (slice_to 3 px);
     ret (strokes ++ [mkStroke color brush_size start end_]))
    world
    (λ r world', match r with
                 | Ok strokes' =>
                     same_heap world world'
                     ∧ length strokes' = S (length strokes)
                 | Raise _ => same_heap world world'
                 end).
Proof.
  apply ensures_bind, (ensures_stable same_heap); [quiet |].
  intros [[start end_] | e] w1 H1; [| done].
  apply ensures_bind, (ensures_stable same_heap); [quiet |].
  intros [px | e] w2 H2; [| by etrans].
  apply ensures_bind, (ensures_stable same_heap); [quiet |].
  intros [color | e] w3 H3; [| unfold same_heap in *; congruence].
  unfold ensures. simpl. split; [unfold same_heap in *; congruence |].
  rewrite length_app. simpl. lia.
Qed.

(** When [generate] returns, the painting is a new object with exactly
    [num_strokes] strokes (none for a negative [num_strokes]), the
    reference given, and a [num_strokes] attribute that counts them; when
    it raises, the heap is what it was. *)
Lemma generate_stroke_count (ref : string) (image : Image)
    (color_generator : WeightedRandomColors) (canvas : pixel)
    (num_strokes : Z) (w : world Painting) :
  ensures (generate ref image color_generator canvas num_strokes) w
    (λ r w', match r with
             | Ok l =>
                 heap w !! l = None
                 ∧ ∃ o, heap w' = <[l := o]> (heap w)
                        ∧ length (strokes o) = Z.to_nat num_strokes
                        ∧ well_formed o
                        ∧ painting.ref o = ref
             | Raise _ => heap w' = heap w
             end).
Proof.
  unfold generate.
  apply ensures_bind, (ensures_stable same_heap); [quiet |].
  intros [s | e] w1 H1; [| exact H1].
  apply ensures_bind, (ensures_stable same_heap); [quiet |].
  intros [c | e] w2 H2; [| unfold same_heap in *; congruence].
  apply ensures_bind, (ensures_stable same_heap); [quiet |].
  intros [brush_size | e] w3 H3; [| unfold same_heap in *; congruence].
  apply ensures_bind, (ensures_stable same_heap); [quiet |].
  intros [distance | e] w4 H4; [| unfold same_heap in *; congruence].
  destruct (size image) as [width height].
  apply ensures_bind, (ensures_stable same_heap); [quiet |].
  intros [[strokes_per_line stroke_length] | e] w5 H5;
    [| unfold same_heap in *; congruence].
  assert (Hw5 : heap w5 = heap w) by (unfold same_heap in *; congruence).
  apply ensures_bind.
  eapply ensures_mono.
  { apply (for_each_ensures
             (λ k strokes w', same_heap w5 w' ∧ length strokes = k)
             (same_heap w5)).
    - split; reflexivity.
    - intros k i strokes w6 _ [H6 <-].
      eapply ensures_mono; [apply generate_round |].
      intros [strokes' | e] w7 H7; cbv beta in *.
      + destruct H7 as [H7 Hlen]. split; [by etrans | exact Hlen].
      + by etrans. }
  intros [strokes | e] w6 H6; cbv beta in *;
    [| unfold same_heap in *; congruence].
  destruct H6 as [H6 Hcount].
  assert (Hw6 : heap w6 = heap w) by (unfold same_heap in *; congruence).
  unfold ensures, Painting_init.
  destruct (alloc_fresh (mkPainting ref c (Z.of_nat (length strokes)) strokes)
              w6) as (l & -> & Hfresh). simpl.
  rewrite Hw6 in *. split; [exact Hfresh |]. eexists. split; [reflexivity |].
  simpl. split; [by rewrite Hcount, range_length |]. split; reflexivity.
Qed.

(** ** The first population *)

Lemma uniform_mono (w w' : world Painting) (N : nat) (paintings : list loc) :
  heap_extended w w' → uniform w N paintings → uniform w' N paintings.
Proof.
  intros Hext Hall. unfold uniform in *.
  eapply Forall_impl; [exact Hall |].
  intros l (o & [Ho Hwf] & Hlen). exists o.
  split; [split; [by eapply lookup_weaken | exact Hwf] | exact Hlen].
Qed.

(** [create_population] makes [pop_size] different new paintings of
    [num_strokes] strokes each, and touches no other object. *)
Lemma create_population_spec (self : genetics.GeneticPainting)
    (w : world Painting) :
  ensures (genetics.create_population self) w
    (λ r w', match r with
             | Ok (population, self') =>
                 self' = genetics.set_population population self
                 ∧ heap_extended w w'
                 ∧ length population = Z.to_nat (genetics.pop_size self)
                 ∧ NoDup population
                 ∧ uniform w' (Z.to_nat (genetics.num_strokes self)) population
                 ∧ Forall (λ l, heap w !! l = None) population
             | Raise _ => heap_extended w w'
             end).
Proof.
  unfold genetics.create_population. apply ensures_bind.
  eapply ensures_mono.
  { apply (for_each_ensures
             (λ k population w',
                heap_extended w w'
                ∧ length population = k
                ∧ NoDup population
                ∧ uniform w' (Z.to_nat (genetics.num_strokes self)) population
                ∧ Forall (λ l, heap w !! l = None) population)
             (heap_extended w)).
    - split; [reflexivity |]. split; [reflexivity |].
      split; [constructor |]. split; constructor.
    - intros k i population w1 _ (H1 & Hlen & Hnd & Huni & Hnew).
      apply ensures_bind. unfold genetics._generate_painting.
      eapply ensures_mono; [apply generate_stroke_count |].
      intros [l | e] w2 H2; cbv beta in *.
      + destruct H2 as (Hfresh & o & Hheap & Hcount & Hwf & _).
        assert (H12 : heap_extended w1 w2).
        { unfold heap_extended. rewrite Hheap. by apply insert_subseteq. }
        unfold ensures. simpl.
        split; [by etrans |].
        split; [rewrite length_app; simpl; lia |].
        split; [| split].
        * apply NoDup_app. split; [exact Hnd |].
          split; [| apply NoDup_singleton].
          intros l' Hl' Hin. apply list_elem_of_singleton in Hin as ->.
          destruct (proj1 (Forall_forall _ _) Huni l Hl')
            as (o' & [Ho' _] & _).
          congruence.
        * apply Forall_app. split; [by eapply uniform_mono |].
          apply Forall_singleton. exists o.
          split; [split; [rewrite Hheap; apply lookup_insert_eq | exact Hwf]
                 | exact Hcount].
        * apply Forall_app. split; [exact Hnew |].
          apply Forall_singleton. by eapply lookup_weaken_None.
      + unfold heap_extended, same_heap in *. rewrite H2. exact H1. }
  intros [population | e] w' H'; cbv beta in *; [| exact H'].
  destruct H' as (Hext & Hlen & Hnd & Huni & Hnew).
  unfold ensures. simpl. rewrite range_length in Hlen.
  split; [reflexivity |]. split; [exact Hext |]. split; [exact Hlen |].
  split; [exact Hnd |]. split; [exact Huni | exact Hnew].
Qed.

(** What [__init__] establishes when it returns: the configuration as
    given, generation 0, the most frequent colour as canvas, and a
    population of [pop_size] different new paintings of [num_strokes]
    strokes each. *)
Lemma GeneticPainting_init_spec (ref : string) (image : Image)
    (num_strokes pop_size : Z)
    (mutation_chance fit_percentage lucky_percentage : Q)
    (w : world Painting) :
  ensures
    (genetics.GeneticPainting_init ref image num_strokes pop_size
       mutation_chance fit_percentage lucky_percentage) w
    (λ r w', match r with
             | Ok self =>
                 genetics.ref self = ref
                 ∧ genetics.image self = image
                 ∧ genetics.num_strokes self = num_strokes
                 ∧ genetics.pop_size self = pop_size
                 ∧ genetics.mutation_chance self = mutation_chance
                 ∧ genetics.fit_percentage self = fit_percentage
                 ∧ genetics.generation self = 0%Z
                 ∧ (∃ most_common,
                      last (genetics.color_weights_of image)
                      = Some most_common
                      ∧ genetics.canvas self = most_common.1)
                 ∧ length (genetics.population self) = Z.to_nat pop_size
                 ∧ NoDup (genetics.population self)
                 ∧ uniform w' (Z.to_nat num_strokes)
                     (genetics.population self)
                 ∧ heap_extended w w'
             | Raise _ => heap_extended w w'
             end).
Proof.
  unfold genetics.GeneticPainting_init.
  apply ensures_bind. unfold ensures at 1.
  destruct (float_floordiv_cases (float_of_int pop_size)
              (float_add (float_mul (float_of_int pop_size) fit_percentage)
                 (float_of_int
                    (Qceiling
                       (float_mul (float_of_int pop_size) lucky_percentage))))
              w) as [-> | [quotient ->]]; cbn [fst snd]; [reflexivity |].
  apply ensures_bind. unfold ensures at 1, index_last.
  destruct (last (genetics.color_weights_of image)) as [most_common |] eqn:Hlast;
    simpl; [| reflexivity].
  apply ensures_bind. unfold ensures at 1. simpl.
  apply ensures_bind.
  eapply ensures_mono; [apply create_population_spec |].
  intros [[population self'] | e] w' H'; cbv beta in *; [| exact H'].
  destruct H' as (-> & Hext & Hlen & Hnd & Huni & _).
  unfold ensures. simpl.
  repeat (split; [reflexivity |]).
  split; [by exists most_common |].
  split; [exact Hlen |]. split; [exact Hnd |]. split; [exact Huni | exact Hext].
Qed.

(** ** Recombination *)

Lemma Painting_mul_returns (self other : loc) (mother father : Painting)
    (w : world Painting) :
  heap w !! self = Some mother →
  heap w !! other = Some father →
  well_formed mother →
  length (strokes mother) ≤ length (strokes father) →
  returns (Painting_mul self other) w
    (λ child w', ∃ o,
       heap w !! child = None
       ∧ heap w' = <[child := o]> (heap w)
       ∧ crossover mother father o).
Proof.
  intros Hself Hother Hwf Hlen. unfold Painting_mul.
  apply returns_bind, (getattr_returns self _ mother); [done |].
  apply returns_bind, (getattr_returns other _ father); [done |].
  apply returns_bind.
  eapply returns_mono; [apply choice_returns; discriminate |].
  intros c w1 [Hc H1]. cbv beta in *. unfold same_heap in H1.
  apply returns_bind, (getattr_returns self _ mother); [congruence |].
  apply returns_bind.
  eapply returns_mono.
  { apply (for_each_returns
             (λ k acc w', same_heap w w' ∧ length acc = k
                ∧ ∀ i s, acc !! i = Some s →
                    strokes mother !! i = Some s ∨ strokes father !! i = Some s)).
    - split; [exact H1 |]. split; [reflexivity |]. intros i s Hs. done.
    - intros k i acc w2 Hi (H2 & Hk & Hacc).
      apply range_lookup in Hi as [-> Hi]. rewrite Hwf in Hi.
      unfold same_heap in H2.
      apply returns_bind.
      eapply returns_mono; [apply choice_returns; discriminate |].
      intros parent w3 [Hparent H3]. cbv beta in *. unfold same_heap in H3.
      rewrite Nat2Z.id.
      assert (Hm : is_Some (strokes mother !! k))
        by (apply lookup_lt_is_Some_2; lia).
      assert (Hf : is_Some (strokes father !! k))
        by (apply lookup_lt_is_Some_2; lia).
      destruct Hm as [sm Hm], Hf as [sf Hf].
      assert (Hstep : ∀ o s, heap w3 !! parent = Some o →
                strokes o !! k = Some s →
                strokes mother !! k = Some s ∨ strokes father !! k = Some s →
                returns
                  (parent_strokes ← getattr parent strokes;
                   stroke ← index parent_strokes k;
                   ret (acc ++ [stroke])) w3
                  (λ acc' w', same_heap w w' ∧ length acc' = S k
                     ∧ ∀ i s, acc' !! i = Some s →
                         strokes mother !! i = Some s
                         ∨ strokes father !! i = Some s)).
      { intros o s Ho Hs Hor.
        apply returns_bind, (getattr_returns parent _ o); [done |].
        apply returns_bind. exists s, w3. split; [by apply index_run |].
        apply returns_ret. split; [unfold same_heap; congruence |].
        split; [rewrite length_app; simpl; lia |].
        intros i s' Hs'. apply lookup_app_Some in Hs' as [Hs' | [Hge Hs']].
        - by apply Hacc.
        - apply list_lookup_singleton_Some in Hs' as [Hi' ->].
          replace i with k by lia. exact Hor. }
      set_unfold in Hparent. destruct Hparent as [-> | [-> | []]].
      + apply (Hstep mother sm); [congruence | done | by left].
      + apply (Hstep father sf); [congruence | done | by right]. }
  intros acc w2 (H2 & Hk & Hacc). cbv beta in *. unfold same_heap in H2.
  apply returns_bind, (getattr_returns self _ mother); [congruence |].
  unfold Painting_init.
  destruct (alloc_fresh
              (mkPainting (ref mother) c (Z.of_nat (length acc)) acc) w2)
    as (l & Hl & Hfresh).
  eexists l, _. split; [exact Hl |]. eexists. simpl.
  rewrite H2 in *. split; [exact Hfresh |]. split; [reflexivity |].
  unfold crossover. simpl.
  rewrite range_length, Hwf, Nat2Z.id in Hk.
  repeat split; try done.
  set_unfold in Hc. destruct Hc as [-> | [-> | []]]; auto.
Qed.

Lemma choice_two {A} (x y : A) (w : world Painting) :
  choice [x; y] w = (Ok (if picks_other w 0 then y else x), drawn w).
Proof.
  apply choice_run. unfold picks_other. simpl length.
  assert (Hlt : pick w 0 2 < 2).
  { unfold pick. pose proof (N.mod_lt (rng w 0) (N.of_nat 2)). lia. }
  destruct (pick w 0 2) as [| [| n]] eqn:Hpick; [done | done | lia].
Qed.

(** The child of a run of [__mul__], read off the tape: the first draw
    chooses the canvas, and the draw after the first [i + 1] chooses the
    parent of the stroke at index [i]. *)
Lemma Painting_mul_run (self other : loc) (mother father : Painting)
    (w : world Painting) :
  heap w !! self = Some mother →
  heap w !! other = Some father →
  well_formed mother →
  length (strokes mother) ≤ length (strokes father) →
  ∃ child o w',
    Painting_mul self other w = (Ok child, w')
    ∧ heap w !! child = None
    ∧ heap w' = <[child := o]> (heap w)
    ∧ ref o = ref mother
    ∧ num_strokes o = num_strokes mother
    ∧ length (strokes o) = length (strokes mother)
    ∧ canvas o = (if picks_other w 0 then canvas father else canvas mother)
    ∧ ∀ i, i < length (strokes mother) →
           strokes o !! i
           = if picks_other w (S i) then strokes father !! i
             else strokes mother !! i.
Proof.
  intros Hself Hother Hwf Hlen. unfold Painting_mul.
  rewrite (bind_ok _ _ _ _ _ (getattr_run self canvas mother w Hself)).
  rewrite (bind_ok _ _ _ _ _ (getattr_run other canvas father w Hother)).
  rewrite (bind_ok _ _ _ _ _ (choice_two (canvas mother) (canvas father) w)).
  rewrite (bind_ok _ _ _ _ _
             (getattr_run self num_strokes mother (drawn w) Hself)).
  destruct (for_each_returns
              (λ k acc w',
                 heap w' = heap w
                 ∧ (∀ n, rng w' n = rng w (S k + n))
                 ∧ length acc = k
                 ∧ ∀ i, i < k →
                        acc !! i
                        = if picks_other w (S i) then strokes father !! i
                          else strokes mother !! i)
              (range (num_strokes mother))
              (λ strokes i,
                 parent ← choice [self; other];
                 parent_strokes ← getattr parent painting.strokes;
                 stroke ← index parent_strokes (Z.to_nat i);
                 ret (strokes ++ [stroke]))
              [] (drawn w))
    as (acc & w2 & Hloop & Hheap2 & _ & Hcount & Hacc).
  { split; [reflexivity |]. split; [reflexivity |].
    split; [reflexivity |]. intros i Hi. lia. }
  { intros k i acc w1 Hi (Hheap1 & Hrng1 & Hk & Hacc).
    apply range_lookup in Hi as [-> Hi]. rewrite Hwf in Hi.
    rewrite Nat2Z.id.
    assert (Hpick : picks_other w1 0 = picks_other w (S k)).
    { unfold picks_other, pick. by rewrite Hrng1, Nat.add_0_r. }
    destruct (lookup_lt_is_Some_2 (strokes mother) k) as [sm Hsm]; [lia |].
    destruct (lookup_lt_is_Some_2 (strokes father) k) as [sf Hsf]; [lia |].
    exists (acc ++ [if picks_other w (S k) then sf else sm]), (drawn w1).
    split.
    - rewrite (bind_ok _ _ _ _ _ (choice_two self other w1)), Hpick.
      destruct (picks_other w (S k)).
      + rewrite (bind_ok _ _ _ _ _
                   (getattr_run other strokes father (drawn w1)
                      ltac:(simpl; congruence))).
        by rewrite (bind_ok _ _ _ _ _ (index_run _ _ _ _ Hsf)).
      + rewrite (bind_ok _ _ _ _ _
                   (getattr_run self strokes mother (drawn w1)
                      ltac:(simpl; congruence))).
        by rewrite (bind_ok _ _ _ _ _ (index_run _ _ _ _ Hsm)).
    - split; [exact Hheap1 |]. split.
      { intros n. simpl. rewrite Hrng1. f_equal. lia. }
      split; [rewrite length_app; simpl; lia |].
      intros i Hi'. destruct (decide (i = k)) as [-> | Hne].
      + rewrite lookup_app_r by lia. rewrite Hk, Nat.sub_diag. simpl.
        by destruct (picks_other w (S k)).
      + rewrite lookup_app_l by lia. apply Hacc. lia. }
  rewrite (bind_ok _ _ _ _ _ Hloop).
  rewrite (bind_ok _ _ _ _ _
             (getattr_run self ref mother w2 ltac:(congruence))).
  unfold Painting_init.
  destruct (alloc_fresh
              (mkPainting (ref mother)
                 (if picks_other w 0 then canvas father else canvas mother)
                 (Z.of_nat (length acc)) acc) w2)
    as (child & Halloc & Hfresh).
  rewrite range_length, Hwf, Nat2Z.id in Hcount.
  eexists child, _, _. split; [exact Halloc |]. simpl. rewrite Hheap2.
  split; [by rewrite <- Hheap2 |]. split; [reflexivity |].
  split; [reflexivity |]. split; [by rewrite Hcount, Hwf |].
  split; [exact Hcount |]. split; [reflexivity |].
  intros i Hi. apply Hacc. rewrite range_length, Hwf, Nat2Z.id. lia.
Qed.

(** C5. For genomes [a] and [b] with as many strokes each, [a * b]
    returns a new painting, at a reference that was not in use, and
    changes nothing else. The child has the stroke count and the reference
    of [a]; its canvas is the canvas of [a] or of [b], and its stroke at
    every index is the stroke [a] or [b] has at that index. Which of the
    two it is, is one draw each: the first draw for the canvas (the canvas
    of [b] when the draw takes the second of two), and the draw after it
    and [i] more for the stroke at index [i]. The choices are independent
    of each other: whatever canvas and whatever parent per index one
    chooses, some random outcome makes exactly that child. *)
Theorem Painting_mul_crossover (a b : loc) (mother father : Painting)
    (w : world Painting) :
  genome w a mother →
  genome w b father →
  length (strokes mother) = length (strokes father) →
  (∃ child o w',
     Painting_mul a b w = (Ok child, w')
     ∧ heap w !! child = None
     ∧ heap w' = <[child := o]> (heap w)
     ∧ heap w' !! child = Some o
     ∧ length (strokes o) = length (strokes mother)
     ∧ num_strokes o = num_strokes mother
     ∧ ref o = ref mother
     ∧ (canvas o = canvas mother ∨ canvas o = canvas father)
     ∧ (∀ i s, strokes o !! i = Some s →
               strokes mother !! i = Some s ∨ strokes father !! i = Some s)
     ∧ canvas o = (if picks_other w 0 then canvas father else canvas mother)
     ∧ ∀ i, i < length (strokes mother) →
            strokes o !! i
            = if picks_other w (S i) then strokes father !! i
              else strokes mother !! i)
  ∧ ∀ from_b : nat → bool,
      ∃ tape child o w',
        Painting_mul a b (World tape (heap w)) = (Ok child, w')
        ∧ heap w' !! child = Some o
        ∧ canvas o = (if from_b 0 then canvas father else canvas mother)
        ∧ ∀ i, i < length (strokes mother) →
               strokes o !! i
               = if from_b (S i) then strokes father !! i
                 else strokes mother !! i.
Proof.
  intros [Ha Hwfa] [Hb _] Hlen. split.
  - destruct (Painting_mul_run a b mother father w Ha Hb Hwfa)
      as (child & o & w' & Hrun & Hfresh & Hheap & Href & Hnum & Hcount
          & Hcanvas & Hat); [lia |].
    exists child, o, w'. split; [exact Hrun |]. split; [exact Hfresh |].
    split; [exact Hheap |].
    split; [rewrite Hheap; apply lookup_insert_eq |].
    split; [exact Hcount |]. split; [exact Hnum |]. split; [exact Href |].
    split; [rewrite Hcanvas; destruct (picks_other w 0); auto |].
    split; [| split; [exact Hcanvas | exact Hat]].
    intros i s Hs.
    assert (Hi : i < length (strokes mother)).
    { rewrite <- Hcount. by eapply lookup_lt_Some. }
    rewrite (Hat i Hi) in Hs. destruct (picks_other w (S i)); auto.
  - intros from_b.
    set (tape := λ n : nat, if from_b n then 1%N else 0%N).
    assert (Hpicks : ∀ i, picks_other (World tape (heap w)) i = from_b i).
    { intros i. unfold picks_other, pick, tape. simpl.
      by destruct (from_b i). }
    destruct (Painting_mul_run a b mother father (World tape (heap w))
                Ha Hb Hwfa)
      as (child & o & w' & Hrun & _ & Hheap & _ & _ & _ & Hcanvas & Hat);
      [lia |].
    exists tape, child, o, w'. split; [exact Hrun |].
    split; [rewrite Hheap; apply lookup_insert_eq |].
    rewrite Hpicks in Hcanvas. split; [exact Hcanvas |].
    intros i Hi. rewrite (Hat i Hi), Hpicks. reflexivity.
Qed.

Lemma Painting_mul_crossover_atelier :
  (∃ child o w',
     Painting_mul 1%positive 2%positive atelier = (Ok child, w')
     ∧ heap atelier !! child = None
     ∧ heap w' = <[child := o]> (heap atelier)
     ∧ heap w' !! child = Some o
     ∧ length (strokes o) = length (strokes red_painting)
     ∧ num_strokes o = num_strokes red_painting
     ∧ ref o = ref red_painting
     ∧ (canvas o = canvas red_painting ∨ canvas o = canvas blue_painting)
     ∧ (∀ i s, strokes o !! i = Some s →
               strokes red_painting !! i = Some s
               ∨ strokes blue_painting !! i = Some s)
     ∧ canvas o = (if picks_other atelier 0 then canvas blue_painting
                   else canvas red_painting)
     ∧ ∀ i, i < length (strokes red_painting) →
            strokes o !! i
            = if picks_other atelier (S i) then strokes blue_painting !! i
              else strokes red_painting !! i)
  ∧ ∀ from_b : nat → bool,
      ∃ tape child o w',
        Painting_mul 1%positive 2%positive (World tape (heap atelier))
        = (Ok child, w')
        ∧ heap w' !! child = Some o
        ∧ canvas o = (if from_b 0 then canvas blue_painting
                      else canvas red_painting)
        ∧ ∀ i, i < length (strokes red_painting) →
               strokes o !! i
               = if from_b (S i) then strokes blue_painting !! i
                 else strokes red_painting !! i.
Proof.
  apply (Painting_mul_crossover 1%positive 2%positive red_painting
           blue_painting atelier).
  - split; reflexivity.
  - split; reflexivity.
  - reflexivity.
Defined.

(** The red painting bred with the blue one in the atelier. The tape
    reads 3, 10, 17, 24: the canvas is the blue one, the first and the
    third stroke are those of the red painting, the second is that of the
    blue one, and the child is the new object at the reference 5. *)
Lemma Painting_mul_red_blue :
  (Painting_mul 1%positive 2%positive atelier).1 = Ok 5%positive
  ∧ heap (Painting_mul 1%positive 2%positive atelier).2 !! 5%positive
    = Some (mkPainting "1.png" (mkColor 0 0 255) 3
              [stroke_at RED 2 2; stroke_at BLUE 2 6; stroke_at RED 2 10]).
Proof. split; vm_compute; reflexivity. Qed.

(** C10. [self * other] modifies neither parent: whatever the outcome,
    every object of the heap, the two parents among them, is after the
    call what it was before (reference, canvas, stroke count and stroke
    list). When the call returns, the child is a new object, at a
    reference that was not in use, and the heap is the old heap with the
    child added; when it raises, the heap is the old heap. *)
Theorem Painting_mul_frame (self other : loc) (w : world Painting) :
  let result := (Painting_mul self other w).1 in
  let w' := (Painting_mul self other w).2 in
  heap w' !! self = heap w !! self
  ∧ heap w' !! other = heap w !! other
  ∧ (∀ l o, heap w !! l = Some o → heap w' !! l = Some o)
  ∧ match result with
    | Ok child =>
        heap w !! child = None ∧ ∃ o, heap w' = <[child := o]> (heap w)
    | Raise _ => heap w' = heap w
    end.
Proof.
  cbv zeta.
  assert (Hcase : match (Painting_mul self other w).1 with
                  | Ok child =>
                      is_Some (heap w !! self) ∧ is_Some (heap w !! other)
                      ∧ heap w !! child = None
                      ∧ ∃ o, heap (Painting_mul self other w).2
                             = <[child := o]> (heap w)
                  | Raise _ => heap (Painting_mul self other w).2 = heap w
                  end).
  { change (ensures (Painting_mul self other) w
              (λ r w', match r with
                       | Ok child =>
                           is_Some (heap w !! self) ∧ is_Some (heap w !! other)
                           ∧ heap w !! child = None
                           ∧ ∃ o, heap w' = <[child := o]> (heap w)
                       | Raise _ => heap w' = heap w
                       end)).
    unfold Painting_mul.
    apply ensures_bind. unfold ensures at 1.
    destruct (heap w !! self) as [mother |] eqn:Hself;
      [rewrite (getattr_run self _ mother w Hself); simpl
      | unfold getattr; rewrite bind_run; unfold deref; rewrite Hself; done].
    apply ensures_bind. unfold ensures at 1.
    destruct (heap w !! other) as [father |] eqn:Hother;
      [rewrite (getattr_run other _ father w Hother); simpl
      | unfold getattr; rewrite bind_run; unfold deref; rewrite Hother; done].
    apply ensures_bind, (ensures_stable same_heap); [quiet |].
    intros [c | e] w1 H1; [| exact H1].
    apply ensures_bind, (ensures_stable same_heap); [quiet |].
    intros [n | e] w2 H2; [| unfold same_heap in *; congruence].
    apply ensures_bind, (ensures_stable same_heap); [quiet |].
    intros [acc | e] w3 H3; [| unfold same_heap in *; congruence].
    apply ensures_bind, (ensures_stable same_heap); [quiet |].
    intros [r | e] w4 H4; [| unfold same_heap in *; congruence].
    unfold ensures, Painting_init.
    destruct (alloc_fresh (mkPainting r c (Z.of_nat (length acc)) acc) w4)
      as (l & -> & Hfresh). simpl.
    unfold same_heap in *.
    assert (Hw4 : heap w4 = heap w) by congruence.
    rewrite Hw4 in *. eauto. }
  destruct (Painting_mul self other w) as [[child | e] w']; simpl in *.
  - destruct Hcase as ([ps Hps] & [po Hpo] & Hfresh & o & ->).
    assert (child ≠ self) by congruence.
    assert (child ≠ other) by congruence.
    rewrite !lookup_insert_ne by done.
    repeat split; eauto.
    intros l o' Hl. rewrite lookup_insert_ne; [done | congruence].
  - rewrite Hcase. auto.
Qed.

(** ** Mutation *)

Lemma shuffle_from_returns {O A} (i : nat) (x : list A) (w : world O) :
  i < length x ∨ i = 0 →
  returns (shuffle_from i x) w (λ x' w', x' ≡ₚ x ∧ same_heap w w').
Proof.
  revert x w. induction i as [| i IH]; intros x w Hi; simpl.
  - apply returns_ret. split; reflexivity.
  - destruct Hi as [Hi | Hi]; [| discriminate].
    apply returns_bind.
    eapply returns_mono; [apply randbelow_returns |].
    intros j w1 [Hj H1]. cbv beta. specialize (Hj ltac:(lia)).
    destruct (lookup_lt_is_Some_2 x (S i) Hi) as [xi Hxi].
    destruct (lookup_lt_is_Some_2 x j ltac:(lia)) as [xj Hxj].
    apply returns_bind. eexists _, _. split; [by apply index_run |].
    apply returns_bind. eexists _, _. split; [by apply index_run |].
    eapply returns_mono.
    { apply IH. left. rewrite !length_insert. lia. }
    intros x' w2 [Hx' H2]. cbv beta in *. split.
    + rewrite Hx'. by apply Permutation_insert_swap.
    + by etrans.
Qed.

Lemma shuffle_returns {O A} (x : list A) (w : world O) :
  returns (shuffle x) w (λ x' w', x' ≡ₚ x ∧ same_heap w w').
Proof.
  unfold shuffle. apply shuffle_from_returns.
  destruct x; simpl; [right; reflexivity | left; lia].
Qed.

#[local] Instance reordered_refl : Reflexive reordered.
Proof. intros o. unfold reordered. auto. Qed.

#[local] Instance reordered_trans : Transitive reordered.
Proof.
  intros o1 o2 o3 (? & ? & ? & H12) (? & ? & ? & H23).
  unfold reordered. repeat split; try congruence. by rewrite H23.
Qed.

#[local] Instance reordering_refl : Reflexive reordering.
Proof. intros w l. destruct (heap w !! l); constructor. reflexivity. Qed.

#[local] Instance reordering_trans : Transitive reordering.
Proof.
  intros w1 w2 w3 H12 H23 l. specialize (H12 l). specialize (H23 l).
  destruct H12 as [o1 o2 H12 |]; inversion H23; subst; constructor.
  by etrans.
Qed.

Lemma same_heap_reordering (w w' : world Painting) :
  same_heap w w' → reordering w w'.
Proof. intros Hw l. rewrite Hw. destruct (heap w !! l); by constructor. Qed.

(** One round of the loop either leaves the heap alone, or the roll has
    fired and the painting of the round has its strokes in a new order. *)
Lemma mutate_one_cases (mutation_chance : Q) (painting : loc)
    (w : world Painting) :
  let w' := (genetics.mutate_one mutation_chance () painting w).2 in
  heap w' = heap w
  ∨ (fires mutation_chance w = true
     ∧ ∃ o shuffled,
         heap w !! painting = Some o
         ∧ shuffled ≡ₚ strokes o
         ∧ heap w' = <[painting := genetics.set_strokes shuffled o]> (heap w)).
Proof.
  cbv zeta. unfold genetics.mutate_one, fires.
  rewrite bind_run.
  destruct (random w) as [[u | e] w0] eqn:Hrandom; [| discriminate].
  assert (H0 : heap w0 = heap w).
  { pose proof (random_quiet (O := Painting) w) as Hq.
    by rewrite Hrandom in Hq. }
  simpl. destruct (negb (Qle_bool mutation_chance u)); [| by left].
  rewrite bind_run.
  destruct (heap w !! painting) as [o |] eqn:Ho.
  - rewrite (getattr_run painting strokes o w0) by congruence.
    rewrite bind_run.
    destruct (shuffle_returns (strokes o) w0) as (shuffled & w1 & -> & Hperm & H1).
    right. split; [reflexivity |]. exists o, shuffled.
    split; [reflexivity |]. split; [exact Hperm |]. simpl.
    unfold same_heap in H1. rewrite H1, H0.
    apply map_eq. intros l. destruct (decide (painting = l)) as [<- | Hne].
    + rewrite lookup_alter_eq, lookup_insert_eq, Ho. reflexivity.
    + by rewrite lookup_alter_ne, lookup_insert_ne.
  - left. unfold getattr. rewrite bind_run. unfold deref.
    rewrite H0, Ho. simpl. exact H0.
Qed.

Lemma mutate_one_reordering (mutation_chance : Q) (painting : loc) :
  stable reordering (genetics.mutate_one mutation_chance () painting).
Proof.
  intros w.
  destruct (mutate_one_cases mutation_chance painting w)
    as [Hsame | (_ & o & shuffled & Ho & Hperm & Hheap)].
  - by apply same_heap_reordering.
  - intros l. rewrite Hheap. destruct (decide (painting = l)) as [<- | Hne].
    + rewrite lookup_insert_eq, Ho. constructor.
      unfold reordered. simpl. auto.
    + rewrite lookup_insert_ne by done. destruct (heap w !! l); by constructor.
Qed.

Lemma mutate_one_elsewhere (mutation_chance : Q) (painting l : loc)
    (w : world Painting) :
  (painting = l → fires mutation_chance w = false) →
  heap (genetics.mutate_one mutation_chance () painting w).2 !! l
  = heap w !! l.
Proof.
  intros Hl.
  destruct (mutate_one_cases mutation_chance painting w)
    as [Hsame | (Hfires & o & shuffled & Ho & Hperm & Hheap)].
  - by rewrite Hsame.
  - rewrite Hheap. apply lookup_insert_ne. intros Heq.
    rewrite (Hl Heq) in Hfires. discriminate.
Qed.

Lemma mutate_loop_elsewhere (mutation_chance : Q) (population : list loc)
    (l : loc) (w : world Painting) :
  (∀ i, population !! i = Some l →
        rolls mutation_chance population w !! i = Some false) →
  heap (for_each population (genetics.mutate_one mutation_chance) () w).2 !! l
  = heap w !! l.
Proof.
  revert w. induction population as [| painting rest IH]; intros w Hrolls.
  - reflexivity.
  - simpl. rewrite bind_run.
    pose proof (mutate_one_elsewhere mutation_chance painting l w) as Hone.
    simpl in Hrolls.
    destruct (genetics.mutate_one mutation_chance () painting w)
      as [[[] | e] w1] eqn:Hrun; simpl in *.
    + rewrite IH.
      * apply Hone. intros ->. specialize (Hrolls 0 eq_refl).
        by inversion Hrolls.
      * intros i Hi. apply (Hrolls (S i)). exact Hi.
    + apply Hone. intros ->. specialize (Hrolls 0 eq_refl).
      by inversion Hrolls.
Qed.

Lemma mutate_one_returns (mutation_chance : Q) (painting : loc)
    (w : world Painting) :
  is_Some (heap w !! painting) →
  returns (genetics.mutate_one mutation_chance () painting) w
    (λ _ w', ∀ l, is_Some (heap w !! l) → is_Some (heap w' !! l)).
Proof.
  intros [o Ho]. unfold genetics.mutate_one. apply returns_bind.
  destruct (random w) as [[u | e] w0] eqn:Hrandom; [| discriminate].
  assert (H0 : heap w0 = heap w).
  { pose proof (random_quiet (O := Painting) w) as Hq.
    by rewrite Hrandom in Hq. }
  exists u, w0. split; [exact Hrandom |].
  destruct (negb (Qle_bool mutation_chance u)).
  - apply returns_bind, (getattr_returns painting _ o); [congruence |].
    apply returns_bind.
    eapply returns_mono; [apply shuffle_returns |].
    intros shuffled w1 [_ H1]. cbv beta. unfold same_heap in H1.
    eexists _, _. split; [reflexivity |]. simpl.
    intros l. rewrite H1, H0, lookup_alter_is_Some. done.
  - apply returns_ret. intros l. by rewrite H0.
Qed.

(** C6. [mutate] changes no painting but in the order of its strokes:
    after the call every object of the heap has the strokes it had, as a
    multiset, and the reference, canvas and stroke count it had. A
    painting none of whose rolls fired is exactly what it was, stroke
    order included; in a population of different objects that is every
    painting whose own roll did not fire. The call returns (it raises
    nothing) when the population holds live references. *)
Theorem mutate_reorders_only (self : genetics.GeneticPainting)
    (w : world Painting) :
  let w' := (genetics.mutate self w).2 in
  (∀ l o, heap w !! l = Some o →
     ∃ o', heap w' !! l = Some o'
           ∧ strokes o' ≡ₚ strokes o
           ∧ ref o' = ref o
           ∧ canvas o' = canvas o
           ∧ num_strokes o' = num_strokes o)
  ∧ (∀ l,
       (∀ i, genetics.population self !! i = Some l →
             rolls (genetics.mutation_chance self)
               (genetics.population self) w !! i = Some false) →
       heap w' !! l = heap w !! l)
  ∧ (NoDup (genetics.population self) →
     ∀ i l, genetics.population self !! i = Some l →
            rolls (genetics.mutation_chance self)
              (genetics.population self) w !! i = Some false →
            heap w' !! l = heap w !! l)
  ∧ ((∀ l, l ∈ genetics.population self → is_Some (heap w !! l)) →
     (genetics.mutate self w).1 = Ok ()).
Proof.
  cbv zeta. unfold genetics.mutate. split; [| split; [| split]].
  - intros l o Ho.
    pose proof (stable_for_each reordering (genetics.population self)
                  (genetics.mutate_one (genetics.mutation_chance self)) ()
                  (λ _ x, mutate_one_reordering _ x) w l) as Hl.
    rewrite Ho in Hl. inversion Hl as [? o' (? & ? & ? & ?) |]; subst.
    exists o'. auto.
  - intros l Hrolls. by apply mutate_loop_elsewhere.
  - intros Hnd i l Hi Hroll. apply mutate_loop_elsewhere.
    intros j Hj. by rewrite (NoDup_lookup _ _ _ _ Hnd Hj Hi).
  - intros Hlive.
    destruct (for_each_returns
                (λ _ _ w', ∀ l, is_Some (heap w !! l) → is_Some (heap w' !! l))
                (genetics.population self)
                (genetics.mutate_one (genetics.mutation_chance self)) () w)
      as ([] & w' & -> & _); [auto | | reflexivity].
    intros k painting [] w1 Hk Hinv.
    eapply returns_mono.
    + apply mutate_one_returns. apply Hinv, Hlive.
      by eapply list_elem_of_lookup_2.
    + cbv beta. intros _ w2 Hw2 l Hl. auto.
Qed.

(** A run of [mutate] over the red and the blue painting with mutation
    chance 1/10. The first roll, 0, fires: the red painting has its three
    strokes in a new order. The second roll, 1/2, does not: the blue
    painting is what it was. *)
Lemma mutate_red_not_blue :
  let self := engine 2 (1 # 2) 1 1 [1; 2]%positive in
  let w := World (λ n, if n is 0 then 0%N else (2 ^ 52)%N) (heap atelier) in
  let w' := (genetics.mutate self w).2 in
  rolls (1 # 10) [1; 2]%positive w = [true; false]
  ∧ heap w' !! 2%positive = Some blue_painting
  ∧ strokes <$> heap w' !! 1%positive
    = Some [stroke_at RED 2 10; stroke_at RED 2 2; stroke_at RED 2 6].
Proof. cbv zeta. split; [| split]; vm_compute; reflexivity. Qed.

(** ** [sorted] *)

Section SortedFacts.
Context {A K : Type} (leb : K → K → bool) (key : A → K).
Hypothesis leb_total : ∀ x y, leb x y = false → leb y x = true.

Local Abbreviation ascending := (λ a b : A, leb (key a) (key b) = true).

Lemma insert_sorted_perm (x : A) (l : list A) :
  insert_sorted leb key x l ≡ₚ x :: l.
Proof.
  induction l as [| y l IH]; simpl; [reflexivity |].
  destruct (leb (key x) (key y)); [reflexivity |].
  rewrite IH. apply perm_swap.
Qed.

Lemma sorted_perm (l : list A) : sorted leb key l ≡ₚ l.
Proof.
  induction l as [| x l IH]; simpl; [reflexivity |].
  by rewrite insert_sorted_perm, IH.
Qed.

Lemma insert_sorted_HdRel (a x : A) (l : list A) :
  ascending a x → HdRel ascending a l →
  HdRel ascending a (insert_sorted leb key x l).
Proof.
  intros Hax Hal. destruct l as [| y l]; simpl; [by constructor |].
  destruct (leb (key x) (key y)); constructor; [exact Hax |].
  by inversion Hal.
Qed.

Lemma insert_sorted_Sorted (x : A) (l : list A) :
  Sorted ascending l → Sorted ascending (insert_sorted leb key x l).
Proof.
  induction 1 as [| y l Hl IH Hy]; simpl; [repeat constructor |].
  destruct (leb (key x) (key y)) eqn:Hxy.
  - constructor; [by constructor |]. by constructor.
  - constructor; [exact IH |].
    apply insert_sorted_HdRel; [| exact Hy]. by apply leb_total.
Qed.

Lemma sorted_Sorted (l : list A) : Sorted ascending (sorted leb key l).
Proof.
  induction l as [| x l IH]; simpl; [constructor |].
  by apply insert_sorted_Sorted.
Qed.
End SortedFacts.

Lemma Qle_bool_total (x y : Q) : Qle_bool x y = false → Qle_bool y x = true.
Proof.
  intros Hxy. apply Qle_bool_iff.
  destruct (Qlt_le_dec y x) as [Hlt | Hle].
  - by apply Qlt_le_weak.
  - apply Qle_bool_iff in Hle. congruence.
Qed.

Lemma by_score_perm (scored : list genetics.ScoredPainting) :
  genetics.by_score scored ≡ₚ scored.
Proof. apply sorted_perm. Qed.

Lemma by_score_Sorted (scored : list genetics.ScoredPainting) :
  Sorted (λ a b, (genetics.score a <= genetics.score b)%Q)
    (genetics.by_score scored).
Proof.
  eapply Sorted_ind with
    (P := Sorted (λ a b, (genetics.score a <= genetics.score b)%Q));
    [constructor | | apply (sorted_Sorted Qle_bool genetics.score Qle_bool_total)].
  intros a l _ IH Hhd. constructor; [exact IH |].
  destruct Hhd as [| b l Hab]; constructor. by apply Qle_bool_iff.
Qed.

(** ** [random.sample] *)

Lemma sample_loop_returns {O A} (k : nat) (pool : list A) (w : world O) :
  k ≤ length pool →
  returns (sample_loop k pool) w
    (λ chosen w', length chosen = k
                  ∧ (∃ rest, chosen ++ rest ≡ₚ pool)
                  ∧ same_heap w w').
Proof.
  revert pool w. induction k as [| k IH]; intros pool w Hk; simpl.
  - apply returns_ret. split; [reflexivity |]. split; [| reflexivity].
    exists pool. reflexivity.
  - apply returns_bind.
    eapply returns_mono; [apply randbelow_returns |].
    intros j w1 [Hj H1]. cbv beta. specialize (Hj ltac:(lia)).
    destruct (lookup_lt_is_Some_2 pool j Hj) as [x Hx].
    apply returns_bind. eexists _, _. split; [by apply index_run |].
    apply returns_bind.
    eapply returns_mono.
    { apply IH. rewrite length_delete by eauto. lia. }
    intros chosen w2 (Hlen & [rest Hrest] & H2). cbv beta.
    apply returns_ret. split; [simpl; lia |]. split; [| by etrans].
    exists rest. simpl. rewrite Hrest. symmetry. by apply delete_Permutation.
Qed.

Lemma sample_returns {O A} (population : list A) (k : Z) (w : world O) :
  (0 ≤ k ≤ Z.of_nat (length population))%Z →
  returns (sample population k) w
    (λ chosen w', Z.of_nat (length chosen) = k
                  ∧ (∃ rest, chosen ++ rest ≡ₚ population)
                  ∧ same_heap w w').
Proof.
  intros Hk. unfold sample.
  destruct (Z.ltb_spec k 0); [lia |].
  destruct (Z.ltb_spec (Z.of_nat (length population)) k); [lia |]. simpl.
  eapply returns_mono; [apply sample_loop_returns; lia |].
  intros chosen w' (Hlen & Hrest & Hw'). cbv beta. split; [lia | auto].
Qed.

Lemma sample_too_many {O A} (population : list A) (k : Z) (w : world O) :
  (Z.of_nat (length population) < k)%Z →
  sample population k w = (Raise ValueError, w).
Proof.
  intros Hk. unfold sample.
  destruct (Z.ltb_spec (Z.of_nat (length population)) k); [| lia].
  by rewrite orb_true_r.
Qed.

(** ** Selection *)


(** The product [pop_size * fit_percentage] is the float Python computes,
    not the exact one. With 10 paintings and the float [0.7], which is a
    little below 7/10, the float product is 7.0 and there are 7 winners,
    where the floor of the exact product is 6; with 50 paintings and the
    float [0.58] the float product is a little below 29 and there are 28
    winners, where [50 * 58 / 100] is 29. *)
Lemma winners_of_the_float_product :
  genetics.winners (engine 10 (7 # 10) 1 1 []) = 7%Z
  ∧ Qfloor (inject_Z 10 * round64 (7 # 10)) = 6%Z
  ∧ genetics.winners (engine 50 (29 # 50) 1 1 []) = 28%Z
  ∧ Qfloor (inject_Z 50 * (29 # 50)) = 29%Z.
Proof. vm_compute. repeat split. Qed.




(** In the atelier the two best paintings, the grey and the blue one,
    survive, and the lucky one is the green painting, from the two worst. *)
Lemma cull_the_herd_atelier_survivors :
  (genetics.cull_the_herd (engine 4 (1 # 2) 1 1 [1; 2; 3; 4]%positive)
     scored_atelier genetics.SURVIVORS atelier).1
  = Ok [4; 2; 3]%positive.
Proof. vm_compute. reflexivity. Qed.

(** The numbers of the scenario of the specification: with
    [pop_size = 10], [fit_percentage = 0.2] and [lucky_percentage = 0.1]
    there are two winners, one lucky painting and three children per
    pair. *)
Lemma scenario_sizes :
  genetics.winners (engine 10 (1 # 5) 1 3 []) = 2%Z
  ∧ Qceiling (float_mul (float_of_int 10) (1 # 10)) = 1%Z
  ∧ (float_floordiv (float_of_int 10)
       (float_add (float_mul (float_of_int 10) (1 # 5)) (float_of_int 1))
       quiet_world).1
    = Ok (inject_Z 3).
Proof. vm_compute. repeat split. Qed.

(** ** Breeding *)

Lemma offspring_mono (w w' : world Painting) (a b c : loc) :
  heap_extended w w' → offspring w a b c → offspring w' a b c.
Proof.
  intros Hext (pa & pb & pc & Ha & Hb & Hc & Hcross).
  exists pa, pb, pc.
  split; [by eapply lookup_weaken |].
  split; [by eapply lookup_weaken |].
  split; [by eapply lookup_weaken | exact Hcross].
Qed.

Lemma spanned_mono (breeders : list loc) (n : nat) (w w' : world Painting)
    (k : nat) (c : loc) :
  heap_extended w w' → spanned breeders n w k c → spanned breeders n w' k c.
Proof.
  intros Hext (a & b & Ha & Hb & Hoff). exists a, b.
  split; [exact Ha |]. split; [exact Hb |]. by eapply offspring_mono.
Qed.

Lemma bred_mono (w0 : world Painting) (breeders children : list loc)
    (w w' : world Painting) :
  heap_extended w w' → bred w0 breeders children w →
  bred w0 breeders children w'.
Proof.
  intros Hext (H0 & Hnd & Hall). split; [by etrans |]. split; [exact Hnd |].
  eapply Forall_impl; [exact Hall |].
  intros c (Hnew & a & b & Hpair & Hoff). split; [exact Hnew |].
  exists a, b. split; [exact Hpair |]. by eapply offspring_mono.
Qed.

Lemma bred_nil (w0 : world Painting) (breeders : list loc) :
  bred w0 breeders [] w0.
Proof. split; [reflexivity |]. split; constructor. Qed.

Lemma bred_take (w0 : world Painting) (breeders children : list loc)
    (w : world Painting) (n : nat) :
  bred w0 breeders children w → bred w0 breeders (take n children) w.
Proof.
  intros (H0 & Hnd & Hall). split; [exact H0 |].
  split; [| by apply Forall_take].
  eapply sublist_NoDup; [exact Hnd | apply sublist_take].
Qed.

Lemma pair_off_returns (breeders : list loc) (w : world Painting) :
  2 ≤ length breeders →
  returns (genetics.pair_off breeders) w
    (λ parents w', distinct_pair breeders parents.1 parents.2
                   ∧ same_heap w w').
Proof.
  intros Hlen. unfold genetics.pair_off. apply returns_bind.
  eapply returns_mono; [apply sample_returns; lia |].
  intros chosen w' (Hcount & [rest Hrest] & Hw'). cbv beta.
  destruct chosen as [| a [| b [| ? ?]]]; try (simpl in Hcount; lia).
  apply returns_ret. split; [| exact Hw']. simpl.
  apply Permutation_inj in Hrest as (_ & f & Hinj & Hf).
  exists (f 0), (f 1). split; [intros Heq; by apply Hinj in Heq |].
  split; [by rewrite <- Hf | by rewrite <- Hf].
Qed.

(** The counted loop [fill] is the [while] loop of [breed]: as long as the
    new generation is short of [pop_size] it breeds one more child from a
    random pair, and it stops as soon as it is not. *)
Lemma fill_up_while (self : genetics.GeneticPainting)
    (breeders next_generation : list loc) (w : world Painting) :
  genetics.fill_up self breeders next_generation w
  = (if (Z.of_nat (length next_generation) <? genetics.pop_size self)%Z
     then '(parent1, parent2) ← genetics.pair_off breeders;
          child ← Painting_mul parent1 parent2;
          genetics.fill_up self breeders (next_generation ++ [child])
     else ret next_generation) w.
Proof.
  unfold genetics.fill_up.
  destruct (Z.ltb_spec (Z.of_nat (length next_generation))
              (genetics.pop_size self)) as [Hshort | Hfull].
  - replace (Z.to_nat (genetics.pop_size self
                       - Z.of_nat (length next_generation)))
      with (S (Z.to_nat (genetics.pop_size self
                         - Z.of_nat (length next_generation) - 1))) by lia.
    simpl genetics.fill. rewrite !bind_run.
    destruct (genetics.pair_off breeders w) as [[[parent1 parent2] | e] w1];
      [| reflexivity].
    rewrite !bind_run.
    destruct (Painting_mul parent1 parent2 w1) as [[child | e] w2];
      [| reflexivity].
    rewrite length_app. simpl length. f_equal. lia.
  - replace (Z.to_nat (genetics.pop_size self
                       - Z.of_nat (length next_generation)))
      with 0 by lia.
    reflexivity.
Qed.

Section Breeding.
Context (breeders : list loc) (N : nat) (w0 : world Painting).
Hypothesis breeders_uniform : uniform w0 N breeders.

Lemma breeder_live (w : world Painting) (i : nat) (a : loc) :
  heap_extended w0 w → breeders !! i = Some a →
  ∃ o, heap w !! a = Some o ∧ well_formed o ∧ length (strokes o) = N.
Proof.
  intros Hext Ha.
  destruct (Forall_lookup_1 _ _ _ _ breeders_uniform Ha)
    as (o & [Ho Hwf] & Hlen).
  exists o. split; [by eapply lookup_weaken | done].
Qed.

Lemma Painting_mul_bred (children : list loc) (a b : loc)
    (w : world Painting) :
  bred w0 breeders children w →
  distinct_pair breeders a b →
  returns (Painting_mul a b) w
    (λ c w', bred w0 breeders (children ++ [c]) w'
             ∧ offspring w' a b c
             ∧ heap_extended w w').
Proof.
  intros (H0 & Hnd & Hall) Hpair.
  destruct Hpair as (i & j & Hij & Ha & Hb).
  destruct (breeder_live w i a H0 Ha) as (pa & Hpa & Hwfa & Hna).
  destruct (breeder_live w j b H0 Hb) as (pb & Hpb & Hwfb & Hnb).
  eapply returns_mono.
  { apply (Painting_mul_returns a b pa pb w); [done | done | done | lia]. }
  intros c w' (pc & Hfresh & Hheap & Hcross). cbv beta.
  assert (Hext : heap_extended w w').
  { unfold heap_extended. rewrite Hheap. by apply insert_subseteq. }
  assert (Hoff : offspring w' a b c).
  { exists pa, pb, pc. rewrite Hheap.
    rewrite !lookup_insert_ne by congruence. by rewrite lookup_insert_eq. }
  split; [| by split].
  split; [by etrans |]. split.
  - apply NoDup_app. split; [exact Hnd |]. split; [| apply NoDup_singleton].
    intros c' Hc' Hin. apply list_elem_of_singleton in Hin as ->.
    destruct (proj1 (Forall_forall _ _) Hall c Hc')
      as (_ & a' & b' & _ & (_ & _ & pc' & _ & _ & Hlive & _)).
    congruence.
  - apply Forall_app. split.
    + eapply Forall_impl; [exact Hall |].
      intros c' (Hnew & a' & b' & Hpair' & Hoff'). split; [exact Hnew |].
      exists a', b'. split; [exact Hpair' |]. by eapply offspring_mono.
    + apply Forall_singleton. split.
      * by eapply lookup_weaken_None.
      * exists a, b. split; [by exists i, j | exact Hoff].
Qed.

Lemma fill_returns (n : nat) (children : list loc) (w : world Painting) :
  2 ≤ length breeders →
  bred w0 breeders children w →
  returns (genetics.fill n breeders children) w
    (λ children' w', bred w0 breeders children' w'
                     ∧ heap_extended w w'
                     ∧ ∃ more, children' = children ++ more
                               ∧ length more = n).
Proof.
  intros Hlen. revert children w.
  induction n as [| n IH]; intros children w Hbred; simpl.
  - apply returns_ret. split; [exact Hbred |]. split; [reflexivity |].
    exists []. by rewrite app_nil_r.
  - apply returns_bind.
    eapply returns_mono; [by apply pair_off_returns |].
    intros [parent1 parent2] w1 [Hpair H1]. cbv beta. simpl in Hpair.
    apply returns_bind.
    eapply returns_mono.
    { apply Painting_mul_bred; [| exact Hpair].
      eapply bred_mono; [by apply same_heap_extended | exact Hbred]. }
    intros c w2 (Hbred2 & _ & H2). cbv beta.
    eapply returns_mono; [by apply IH |].
    intros children' w3 (Hbred3 & H3 & more & -> & Hmore). cbv beta.
    split; [exact Hbred3 |]. split.
    { etrans; [by apply same_heap_extended |]. by etrans. }
    exists (c :: more).
    split; [by rewrite <- app_assoc | simpl; lia].
Qed.

Lemma span_pairs_returns (self : genetics.GeneticPainting)
    (w : world Painting) :
  bred w0 breeders [] w →
  returns (genetics.span_pairs self breeders) w
    (λ children w',
       bred w0 breeders children w'
       ∧ length children
         = length breeders `div` 2 * Z.to_nat (genetics.num_children self)
       ∧ ∀ k c, children !! k = Some c →
                spanned breeders (Z.to_nat (genetics.num_children self)) w' k c).
Proof.
  intros Hbred. unfold genetics.span_pairs.
  set (n := Z.to_nat (genetics.num_children self)).
  eapply returns_mono.
  { apply (for_each_returns
             (λ i children w',
                bred w0 breeders children w'
                ∧ length children = i * n
                ∧ ∀ k c, children !! k = Some c → spanned breeders n w' k c)).
    - split; [exact Hbred |]. split; [reflexivity |]. intros k c Hk. done.
    - intros i iz children w1 Hi (Hbred1 & Hlen1 & Hspan1).
      apply range_lookup in Hi as [-> Hi].
      assert (Hhalf : i < length breeders `div` 2).
      { rewrite <- (Nat2Z.inj_div _ 2) in Hi. lia. }
      pose proof (Nat.Div0.mul_div_le (length breeders) 2) as Hle.
      destruct (lookup_lt_is_Some_2 breeders i ltac:(lia)) as [a Ha].
      destruct (lookup_lt_is_Some_2 breeders (length breeders - (i + 1))
                  ltac:(lia)) as [b Hb].
      eapply returns_mono.
      { apply (for_each_returns
                 (λ j children' w',
                    bred w0 breeders children' w'
                    ∧ length children' = i * n + j
                    ∧ ∀ k c, children' !! k = Some c →
                             spanned breeders n w' k c)).
        - split; [exact Hbred1 |]. split; [lia | exact Hspan1].
        - intros j jz children' w2 Hj (Hbred2 & Hlen2 & Hspan2).
          apply range_lookup in Hj as [_ Hj].
          rewrite Nat2Z.id.
          apply returns_bind. eexists _, _. split; [by apply index_run |].
          apply returns_bind. eexists _, _. split; [by apply index_run |].
          apply returns_bind.
          eapply returns_mono.
          { apply (Painting_mul_bred children' a b w2 Hbred2).
            exists i, (length breeders - (i + 1)).
            split; [lia | by split]. }
          intros c w3 (Hbred3 & Hoff & Hext). cbv beta.
          apply returns_ret. split; [exact Hbred3 |].
          split; [rewrite length_app; simpl; lia |].
          intros k c' Hk. apply lookup_app_Some in Hk as [Hk | [Hge Hk]].
          + eapply spanned_mono; [exact Hext | by apply Hspan2].
          + apply list_lookup_singleton_Some in Hk as [Hk ->].
            assert (Hdiv : k `div` n = i).
            { replace k with (i * n + j) by lia.
              rewrite Nat.div_add_l by lia.
              rewrite Nat.div_small by lia. lia. }
            exists a, b. rewrite Hdiv. by repeat split. }
      intros children' w2 (Hbred2 & Hlen2 & Hspan2). cbv beta.
      split; [exact Hbred2 |]. split; [| exact Hspan2].
      rewrite Hlen2, range_length. fold n. lia. }
  intros children w' (Hbred' & Hlen' & Hspan'). cbv beta.
  split; [exact Hbred' |]. split; [| exact Hspan'].
  rewrite Hlen', range_length, Z2Nat.inj_div, Nat2Z.id by lia.
  reflexivity.
Qed.
End Breeding.

Lemma bred_uniform (w0 w : world Painting) (N : nat)
    (breeders children : list loc) :
  uniform w0 N breeders → bred w0 breeders children w →
  uniform w N children.
Proof.
  intros Hbreeders (Hext & _ & Hall). unfold uniform.
  eapply Forall_impl; [exact Hall |].
  intros c (_ & a & b & (i & _ & _ & Ha & _) & Hoff).
  destruct Hoff as (pa & pb & pc & Hpa & _ & Hpc & Hcross).
  destruct Hcross as (_ & _ & Hwf & Hlen & _).
  destruct (breeder_live breeders N w0 Hbreeders w i a Hext Ha)
    as (o & Ho & _ & HN).
  exists pc. split; [by split |]. congruence.
Qed.

(** C2, amended. For at least two breeders, genomes of one stroke count,
    and a population size that is not negative, [breed] with strategy SPAN or
    RANDOM returns exactly [pop_size] paintings; the list is the new
    population of the engine and the generation counter is one higher.
    Every child is a new object, different from all the others, and the
    crossover of two breeders at different positions of the list, and it
    has the stroke count of the breeders; the breeders and all other old
    objects are what they were. With SPAN, and [num_children] children
    per pair, the child at position [k] below
    [(len(breeders) // 2) * num_children] is the crossover of the breeder
    at [k // num_children] with the breeder at
    [len(breeders) - 1 - k // num_children]. *)
Theorem breed_span_or_random (self : genetics.GeneticPainting)
    (breeders : list loc) (strategy : string) (N : nat)
    (w : world Painting) :
  strategy = genetics.SPAN ∨ strategy = genetics.RANDOM →
  2 ≤ length breeders →
  (0 ≤ genetics.pop_size self)%Z →
  uniform w N breeders →
  ∃ next_generation self' w',
    genetics.breed self breeders strategy w = (Ok next_generation, self', w')
    ∧ Z.of_nat (length next_generation) = genetics.pop_size self
    ∧ self'
      = genetics.increment_generation
          (genetics.set_population next_generation self)
    ∧ genetics.population self' = next_generation
    ∧ genetics.generation self' = (genetics.generation self + 1)%Z
    ∧ bred w breeders next_generation w'
    ∧ uniform w' N next_generation
    ∧ (strategy = genetics.SPAN →
       ∀ k c, next_generation !! k = Some c →
              k < length breeders `div` 2
                  * Z.to_nat (genetics.num_children self) →
              spanned breeders (Z.to_nat (genetics.num_children self))
                w' k c).
Proof.
  intros Hstrategy Hlen Hpop Huniform.
  assert (Hnext :
    returns (genetics.next_generation_of self breeders strategy) w
      (λ next_generation w',
         Z.of_nat (length next_generation) = genetics.pop_size self
         ∧ bred w breeders next_generation w'
         ∧ (strategy = genetics.SPAN →
            ∀ k c, next_generation !! k = Some c →
                   k < length breeders `div` 2
                       * Z.to_nat (genetics.num_children self) →
                   spanned breeders (Z.to_nat (genetics.num_children self))
                     w' k c))).
  { unfold genetics.next_generation_of.
    destruct (decide (strategy = genetics.RANDOM)) as [-> | Hnot].
    - unfold genetics.fill_up. eapply returns_mono.
      { apply (fill_returns breeders N w Huniform _ [] w Hlen),
          bred_nil. }
      intros children w' (Hbred & _ & more & -> & Hmore). cbv beta.
      split; [simpl in *; lia |]. split; [exact Hbred |]. discriminate.
    - destruct Hstrategy as [-> | ->]; [| done].
      destruct (decide (genetics.SPAN = genetics.SPAN)); [| done].
      apply returns_bind.
      eapply returns_mono.
      { apply (span_pairs_returns breeders N w Huniform self w), bred_nil. }
      intros paired w1 (Hbred1 & Hlen1 & Hspan1). cbv beta.
      apply returns_bind. unfold genetics.fill_up.
      eapply returns_mono.
      { apply (fill_returns breeders N w Huniform _ paired w1 Hlen Hbred1). }
      intros filled w2 (Hbred2 & Hext2 & more & -> & Hmore). cbv beta.
      apply returns_ret.
      assert (Hslice : slice_to (genetics.pop_size self) (paired ++ more)
                       = take (Z.to_nat (genetics.pop_size self))
                           (paired ++ more)).
      { unfold slice_to.
        destruct (Z.leb_spec 0 (genetics.pop_size self)); [done | lia]. }
      rewrite Hslice. split; [| split].
      + rewrite length_take, length_app. lia.
      + by apply bred_take.
      + intros _ k c Hk Hbound.
        apply lookup_take_Some in Hk as [Hk _].
        rewrite lookup_app_l in Hk by lia.
        eapply spanned_mono; [exact Hext2 | by apply Hspan1]. }
  destruct Hnext as (next_generation & w' & Hrun & Hcount & Hbred & Hspan).
  eexists next_generation, _, w'. unfold genetics.breed. rewrite Hrun.
  split; [reflexivity |]. split; [exact Hcount |].
  split; [reflexivity |]. split; [reflexivity |]. split; [reflexivity |].
  split; [exact Hbred |]. split; [| exact Hspan].
  by eapply bred_uniform.
Qed.

Lemma atelier_uniform : uniform atelier 3 [1; 2; 3]%positive.
Proof.
  unfold uniform, genome, well_formed.
  repeat (constructor; [eexists; repeat split; reflexivity |]).
  constructor.
Qed.

Lemma breed_span_or_random_atelier :
  ∃ next_generation self' w',
    genetics.breed (engine 10 (1 # 5) 1 3 [1; 2; 3; 4]%positive)
      [1; 2; 3]%positive genetics.SPAN atelier
      = (Ok next_generation, self', w')
    ∧ Z.of_nat (length next_generation) = 10%Z
    ∧ self'
      = genetics.increment_generation
          (genetics.set_population next_generation
             (engine 10 (1 # 5) 1 3 [1; 2; 3; 4]%positive))
    ∧ genetics.population self' = next_generation
    ∧ genetics.generation self' = (0 + 1)%Z
    ∧ bred atelier [1; 2; 3]%positive next_generation w'
    ∧ uniform w' 3 next_generation
    ∧ (genetics.SPAN = genetics.SPAN →
       ∀ k c, next_generation !! k = Some c →
              k < length [1; 2; 3]%positive `div` 2 * Z.to_nat 3 →
              spanned [1; 2; 3]%positive (Z.to_nat 3) w' k c).
Proof.
  apply (breed_span_or_random (engine 10 (1 # 5) 1 3 [1; 2; 3; 4]%positive)
           [1; 2; 3]%positive genetics.SPAN 3 atelier).
  - left. reflexivity.
  - simpl. lia.
  - vm_compute. discriminate.
  - exact atelier_uniform.
Defined.

(** The scenario of the specification: ten children from three breeders,
    at ten new references. *)
Lemma breed_atelier_ten :
  (genetics.breed (engine 10 (1 # 5) 1 3 [1; 2; 3; 4]%positive)
     [1; 2; 3]%positive genetics.SPAN atelier).1.1
  = Ok [5; 6; 7; 8; 9; 10; 11; 12; 13; 14]%positive.
Proof. vm_compute. reflexivity. Qed.

(** C2, as stated, fails: bred with the red painting of three strokes,
    the short painting of one stroke has no stroke at index 1 for the
    child to take; [__mul__] raises [IndexError], no list is returned, and
    the engine keeps its population and its generation counter. *)
Lemma breed_mixed_stroke_counts :
  genetics.breed (engine 10 (1 # 5) 1 3 [1; 2; 3; 4]%positive)
    [1; 5]%positive genetics.SPAN mixed_atelier
  = (Raise IndexError, engine 10 (1 # 5) 1 3 [1; 2; 3; 4]%positive,
     World (λ n, rng mixed_atelier (3 + n)) (heap mixed_atelier)).
Proof. reflexivity. Qed.

(** * Beyond the claims *)

(** ** The arrays of the sampler *)

Lemma init_steps (color_weights : list (pixel * Z))
    (st : Z * WeightedRandomColors) :
  fold_left init_step color_weights st
  = ((st.1 + weight_sum color_weights)%Z,
     mkWeightedRandomColors
       (totals st.2
        ++ ((λ i, (st.1 + weight_sum (take (S i) color_weights))%Z)
              <$> seq 0 (length color_weights)))
       (colors st.2 ++ color_weights.*1)).
Proof.
  revert st. induction color_weights as [| cw l IH]; intros [t s].
  - simpl. rewrite !app_nil_r, Z.add_0_r. by destruct s.
  - change (fold_left init_step (cw :: l) (t, s))
      with (fold_left init_step l (init_step (t, s) cw)).
    rewrite IH. unfold init_step. simpl.
    f_equal; [lia |]. f_equal.
    + rewrite <- app_assoc. f_equal. simpl. f_equal; [lia |].
      rewrite <- fmap_S_seq, <- list_fmap_compose.
      apply list_fmap_ext. intros i k _. simpl. lia.
    + by rewrite <- app_assoc.
Qed.

Lemma init_run (color_weights : list (pixel * Z)) (w : world Painting) :
  WeightedRandomColors_init color_weights w
  = (Ok (mkWeightedRandomColors
           ((λ i, weight_sum (take (S i) color_weights))
              <$> seq 0 (length color_weights))
           color_weights.*1), w).
Proof.
  unfold WeightedRandomColors_init. rewrite init_steps. reflexivity.
Qed.

Lemma init_total_lookup (color_weights : list (pixel * Z)) (i : nat) :
  ((λ i, weight_sum (take (S i) color_weights))
     <$> seq 0 (length color_weights)) !! i
  = if decide (i < length color_weights)
    then Some (weight_sum (take (S i) color_weights))
    else None.
Proof.
  rewrite list_lookup_fmap. destruct (decide (i < length color_weights)).
  - by rewrite lookup_seq_lt.
  - by rewrite lookup_seq_ge by lia.
Qed.

(** X1. The sampler [__init__] builds holds two parallel arrays: the
    colours in the order given, and for each position the sum of the
    weights up to and including it. *)
Theorem sampler_parallel_arrays (color_weights : list (pixel * Z))
    (w : world Painting) :
  ∃ sampler,
    WeightedRandomColors_init color_weights w = (Ok sampler, w)
    ∧ colors sampler = color_weights.*1
    ∧ length (totals sampler) = length (colors sampler)
    ∧ ∀ i, i < length color_weights →
           totals sampler !! i
           = Some (weight_sum (take (S i) color_weights)).
Proof.
  eexists. split; [apply init_run |]. simpl.
  split; [reflexivity |].
  split; [by rewrite !length_fmap, length_seq |].
  intros i Hi. rewrite init_total_lookup. by destruct (decide _).
Qed.

Lemma weight_sum_take_grows (color_weights : list (pixel * Z)) (n m : nat) :
  Forall (λ cw, (0 < cw.2)%Z) color_weights →
  n < m ≤ length color_weights →
  (weight_sum (take n color_weights) < weight_sum (take m color_weights))%Z.
Proof.
  intros Hpos. revert n m.
  induction Hpos as [| cw l Hcw Hl IH]; intros n m Hnm; simpl in Hnm;
    [lia |].
  destruct m as [| m]; [lia |]. destruct n as [| n]; simpl.
  - destruct m as [| m]; simpl; [lia |].
    specialize (IH 0 (S m) ltac:(lia)). simpl in IH. lia.
  - specialize (IH n m ltac:(lia)). lia.
Qed.



(** ** The draw *)

Lemma bisect_loop_bounds (fuel : nat) (a : list Z) (x : Q) (lo hi : nat) :
  ascending_totals a →
  lo ≤ hi ≤ length a →
  hi - lo < fuel →
  (∀ k v, k < lo → a !! k = Some v → (inject_Z v <= x)%Q) →
  (∀ k v, hi ≤ k → a !! k = Some v → (x < inject_Z v)%Q) →
  let i := bisect_loop fuel a x lo hi in
  lo ≤ i ≤ hi
  ∧ (∀ k v, k < i → a !! k = Some v → (inject_Z v <= x)%Q)
  ∧ (∀ k v, i ≤ k → a !! k = Some v → (x < inject_Z v)%Q).
Proof.
  intros Hasc. revert lo hi.
  induction fuel as [| fuel IH]; intros lo hi Hrange Hfuel Hbelow Habove;
    [lia |].
  cbv zeta in *. cbn [bisect_loop].
  destruct (Nat.ltb_spec lo hi) as [Hlt | Hge].
  - set (mid := (lo + hi) `div` 2).
    assert (Hmid : lo ≤ mid < hi).
    { subst mid. split.
      - apply Nat.div_le_lower_bound; lia.
      - apply Nat.Div0.div_lt_upper_bound; lia. }
    clearbody mid.
    destruct (lookup_lt_is_Some_2 a mid ltac:(lia)) as [m Hm].
    rewrite Hm. change (default 0%Z (Some m)) with m.
    destruct (Qle_bool (inject_Z m) x) eqn:Hcmp.
    + apply Qle_bool_iff in Hcmp.
      destruct (IH (mid + 1) hi) as (Hi & Hlow & Hhigh);
        [lia | lia | | exact Habove |].
      * intros k v Hk Hv.
        eapply Qle_trans; [| exact Hcmp].
        rewrite <- Zle_Qle. apply (Hasc k mid); [lia | done | done].
      * split; [lia |]. split; assumption.
    + assert (Hx : (x < inject_Z m)%Q).
      { apply Qnot_le_lt. intros Hle. apply Qle_bool_iff in Hle. congruence. }
      destruct (IH lo mid) as (Hi & Hlow & Hhigh);
        [lia | lia | exact Hbelow | |].
      * intros k v Hk Hv.
        eapply Qlt_le_trans; [exact Hx |].
        rewrite <- Zle_Qle. apply (Hasc mid k); [lia | done | done].
      * split; [lia |]. split; assumption.
  - split; [lia |]. split.
    + exact Hbelow.
    + intros k v Hk. apply Habove. lia.
Qed.

Lemma bisect_right_bounds (a : list Z) (x : Q) :
  ascending_totals a →
  bisect_right a x ≤ length a
  ∧ (∀ k v, k < bisect_right a x → a !! k = Some v → (inject_Z v <= x)%Q)
  ∧ (∀ k v, bisect_right a x ≤ k → a !! k = Some v → (x < inject_Z v)%Q).
Proof.
  intros Hasc. unfold bisect_right.
  destruct (bisect_loop_bounds (S (length a)) a x 0 (length a) Hasc)
    as (Hi & Hlow & Hhigh); [lia | lia | | |].
  - intros k v Hk. lia.
  - intros k v Hk Hv. apply lookup_lt_Some in Hv. lia.
  - split; [lia |]. split; assumption.
Qed.

Lemma resolve_bucket (self : WeightedRandomColors) (rnd : Q)
    (last_total : Z) (w : world Painting) :
  ascending_totals (totals self) →
  length (colors self) = length (totals self) →
  last (totals self) = Some last_total →
  (rnd < inject_Z last_total)%Q →
  ∃ i c t,
    resolve self rnd w = (Ok c, w)
    ∧ colors self !! i = Some c
    ∧ totals self !! i = Some t
    ∧ (rnd < inject_Z t)%Q
    ∧ ∀ k t', k < i → totals self !! k = Some t' → (inject_Z t' <= rnd)%Q.
Proof.
  intros Hasc Hlen Hlast Hrnd.
  destruct (bisect_right_bounds (totals self) rnd Hasc)
    as (Hi & Hlow & Hhigh).
  set (i := bisect_right (totals self) rnd) in *.
  assert (Hin : i < length (totals self)).
  { destruct (decide (i < length (totals self))) as [| Hout]; [done |].
    exfalso. rewrite last_lookup in Hlast.
    pose proof (lookup_lt_Some _ _ _ Hlast) as Hpos.
    apply (Qlt_irrefl rnd). eapply Qlt_le_trans; [exact Hrnd |].
    apply (Hlow (pred (length (totals self))) last_total); [lia | done]. }
  destruct (lookup_lt_is_Some_2 (totals self) i Hin) as [t Ht].
  assert (Hic : i < length (colors self)) by (rewrite Hlen; exact Hin).
  destruct (lookup_lt_is_Some_2 (colors self) i Hic) as [c Hc].
  exists i, c, t. unfold resolve. fold i.
  split; [by apply index_run |]. split; [exact Hc |]. split; [exact Ht |].
  split; [by apply (Hhigh i) | exact Hlow].
Qed.

(** X3. On a sampler whose totals never go down, a draw value below the
    last total resolves to the colour at the first position whose total
    exceeds the value: every total before that position is at most the
    value. *)
Theorem resolve_first_total_above (self : WeightedRandomColors) (rnd : Q)
    (last_total : Z) (w : world Painting) :
  ascending_totals (totals self) →
  length (colors self) = length (totals self) →
  last (totals self) = Some last_total →
  (rnd < inject_Z last_total)%Q →
  ∃ i c t,
    resolve self rnd w = (Ok c, w)
    ∧ colors self !! i = Some c
    ∧ totals self !! i = Some t
    ∧ (rnd < inject_Z t)%Q
    ∧ ∀ k t', k < i → totals self !! k = Some t' → (inject_Z t' <= rnd)%Q.
Proof. apply resolve_bucket. Qed.

Lemma scenario_sampler_ascending : ascending_totals (totals scenario_sampler).
Proof.
  intros i j a b Hij Ha Hb.
  destruct i as [| [| i]], j as [| [| j]]; simpl in Ha, Hb;
    try discriminate; simplify_eq; lia.
Qed.

Lemma resolve_first_total_above_scenario :
  ∃ i c t,
    resolve scenario_sampler (49 # 10) quiet_world = (Ok c, quiet_world)
    ∧ colors scenario_sampler !! i = Some c
    ∧ totals scenario_sampler !! i = Some t
    ∧ ((49 # 10) < inject_Z t)%Q
    ∧ ∀ k t', k < i → totals scenario_sampler !! k = Some t' →
              (inject_Z t' <= 49 # 10)%Q.
Proof.
  apply (resolve_first_total_above scenario_sampler (49 # 10) 8 quiet_world).
  - exact scenario_sampler_ascending.
  - reflexivity.
  - reflexivity.
  - reflexivity.
Defined.

Lemma init_totals_ascending (color_weights : list (pixel * Z)) :
  Forall (λ cw, (0 < cw.2)%Z) color_weights →
  ascending_totals
    ((λ i, weight_sum (take (S i) color_weights))
       <$> seq 0 (length color_weights)).
Proof.
  intros Hpos i j a b Hij Ha Hb. rewrite init_total_lookup in Ha, Hb.
  destruct (decide (i < length color_weights)); [| discriminate].
  destruct (decide (j < length color_weights)); [| discriminate].
  injection Ha as <-. injection Hb as <-.
  destruct (decide (i = j)) as [-> | Hne]; [lia |].
  apply Z.lt_le_incl, weight_sum_take_grows; [exact Hpos | lia].
Qed.

Lemma random_below_one {O} (w : world O) :
  ∃ n, random w = (Ok (Qmake n (2 ^ 53)), drawn w)
       ∧ (0 ≤ n < 2 ^ 53)%Z.
Proof.
  eexists. split; [reflexivity |]. apply Z.mod_pos_bound. lia.
Qed.

Lemma scaled_below (n total : Z) :
  (0 ≤ n < 2 ^ 53)%Z → (0 < total)%Z →
  (Qmake n (2 ^ 53) * inject_Z total < inject_Z total)%Q.
Proof.
  intros Hn Htotal. unfold Qlt, Qmult, inject_Z. simpl Qnum. simpl Qden.
  rewrite Pos.mul_1_r, Z.mul_1_r.
  change (Z.pos (2 ^ 53)) with (2 ^ 53)%Z. nia.
Qed.

(** X4. A sampler built from a list of colour weights that is not empty
    and whose weights are all positive never fails to draw: [next] takes
    one number off the random tape and returns one of the colours of the
    list. *)
Theorem next_draws_a_listed_colour (color_weights : list (pixel * Z))
    (w : world Painting) :
  color_weights ≠ [] →
  Forall (λ cw, (0 < cw.2)%Z) color_weights →
  ∃ sampler px,
    WeightedRandomColors_init color_weights w = (Ok sampler, w)
    ∧ next sampler w = (Ok px, drawn w)
    ∧ px ∈ color_weights.*1.
Proof.
  intros Hne Hpos.
  set (sampler := mkWeightedRandomColors
                    ((λ i, weight_sum (take (S i) color_weights))
                       <$> seq 0 (length color_weights))
                    color_weights.*1).
  exists sampler.
  assert (Hlast : last (totals sampler) = Some (weight_sum color_weights)).
  { subst sampler. simpl. rewrite last_lookup, length_fmap, length_seq.
    rewrite init_total_lookup.
    destruct color_weights as [| cw l]; [done |].
    destruct (decide _) as [_ | Hout]; [| simpl in Hout; lia].
    do 2 f_equal. apply take_ge. simpl. lia. }
  assert (Htotal : (0 < weight_sum color_weights)%Z).
  { pose proof (weight_sum_take_grows color_weights 0
                  (length color_weights) Hpos) as Hgrow.
    rewrite (take_ge color_weights (length color_weights)) in Hgrow by lia.
    simpl in Hgrow. apply Hgrow.
    destruct color_weights; [done | simpl; lia]. }
  destruct (random_below_one w) as (n & Hrandom & Hn).
  destruct (resolve_bucket sampler
              (Qmake n (2 ^ 53) * inject_Z (weight_sum color_weights))
              (weight_sum color_weights) (drawn w))
    as (i & c & t & Hresolve & Hc & _).
  - by apply init_totals_ascending.
  - subst sampler. simpl. by rewrite !length_fmap, length_seq.
  - exact Hlast.
  - by apply scaled_below.
  - exists c. split; [apply init_run |]. split.
    + unfold next. rewrite (bind_ok _ _ _ _ _ Hrandom).
      unfold index_last. rewrite Hlast. rewrite bind_run, ret_run.
      exact Hresolve.
    + by eapply list_elem_of_lookup_2.
Qed.

Lemma next_draws_a_listed_colour_scenario :
  ∃ sampler px,
    WeightedRandomColors_init [(BLUE, 3%Z); (RED, 5%Z)] lively_world
    = (Ok sampler, lively_world)
    ∧ next sampler lively_world = (Ok px, drawn lively_world)
    ∧ px ∈ [(BLUE, 3%Z); (RED, 5%Z)].*1.
Proof.
  apply (next_draws_a_listed_colour [(BLUE, 3%Z); (RED, 5%Z)] lively_world).
  - discriminate.
  - repeat constructor.
Defined.

(** ** The colour weights of an image *)

Lemma counter_add_map (px : pixel) (c : list (pixel * Z)) :
  (list_to_map (genetics.counter_add px c) : gmap pixel Z)
  = count_one (list_to_map c) px.
Proof.
  unfold count_one. induction c as [| [y n] c IH]; simpl.
  - by rewrite lookup_empty.
  - destruct (decide (px = y)) as [-> | Hne]; simpl.
    + by rewrite lookup_insert_eq, insert_insert_eq.
    + rewrite IH, lookup_insert_ne by done. by apply insert_insert_ne.
Qed.

Lemma counter_add_keys (px : pixel) (c : list (pixel * Z)) (y : pixel) :
  y ∈ (genetics.counter_add px c).*1 ↔ y = px ∨ y ∈ c.*1.
Proof.
  induction c as [| [z n] c IH]; simpl.
  - rewrite list_elem_of_singleton, elem_of_nil. tauto.
  - destruct (decide (px = z)) as [-> | Hne]; simpl.
    + rewrite !elem_of_cons. tauto.
    + rewrite !elem_of_cons, IH. tauto.
Qed.

Lemma counter_add_NoDup (px : pixel) (c : list (pixel * Z)) :
  NoDup c.*1 → NoDup (genetics.counter_add px c).*1.
Proof.
  induction c as [| [z n] c IH]; simpl; intros Hnd.
  - apply NoDup_singleton.
  - apply NoDup_cons in Hnd as [Hz Hnd].
    destruct (decide (px = z)) as [-> | Hne]; simpl.
    + by apply NoDup_cons.
    + apply NoDup_cons. split; [| by apply IH].
      rewrite counter_add_keys. intros [-> | Hin]; done.
Qed.

Lemma occurrences_snoc (px y : pixel) (data : list pixel) :
  occurrences px (data ++ [y])
  = (occurrences px data + if decide (y = px) then 1 else 0)%Z.
Proof.
  unfold occurrences. rewrite filter_app, length_app.
  rewrite filter_cons, filter_nil.
  destruct (decide (y = px)); simpl; lia.
Qed.

(** The counter as a map: a colour is listed exactly when it occurs, with
    the number of its occurrences. *)
Lemma Counter_fold (data seen : list pixel) (c : list (pixel * Z)) :
  NoDup c.*1 →
  (∀ px, (list_to_map c : gmap pixel Z) !! px
         = if decide (0 < occurrences px seen)%Z
           then Some (occurrences px seen) else None) →
  let c' := fold_left (λ c x, genetics.counter_add x c) data c in
  NoDup c'.*1
  ∧ ∀ px, (list_to_map c' : gmap pixel Z) !! px
          = if decide (0 < occurrences px (seen ++ data))%Z
            then Some (occurrences px (seen ++ data)) else None.
Proof.
  revert seen c. induction data as [| y data IH]; intros seen c Hnd Hc; simpl.
  - by rewrite app_nil_r.
  - destruct (IH (seen ++ [y]) (genetics.counter_add y c)) as [Hnd' Hc'].
    + by apply counter_add_NoDup.
    + intros px. rewrite counter_add_map. unfold count_one.
      rewrite occurrences_snoc.
      assert (Hocc : (0 ≤ occurrences px seen)%Z)
        by (unfold occurrences; lia).
      destruct (decide (y = px)) as [-> | Hne].
      * rewrite lookup_insert_eq, Hc.
        destruct (decide (0 < occurrences px seen)%Z);
          destruct (decide _); simpl; try lia; f_equal; lia.
      * rewrite lookup_insert_ne, Hc, Z.add_0_r by done. reflexivity.
    + rewrite <- app_assoc in Hc'. by split.
Qed.

Lemma Counter_spec (data : list pixel) :
  NoDup (genetics.Counter data).*1
  ∧ ∀ px n, (px, n) ∈ genetics.Counter data
            ↔ n = occurrences px data ∧ (0 < n)%Z.
Proof.
  destruct (Counter_fold data [] []) as [Hnd Hc].
  - constructor.
  - intros px. rewrite list_to_map_nil, lookup_empty. reflexivity.
  - fold (genetics.Counter data) in Hnd, Hc. simpl in Hc.
    split; [exact Hnd |]. intros px n.
    rewrite (elem_of_list_to_map (M := gmap pixel)) by exact Hnd.
    rewrite Hc. destruct (decide (0 < occurrences px data)%Z); split.
    + intros [= <-]. done.
    + intros [-> _]. done.
    + discriminate.
    + intros [-> H]. done.
Qed.

Lemma filter_keys_NoDup (P : pixel * Z → Prop) `{!∀ x, Decision (P x)}
    (c : list (pixel * Z)) :
  NoDup c.*1 → NoDup (filter P c).*1.
Proof.
  intros Hnd. eapply sublist_NoDup; [exact Hnd |].
  apply fmap_sublist, sublist_filter.
Qed.

Lemma by_count_perm (c : list (pixel * Z)) : genetics.by_count c ≡ₚ c.
Proof. apply sorted_perm. Qed.

Lemma Zleb_total (x y : Z) : (x <=? y)%Z = false → (y <=? x)%Z = true.
Proof. intros Hxy. apply Z.leb_le. apply Z.leb_gt in Hxy. lia. Qed.

Lemma by_count_Sorted (c : list (pixel * Z)) :
  Sorted (λ a b, (a.2 ≤ b.2)%Z) (genetics.by_count c).
Proof.
  eapply Sorted_ind with (P := Sorted (λ a b : pixel * Z, (a.2 ≤ b.2)%Z));
    [constructor | | apply (sorted_Sorted Z.leb snd Zleb_total)].
  intros a l _ IH Hhd. constructor; [exact IH |].
  destruct Hhd as [| b l Hab]; constructor. by apply Z.leb_le.
Qed.

Lemma color_weights_spec (image : Image) :
  NoDup (genetics.color_weights_of image).*1
  ∧ (∀ px n, (px, n) ∈ genetics.color_weights_of image
             ↔ n = occurrences px (getdata image) ∧ (1 < n)%Z)
  ∧ Sorted (λ a b, (a.2 ≤ b.2)%Z) (genetics.color_weights_of image).
Proof.
  unfold genetics.color_weights_of.
  destruct (Counter_spec (getdata image)) as [Hnd Hc].
  split; [| split].
  - rewrite by_count_perm. by apply filter_keys_NoDup.
  - intros px n. rewrite by_count_perm. unfold genetics.more_than_once.
    rewrite list_elem_of_filter, Hc. simpl. intuition lia.
  - apply by_count_Sorted.
Qed.

(** X5. The colour weights [__init__] computes from an image list every
    colour that occurs more than once in the pixel data, once, with the
    number of its occurrences, in ascending order of that number; a colour
    that occurs only once is not listed. *)
Theorem color_weights_are_repeated_colours (image : Image) :
  NoDup (genetics.color_weights_of image).*1
  ∧ (∀ px n, (px, n) ∈ genetics.color_weights_of image
             ↔ n = occurrences px (getdata image) ∧ (1 < n)%Z)
  ∧ Sorted (λ a b, (a.2 ≤ b.2)%Z) (genetics.color_weights_of image).
Proof. apply color_weights_spec. Qed.

Lemma Sorted_last_greatest (c : list (pixel * Z)) (m a : pixel * Z) :
  Sorted (λ a b, (a.2 ≤ b.2)%Z) c →
  last c = Some m → a ∈ c → (a.2 ≤ m.2)%Z.
Proof.
  intros Hsorted. apply Sorted_StronglySorted in Hsorted;
    [| intros x y z Hxy Hyz; lia].
  induction Hsorted as [| b l Hl IH Hb]; intros Hlast Ha.
  - by apply elem_of_nil in Ha.
  - destruct l as [| b' l'].
    + apply list_elem_of_singleton in Ha as ->.
      simpl in Hlast. injection Hlast as <-. lia.
    + change (last (b :: b' :: l')) with (last (b' :: l')) in Hlast.
      apply elem_of_cons in Ha as [-> | Ha]; [| by apply IH].
      assert (Hm : m ∈ b' :: l').
      { rewrite last_lookup in Hlast. by eapply list_elem_of_lookup_2. }
      by apply (proj1 (Forall_forall _ _) Hb).
Qed.

(** X6. When [__init__] returns, the canvas of the engine is a colour that
    occurs more than once in the image, and no colour of the image occurs
    more often. *)
Theorem init_canvas_most_frequent (ref : string) (image : Image)
    (num_strokes pop_size : Z)
    (mutation_chance fit_percentage lucky_percentage : Q)
    (w : world Painting) :
  ensures
    (genetics.GeneticPainting_init ref image num_strokes pop_size
       mutation_chance fit_percentage lucky_percentage) w
    (λ r _, match r with
            | Ok self =>
                (1 < occurrences (genetics.canvas self) (getdata image))%Z
                ∧ ∀ px, (occurrences px (getdata image)
                         ≤ occurrences (genetics.canvas self)
                             (getdata image))%Z
            | Raise _ => True
            end).
Proof.
  eapply ensures_mono; [apply GeneticPainting_init_spec |].
  intros [self | e] w' Hself; cbv beta in *; [| done].
  destruct Hself as (_ & _ & _ & _ & _ & _ & _ & Hcanvas & _).
  destruct Hcanvas as ([c n] & Hlast & ->). simpl.
  destruct (color_weights_spec image) as (_ & Hlisted & Hsorted).
  assert (Hc : (c, n) ∈ genetics.color_weights_of image).
  { rewrite last_lookup in Hlast. by eapply list_elem_of_lookup_2. }
  apply Hlisted in Hc as [-> Hn]. split; [exact Hn |].
  intros px.
  destruct (decide (1 < occurrences px (getdata image))%Z) as [Hpx | Hpx];
    [| lia].
  apply (Sorted_last_greatest _ _ (px, occurrences px (getdata image))
           Hsorted Hlast).
  by apply Hlisted.
Qed.

(** ** The strokes of a generated painting *)

Lemma pick_below {O} (w : world O) (i n : nat) : 0 < n → pick w i n < n.
Proof.
  intros Hn. unfold pick. pose proof (N.mod_lt (rng w i) (N.of_nat n)). lia.
Qed.

Lemma randint_range {O} (a b v : Z) (w w' : world O) :
  randint a b w = (Ok v, w') → (a ≤ v ≤ b)%Z.
Proof.
  unfold randint. destruct (Z.ltb_spec b a); [discriminate |].
  rewrite bind_run, randbelow_run, ret_run. intros [= <- _].
  pose proof (pick_below w 0 (Z.to_nat (b - a + 1)) ltac:(lia)). lia.
Qed.

Lemma choice_member {O A} (l : list A) (a : A) (w w' : world O) :
  choice l w = (Ok a, w') → a ∈ l.
Proof.
  unfold choice. destruct l as [| a0 l0] eqn:El; [discriminate |].
  rewrite <- El. rewrite bind_run, randbelow_run. unfold index.
  destruct (l !! pick w 0 (length l)) as [a' |] eqn:Ha; [| discriminate].
  intros [= <- _]. by eapply list_elem_of_lookup_2.
Qed.

Lemma floordiv_result {O} (a b q : Z) (w w' : world O) :
  floordiv a b w = (Ok q, w') → b ≠ 0%Z ∧ q = (a `div` b)%Z ∧ w' = w.
Proof.
  unfold floordiv. destruct (Z.eqb_spec b 0); [discriminate |].
  intros [= <- <-]. done.
Qed.

Lemma modulo_result {O} (a b r : Z) (w w' : world O) :
  modulo a b w = (Ok r, w') → b ≠ 0%Z ∧ r = (a `mod` b)%Z ∧ w' = w.
Proof.
  unfold modulo. destruct (Z.eqb_spec b 0); [discriminate |].
  intros [= <- <-]. done.
Qed.

Lemma Color_of_result {O} (px : pixel) (c : Color) (w w' : world O) :
  Color_of (slice_to 3 px) w = (Ok c, w') → first_three_bands px c.
Proof.
  unfold Color_of, first_three_bands.
  change (slice_to 3 px) with (take 3 px).
  destruct (take 3 px) as [| r [| g [| b [| ? ?]]]]; try discriminate.
  intros [= <- _]. by exists r, g, b.
Qed.

Lemma next_listed (self : WeightedRandomColors) (px : pixel)
    (w w' : world Painting) :
  next self w = (Ok px, w') → px ∈ colors self.
Proof.
  unfold next. destruct (random_below_one w) as (n & Hrandom & _).
  rewrite (bind_ok _ _ _ _ _ Hrandom). rewrite bind_run.
  unfold index_last. destruct (last (totals self)); [| discriminate].
  rewrite ret_run. unfold resolve, index.
  destruct (colors self !! _) as [c |] eqn:Hc; [| discriminate].
  intros [= <- _]. by eapply list_elem_of_lookup_2.
Qed.

(** The bind of a computation that has returned. *)
Lemma bind_Ok_inv {O A B} (m : M O A) (f : A → M O B) (w w' : world O)
    (b : B) :
  (m ≫= f) w = (Ok b, w') →
  ∃ a w1, m w = (Ok a, w1) ∧ f a w1 = (Ok b, w').
Proof.
  rewrite bind_run. destruct (m w) as [[a | e] w1]; [| discriminate].
  intros Hf. by exists a, w1.
Qed.

Lemma generate_round_placed (s : strategy) (wd ht num_strokes brush distance
    strokes_per_line stroke_length i : Z) (sampler : WeightedRandomColors)
    (strokes strokes' : list Stroke) (w w' : world Painting) :
  (0 ≤ i < num_strokes)%Z →
  ('(start, end_) ← place_stroke s wd ht brush distance strokes_per_line
                      stroke_length i;
   px ← next sampler;
   color ← Color_of (slice_to 3 px);
   ret (strokes ++ [mkStroke color brush start end_])) w = (Ok strokes', w') →
  ∃ st, strokes' = strokes ++ [st]
        ∧ placed s wd ht num_strokes brush distance strokes_per_line
            stroke_length sampler st.
Proof.
  intros Hi Hrun.
  apply bind_Ok_inv in Hrun as ([start end_] & w1 & Hplace & Hrun).
  apply bind_Ok_inv in Hrun as (px & w2 & Hnext & Hrun).
  apply bind_Ok_inv in Hrun as (c & w3 & Hcolor & Hrun).
  injection Hrun as <- _.
  eexists. split; [reflexivity |]. unfold placed. simpl.
  split; [reflexivity |]. split.
  - exists px. split; [by eapply next_listed | by eapply Color_of_result].
  - by exists i, w, w1.
Qed.

Lemma for_each_Ok_inv {O A B} (I : nat → B → Prop) (xs : list A)
    (body : B → A → M O B) (acc acc' : B) (w w' : world O) :
  I 0 acc →
  (∀ k x acc acc' w1 w2, xs !! k = Some x → I k acc →
     body acc x w1 = (Ok acc', w2) → I (S k) acc') →
  for_each xs body acc w = (Ok acc', w') →
  I (length xs) acc'.
Proof.
  revert I acc w. induction xs as [| x xs IH]; intros I acc w H0 Hstep; simpl.
  - intros [= <- _]. exact H0.
  - intros Hrun. apply bind_Ok_inv in Hrun as (acc1 & w1 & Hx & Hrun).
    apply (IH (λ k, I (S k)) acc1 w1); [| | exact Hrun].
    + by apply (Hstep 0 x acc acc1 w w1).
    + intros k y a a' w2 w3 Hy Hk. by apply (Hstep (S k)).
Qed.

(** What [generate] has drawn and placed when it returns. *)
Lemma generate_placed (ref : string) (image : Image)
    (sampler : WeightedRandomColors) (canvas : pixel) (num_strokes : Z)
    (w w' : world Painting) (l : loc) :
  generate ref image sampler canvas num_strokes w = (Ok l, w') →
  ∃ o s brush distance strokes_per_line stroke_length w0 w1,
    heap w' !! l = Some o
    ∧ first_three_bands canvas (painting.canvas o)
    ∧ s ∈ [Vec HORIZONTAL; Vec VERTICAL; Str RANDOM]
    ∧ (2 ≤ brush ≤ 12)%Z
    ∧ (5 ≤ distance ≤ 200)%Z
    ∧ layout_parameters s (size image).1 (size image).2 num_strokes brush w0
      = (Ok (strokes_per_line, stroke_length), w1)
    ∧ Forall (placed s (size image).1 (size image).2 num_strokes brush
                distance strokes_per_line stroke_length sampler)
        (strokes o).
Proof.
  unfold generate. intros Hrun.
  apply bind_Ok_inv in Hrun as (s & w1 & Hs & Hrun).
  apply bind_Ok_inv in Hrun as (c & w2 & Hc & Hrun).
  apply bind_Ok_inv in Hrun as (brush & w3 & Hbrush & Hrun).
  apply bind_Ok_inv in Hrun as (distance & w4 & Hdistance & Hrun).
  destruct (size image) as [wd ht].
  apply bind_Ok_inv in Hrun as ([spl sl] & w5 & Hlayout & Hrun).
  apply bind_Ok_inv in Hrun as (strokes & w6 & Hloop & Hrun).
  unfold Painting_init in Hrun.
  destruct (alloc_fresh (mkPainting ref c (Z.of_nat (length strokes)) strokes)
              w6) as (l' & Halloc & _).
  rewrite Halloc in Hrun. injection Hrun as <- <-.
  eexists _, s, brush, distance, spl, sl, w4, w5.
  split; [simpl; apply lookup_insert_eq |]. simpl.
  split; [by eapply Color_of_result |].
  split; [by eapply choice_member |].
  split; [by eapply randint_range |].
  split; [by eapply randint_range |].
  split; [exact Hlayout |].
  eapply (for_each_Ok_inv
            (λ _ strokes, Forall (placed s wd ht num_strokes brush distance
                                    spl sl sampler) strokes));
    [| | exact Hloop]; [constructor |].
  intros k i acc acc' wa wb Hi Hacc Hround.
  apply range_lookup in Hi as [-> Hi].
  destruct (generate_round_placed s wd ht num_strokes brush distance spl sl
              (Z.of_nat k) sampler acc acc' wa wb ltac:(lia) Hround)
    as (st & -> & Hst).
  apply Forall_app. split; [exact Hacc | by apply Forall_singleton].
Qed.

(** X9. A painting [generate] returns is painted with one brush: all its
    strokes have the same brush size, a size between 2 and 12. The colour
    of every stroke is made of the first three bands of a colour the
    sampler holds, and the canvas is made of the first three bands of the
    canvas given. *)
Theorem generate_one_brush_sampler_colours (ref : string) (image : Image)
    (sampler : WeightedRandomColors) (canvas : pixel) (num_strokes : Z)
    (w w' : world Painting) (l : loc) :
  generate ref image sampler canvas num_strokes w = (Ok l, w') →
  ∃ o brush,
    heap w' !! l = Some o
    ∧ first_three_bands canvas (painting.canvas o)
    ∧ (2 ≤ brush ≤ 12)%Z
    ∧ Forall (λ st, brush_size st = brush
                    ∧ ∃ px, px ∈ colors sampler
                            ∧ first_three_bands px (color st))
        (strokes o).
Proof.
  intros Hrun.
  destruct (generate_placed _ _ _ _ _ _ _ _ Hrun)
    as (o & s & brush & distance & spl & sl & w0 & w1 & Ho & Hcanvas & _
        & Hbrush & _ & _ & Hplaced).
  exists o, brush. split; [exact Ho |]. split; [exact Hcanvas |].
  split; [exact Hbrush |].
  eapply Forall_impl; [exact Hplaced |].
  intros st (Hst & Hcolor & _). by split.
Qed.

Lemma generate_one_brush_square :
  ∃ o brush,
    heap (generate "1.png" square_image scenario_sampler RED 30
            quiet_world).2 !! 1%positive = Some o
    ∧ first_three_bands RED (painting.canvas o)
    ∧ (2 ≤ brush ≤ 12)%Z
    ∧ Forall (λ st, brush_size st = brush
                    ∧ ∃ px, px ∈ colors scenario_sampler
                            ∧ first_three_bands px (color st))
        (strokes o).
Proof.
  apply (generate_one_brush_sampler_colours "1.png" square_image
           scenario_sampler RED 30 quiet_world).
  vm_compute. reflexivity.
Defined.

Lemma layout_parameters_horizontal (wd ht num_strokes brush spl sl : Z)
    (w w' : world Painting) :
  layout_parameters (Vec HORIZONTAL) wd ht num_strokes brush w
  = (Ok (spl, sl), w') →
  (ht `div` (2 * brush))%Z ≠ 0%Z
  ∧ spl = (num_strokes `div` (ht `div` (2 * brush)))%Z
  ∧ spl ≠ 0%Z
  ∧ sl = Z.max (wd `div` spl - 2 * brush) 0.
Proof.
  unfold layout_parameters.
  destruct (decide (Vec HORIZONTAL = Vec HORIZONTAL)); [| done].
  intros Hrun.
  apply bind_Ok_inv in Hrun as (nl & w1 & Hnl & Hrun).
  apply bind_Ok_inv in Hrun as (spl' & w2 & Hspl & Hrun).
  apply bind_Ok_inv in Hrun as (q & w3 & Hq & Hrun).
  apply floordiv_result in Hnl as (_ & -> & _).
  apply floordiv_result in Hspl as (Hnl & -> & _).
  apply floordiv_result in Hq as (Hspl & -> & _).
  injection Hrun as <- <- _. done.
Qed.

Lemma layout_parameters_vertical (wd ht num_strokes brush spl sl : Z)
    (w w' : world Painting) :
  layout_parameters (Vec VERTICAL) wd ht num_strokes brush w
  = (Ok (spl, sl), w') →
  (wd `div` (2 * brush))%Z ≠ 0%Z
  ∧ spl = (num_strokes `div` (wd `div` (2 * brush)))%Z
  ∧ spl ≠ 0%Z
  ∧ sl = Z.max (ht `div` spl - 2 * brush) 0.
Proof.
  unfold layout_parameters.
  destruct (decide (Vec VERTICAL = Vec HORIZONTAL)); [done |].
  destruct (decide (Vec VERTICAL = Vec VERTICAL)); [| done].
  intros Hrun.
  apply bind_Ok_inv in Hrun as (nl & w1 & Hnl & Hrun).
  apply bind_Ok_inv in Hrun as (spl' & w2 & Hspl & Hrun).
  apply bind_Ok_inv in Hrun as (q & w3 & Hq & Hrun).
  apply floordiv_result in Hnl as (_ & -> & _).
  apply floordiv_result in Hspl as (Hnl & -> & _).
  apply floordiv_result in Hq as (Hspl & -> & _).
  injection Hrun as <- <- _. done.
Qed.

Lemma place_stroke_horizontal (wd ht brush distance spl sl i : Z)
    (start end_ : Vector) (w w' : world Painting) :
  place_stroke (Vec HORIZONTAL) wd ht brush distance spl sl i w
  = (Ok (start, end_), w') →
  start = mkVector (i `mod` spl * sl + brush * (2 * (i `mod` spl) + 1))
            (brush * (2 * (i `div` spl) + 1))
  ∧ end_ = mkVector (x start + sl) (y start).
Proof.
  unfold place_stroke.
  destruct (decide (Vec HORIZONTAL = Vec HORIZONTAL)); [| done].
  intros Hrun.
  apply bind_Ok_inv in Hrun as (mx & w1 & Hmx & Hrun).
  apply bind_Ok_inv in Hrun as (my & w2 & Hmy & Hrun).
  apply modulo_result in Hmx as (_ & -> & _).
  apply floordiv_result in Hmy as (_ & -> & _).
  injection Hrun as <- <- _. split; [reflexivity |].
  unfold Vector_add, scale, HORIZONTAL. simpl. f_equal; lia.
Qed.

Lemma place_stroke_vertical (wd ht brush distance spl sl i : Z)
    (start end_ : Vector) (w w' : world Painting) :
  place_stroke (Vec VERTICAL) wd ht brush distance spl sl i w
  = (Ok (start, end_), w') →
  start = mkVector (brush * (2 * (i `div` spl) + 1))
            (i `mod` spl * sl + brush * (2 * (i `mod` spl) + 1))
  ∧ end_ = mkVector (x start) (y start + sl).
Proof.
  unfold place_stroke.
  destruct (decide (Vec VERTICAL = Vec HORIZONTAL)); [done |].
  destruct (decide (Vec VERTICAL = Vec VERTICAL)); [| done].
  intros Hrun.
  apply bind_Ok_inv in Hrun as (mx & w1 & Hmx & Hrun).
  apply bind_Ok_inv in Hrun as (my & w2 & Hmy & Hrun).
  apply floordiv_result in Hmx as (_ & -> & _).
  apply modulo_result in Hmy as (_ & -> & _).
  injection Hrun as <- <- _. split; [reflexivity |].
  unfold Vector_add, scale, VERTICAL. simpl. f_equal; lia.
Qed.

Lemma place_stroke_random (wd ht brush distance spl sl i : Z)
    (start end_ : Vector) (w w' : world Painting) :
  (0 ≤ distance)%Z →
  place_stroke (Str RANDOM) wd ht brush distance spl sl i w
  = (Ok (start, end_), w') →
  (0 ≤ x start ≤ wd)%Z ∧ (0 ≤ y start ≤ ht)%Z
  ∧ (x end_ ≤ wd)%Z ∧ (y end_ ≤ ht)%Z
  ∧ (Z.abs (x end_ - x start) ≤ distance)%Z
  ∧ (Z.abs (y end_ - y start) ≤ distance)%Z.
Proof.
  intros Hd. unfold place_stroke.
  destruct (decide (Str RANDOM = Vec HORIZONTAL)); [done |].
  destruct (decide (Str RANDOM = Vec VERTICAL)); [done |].
  destruct (decide (Str RANDOM = Str RANDOM)); [| done].
  intros Hrun.
  apply bind_Ok_inv in Hrun as (sx & w1 & Hsx & Hrun).
  apply bind_Ok_inv in Hrun as (sy & w2 & Hsy & Hrun).
  apply bind_Ok_inv in Hrun as (rx & w3 & Hrx & Hrun).
  apply bind_Ok_inv in Hrun as (ry & w4 & Hry & Hrun).
  apply randint_range in Hsx, Hsy, Hrx, Hry.
  injection Hrun as <- <- _. simpl. lia.
Qed.

(** The arithmetic of one tile: index [i] of [n] strokes on lines of
    [spl] strokes, each of length [sl], along a dimension [along]. *)
Lemma tile_bounds (along across n brush spl sl i : Z) :
  (2 ≤ brush)%Z → (0 ≤ across)%Z → (0 ≤ i < n)%Z →
  (across `div` (2 * brush))%Z ≠ 0%Z →
  spl = (n `div` (across `div` (2 * brush)))%Z →
  spl ≠ 0%Z →
  sl = Z.max (along `div` spl - 2 * brush) 0 →
  let first := (i `mod` spl * sl + brush * (2 * (i `mod` spl) + 1))%Z in
  let level := (brush * (2 * (i `div` spl) + 1))%Z in
  (brush ≤ first ≤ first + sl)%Z
  ∧ (brush ≤ level)%Z
  ∧ (sl = 0%Z ∨ (first + sl ≤ along - brush)%Z).
Proof.
  intros Hbrush Hacross Hi Hlines Hspl Hspl0 Hsl first level.
  assert (Hnl : (0 < across `div` (2 * brush))%Z).
  { pose proof (Z.div_pos across (2 * brush) Hacross ltac:(lia)). lia. }
  assert (Hspl1 : (0 < spl)%Z).
  { pose proof (Z.div_pos n (across `div` (2 * brush)) ltac:(lia) Hnl). lia. }
  pose proof (Z.mod_pos_bound i spl Hspl1) as Hmod.
  pose proof (Z.div_pos i spl ltac:(lia) Hspl1) as Hdiv.
  assert (Hsl0 : (0 ≤ sl)%Z) by lia.
  subst first level. split; [nia |]. split; [nia |].
  destruct (Z.max_spec (along `div` spl - 2 * brush) 0) as [[Hlt Hmax] | [Hge Hmax]].
  - left. lia.
  - right. rewrite Hsl, Hmax.
    pose proof (Z.mul_div_le along spl Hspl1) as Hle.
    set (q := (along `div` spl)%Z) in *. set (m := (i `mod` spl)%Z) in *.
    assert ((m + 1) * q ≤ spl * q)%Z by nia. nia.
Qed.

(** X10. The strokes of a painting [generate] returns for an image of
    width [wd] and height [ht] all follow the one layout drawn. Either
    all are level, run from left to right at least a brush size from the
    left and the top edge, and end at least a brush size before the right
    edge unless they are a single point; or the same holds from top to
    bottom; or all start inside the image, and end no further right or
    down than the image goes and within 200 of their start along each
    axis (the end may lie left of or above the image). *)
Theorem generate_strokes_follow_layout (ref : string) (image : Image)
    (sampler : WeightedRandomColors) (canvas : pixel) (num_strokes : Z)
    (w w' : world Painting) (l : loc) :
  (0 ≤ (size image).1)%Z →
  (0 ≤ (size image).2)%Z →
  generate ref image sampler canvas num_strokes w = (Ok l, w') →
  ∃ o,
    heap w' !! l = Some o
    ∧ (Forall (horizontal_stroke (size image).1) (strokes o)
       ∨ Forall (vertical_stroke (size image).2) (strokes o)
       ∨ Forall (scattered_stroke (size image).1 (size image).2)
           (strokes o)).
Proof.
  intros Hwd Hht Hrun.
  destruct (generate_placed _ _ _ _ _ _ _ _ Hrun)
    as (o & s & brush & distance & spl & sl & w0 & w1 & Ho & _ & Hs
        & Hbrush & Hdistance & Hlayout & Hplaced).
  exists o. split; [exact Ho |].
  destruct (size image) as [wd ht]. simpl in *.
  apply elem_of_cons in Hs as [-> | Hs];
    [| apply elem_of_cons in Hs as [-> | Hs];
       [| apply list_elem_of_singleton in Hs as ->]].
  - left. apply layout_parameters_horizontal in Hlayout
      as (Hlines & Hspl & Hspl0 & Hsl).
    eapply Forall_impl; [exact Hplaced |].
    intros st (Hst & _ & i & wa & wb & Hi & Hplace).
    apply place_stroke_horizontal in Hplace as [Hstart Hend].
    destruct (tile_bounds wd ht num_strokes brush spl sl i)
      as (Hfirst & Hlevel & Hright); try done; try lia.
    unfold horizontal_stroke. rewrite Hst, Hend, Hstart. simpl.
    split; [reflexivity |]. split; [lia |]. split; [lia |].
    destruct Hright as [-> | Hright]; [left; f_equal; lia | right; lia].
  - right. left. apply layout_parameters_vertical in Hlayout
      as (Hlines & Hspl & Hspl0 & Hsl).
    eapply Forall_impl; [exact Hplaced |].
    intros st (Hst & _ & i & wa & wb & Hi & Hplace).
    apply place_stroke_vertical in Hplace as [Hstart Hend].
    destruct (tile_bounds ht wd num_strokes brush spl sl i)
      as (Hfirst & Hlevel & Hright); try done; try lia.
    unfold vertical_stroke. rewrite Hst, Hend, Hstart. simpl.
    split; [reflexivity |]. split; [lia |]. split; [lia |].
    destruct Hright as [-> | Hright]; [left; f_equal; lia | right; lia].
  - right. right.
    eapply Forall_impl; [exact Hplaced |].
    intros st (Hst & _ & i & wa & wb & Hi & Hplace).
    apply place_stroke_random in Hplace; [| lia].
    unfold scattered_stroke. lia.
Qed.

Lemma generate_strokes_follow_layout_square :
  ∃ o,
    heap (generate "1.png" square_image scenario_sampler RED 30
            quiet_world).2 !! 1%positive = Some o
    ∧ (Forall (horizontal_stroke (size square_image).1) (strokes o)
       ∨ Forall (vertical_stroke (size square_image).2) (strokes o)
       ∨ Forall (scattered_stroke (size square_image).1
                   (size square_image).2) (strokes o)).
Proof.
  apply (generate_strokes_follow_layout "1.png" square_image
           scenario_sampler RED 30 quiet_world).
  - vm_compute. discriminate.
  - vm_compute. discriminate.
  - vm_compute. reflexivity.
Defined.

(** ** Generation, once more *)

(** X7. [generate] either returns one new painting and changes nothing
    else, or raises and changes nothing at all. The painting returned is
    at a reference that was not in use; it has exactly [num_strokes]
    strokes (none when [num_strokes] is negative), its [num_strokes]
    attribute counts them, and it carries the reference identifier
    given. *)
Theorem generate_one_new_painting (ref : string) (image : Image)
    (color_generator : WeightedRandomColors) (canvas : pixel)
    (num_strokes : Z) (w : world Painting) :
  ensures (generate ref image color_generator canvas num_strokes) w
    (λ r w', match r with
             | Ok l =>
                 heap w !! l = None
                 ∧ ∃ o, heap w' = <[l := o]> (heap w)
                        ∧ length (strokes o) = Z.to_nat num_strokes
                        ∧ well_formed o
                        ∧ painting.ref o = ref
             | Raise _ => heap w' = heap w
             end).
Proof. apply generate_stroke_count. Qed.

(** X8. [generate] raises [ZeroDivisionError], after three draws, whenever
    the layout drawn is HORIZONTAL or VERTICAL and the image has more
    lines of the brush size drawn (rows of height, or columns of width,
    [2 * brush_size]) than there are strokes to place: no stroke fits on a
    line, and the division by [strokes_per_line] fails. *)
Theorem generate_fewer_strokes_than_lines (ref : string) (image : Image)
    (color_generator : WeightedRandomColors) (canvas : pixel)
    (num_strokes : Z) (w : world Painting) :
  pick w 0 3 < 2 →
  3 ≤ length canvas →
  let brush_size := (2 + Z.of_nat (pick w 1 11))%Z in
  let perpendicular :=
    if decide (pick w 0 3 = 0) then (size image).2 else (size image).1 in
  (0 ≤ num_strokes < perpendicular `div` (2 * brush_size))%Z →
  generate ref image color_generator canvas num_strokes w
  = (Raise ZeroDivisionError, drawn (drawn (drawn w))).
Proof. apply generate_zero_division. Qed.

Lemma generate_fewer_strokes_than_lines_columns :
  generate "1.png" square_image scenario_sampler RED 3
    (World (λ n, N.of_nat (n * 9 + 1)) ∅)
  = (Raise ZeroDivisionError,
     drawn (drawn (drawn (World (λ n, N.of_nat (n * 9 + 1)) ∅)))).
Proof.
  apply (generate_fewer_strokes_than_lines "1.png" square_image
           scenario_sampler RED 3 (World (λ n, N.of_nat (n * 9 + 1)) ∅)).
  - vm_compute. lia.
  - simpl. lia.
  - vm_compute. split; [discriminate | reflexivity].
Defined.

(** ** Recombination, once more *)

(** X11. A painting bred with itself gives a copy: the child is a new
    object with the reference identifier, the canvas, the stroke count and
    the very stroke sequence of its one parent. *)
Theorem Painting_mul_self_is_a_copy (a : loc) (o : Painting)
    (w : world Painting) :
  genome w a o →
  ∃ child w',
    Painting_mul a a w = (Ok child, w')
    ∧ heap w !! child = None
    ∧ heap w' = <[child := o]> (heap w).
Proof.
  intros [Ha Hwf].
  destruct (Painting_mul_returns a a o o w Ha Ha Hwf ltac:(lia))
    as (child & w' & Hrun & o' & Hfresh & Hheap & Href & Hcanvas & Hnum
        & Hcount & Hat).
  exists child, w'. split; [exact Hrun |]. split; [exact Hfresh |].
  rewrite Hheap. f_equal.
  assert (Hstrokes : strokes o' = strokes o).
  { apply list_eq_same_length with (length (strokes o)); [done | done |].
    intros i s s' Hi Hs Hs'. destruct (Hat i s Hs) as [H | H]; congruence. }
  destruct o' as [r' c' n' s'], o as [r c n s]. simpl in *.
  unfold well_formed in Hwf. simpl in Hwf.
  f_equal; [done | by destruct Hcanvas | congruence | done].
Qed.

Lemma Painting_mul_self_is_a_copy_atelier :
  ∃ child w',
    Painting_mul 2%positive 2%positive atelier = (Ok child, w')
    ∧ heap atelier !! child = None
    ∧ heap w' = <[child := blue_painting]> (heap atelier).
Proof.
  apply (Painting_mul_self_is_a_copy 2%positive blue_painting atelier).
  split; reflexivity.
Defined.

(** ** The population, once more *)

(** X12. [create_population] makes [pop_size] paintings (none when
    [pop_size] is negative), assigns them to the engine as its population
    and returns them. They are different objects, none of which existed
    before, each a painting of [num_strokes] strokes; every object that
    existed is what it was, also when a generation fails and the call
    raises. *)
Theorem create_population_new_paintings (self : genetics.GeneticPainting)
    (w : world Painting) :
  ensures (genetics.create_population self) w
    (λ r w', match r with
             | Ok (population, self') =>
                 self' = genetics.set_population population self
                 ∧ heap_extended w w'
                 ∧ length population = Z.to_nat (genetics.pop_size self)
                 ∧ NoDup population
                 ∧ uniform w' (Z.to_nat (genetics.num_strokes self)) population
                 ∧ Forall (λ l, heap w !! l = None) population
             | Raise _ => heap_extended w w'
             end).
Proof. apply create_population_spec. Qed.


(** A construction that returns: two paintings of thirty strokes on the
    100 by 100 image, with red, the most frequent colour, as canvas. *)
Lemma init_square_image :
  match (genetics.GeneticPainting_init "1.png" square_image 30 2 (1 # 10)
           (1 # 2) (1 # 2) quiet_world).1 with
  | Ok self =>
      genetics.canvas self = RED
      ∧ genetics.population self = [1; 2]%positive
      ∧ genetics.lucky_few self = 1%Z
      ∧ genetics.num_children self = 1%Z
  | Raise _ => False
  end.
Proof. vm_compute. repeat split. Qed.

(** The sizes [__init__] derives are those of Python's floats. With 10
    paintings and a lucky percentage of 0.1 the float product is 1.0 and
    one painting is lucky, where the exact product of 10 and the float 0.1
    is above 1; with 25 paintings and 0.28 the float product is above 7
    and 8 are lucky, where [25 * 28 / 100] is 7; with 1000 paintings and
    0.05 the float product is 50.0, where the exact product of 1000 and
    the float 0.05 is above 50. *)
Lemma init_sizes_of_the_float_products :
  match (genetics.GeneticPainting_init "1.png" square_image 30 10 (1 # 10)
           (7 # 10) (1 # 10) quiet_world).1 with
  | Ok self =>
      genetics.lucky_few self = 1%Z
      ∧ genetics.num_children self = 1%Z
      ∧ genetics.winners self = 7%Z
  | Raise _ => False
  end
  ∧ Qceiling (inject_Z 10 * round64 (1 # 10)) = 2%Z
  ∧ match (genetics.GeneticPainting_init "1.png" square_image 30 25 (1 # 10)
             (1 # 5) (7 # 25) quiet_world).1 with
    | Ok self =>
        genetics.lucky_few self = 8%Z ∧ genetics.num_children self = 1%Z
    | Raise _ => False
    end
  ∧ Qceiling (inject_Z 25 * (7 # 25)) = 7%Z
  ∧ Qceiling (float_mul (float_of_int 1000) (1 # 20)) = 50%Z
  ∧ Qceiling (inject_Z 1000 * round64 (1 # 20)) = 51%Z.
Proof. vm_compute. repeat split. Qed.

(** ** Scoring *)

(** X14. With a scoring function that returns on every painting,
    [score_population] returns one scored entry per painting of the
    population, in population order: entry [k] holds painting [k], the
    generation id [k + 1], and a score the scoring function returned for
    that id and that painting. *)
Theorem score_population_in_order (self : genetics.GeneticPainting)
    (score_func : genetics.GeneticPainting → Z → loc → P Q)
    (w : world Painting) :
  (∀ i painting w, ∃ score w',
     score_func self i painting w = (Ok score, w')) →
  ∃ scored w',
    genetics.score_population self score_func w = (Ok scored, w')
    ∧ genetics.painting <$> scored = genetics.population self
    ∧ genetics.gen_id <$> scored
      = (λ k, Z.of_nat k + 1)%Z <$> seq 0 (length (genetics.population self))
    ∧ Forall (λ sp, ∃ wa wb,
                score_func self (genetics.gen_id sp) (genetics.painting sp) wa
                = (Ok (genetics.score sp), wb))
        scored.
Proof.
  intros Hscorer. unfold genetics.score_population.
  set (xs := imap (λ i painting, (Z.of_nat i, painting))
               (genetics.population self)).
  destruct (for_each_returns
              (λ k scored _,
                 genetics.painting <$> scored
                 = take k (genetics.population self)
                 ∧ genetics.gen_id <$> scored
                   = (λ k, Z.of_nat k + 1)%Z <$> seq 0 k
                 ∧ Forall (λ sp, ∃ wa wb,
                             score_func self (genetics.gen_id sp)
                               (genetics.painting sp) wa
                             = (Ok (genetics.score sp), wb))
                     scored)
              xs
              (λ scored '(i, painting),
                 score ← score_func self (i + 1)%Z painting;
                 ret (scored ++ [genetics.mkScoredPainting score painting
                                   (i + 1)%Z]))
              [] w)
    as (scored & w' & Hrun & Hpaintings & Hids & Hscores).
  - split; [by rewrite take_0 |]. split; [reflexivity | constructor].
  - intros k [i painting] scored w1 Hk (Hpaintings & Hids & Hscores).
    subst xs. rewrite list_lookup_imap in Hk.
    destruct (genetics.population self !! k) as [p |] eqn:Hp;
      [| discriminate].
    injection Hk as <- <-.
    destruct (Hscorer (Z.of_nat k + 1)%Z p w1) as (score & w2 & Hscore).
    apply returns_bind. exists score, w2. split; [exact Hscore |].
    apply returns_ret. split; [| split].
    + rewrite fmap_app, Hpaintings. simpl.
      by rewrite (take_S_r _ _ p).
    + rewrite fmap_app, Hids, seq_S, fmap_app. reflexivity.
    + apply Forall_app. split; [exact Hscores |].
      apply Forall_singleton. by exists w1, w2.
  - exists scored, w'. split; [exact Hrun |].
    subst xs. rewrite length_imap in *.
    rewrite firstn_all in Hpaintings. done.
Qed.

Lemma score_population_in_order_atelier :
  ∃ scored w',
    genetics.score_population (engine 4 (1 # 2) 1 1 [1; 2; 3; 4]%positive)
      (λ _ i _, ret (inject_Z i)) atelier = (Ok scored, w')
    ∧ genetics.painting <$> scored
      = genetics.population (engine 4 (1 # 2) 1 1 [1; 2; 3; 4]%positive)
    ∧ genetics.gen_id <$> scored
      = (λ k, Z.of_nat k + 1)%Z
          <$> seq 0 (length (genetics.population
                               (engine 4 (1 # 2) 1 1 [1; 2; 3; 4]%positive)))
    ∧ Forall (λ sp, ∃ wa wb,
                (λ _ i _, ret (inject_Z i) : P Q)
                  (engine 4 (1 # 2) 1 1 [1; 2; 3; 4]%positive)
                  (genetics.gen_id sp) (genetics.painting sp) wa
                = (Ok (genetics.score sp), wb))
        scored.
Proof.
  apply (score_population_in_order
           (engine 4 (1 # 2) 1 1 [1; 2; 3; 4]%positive)
           (λ _ i _, ret (inject_Z i)) atelier).
  intros i painting w. by exists (inject_Z i), w.
Defined.

(** ** Selection, once more *)

Lemma cull_survivors_run (self : genetics.GeneticPainting)
    (scored_generation : list genetics.ScoredPainting) (w : world Painting) :
  (0 < genetics.winners self)%Z →
  (genetics.winners self ≤ Z.of_nat (length scored_generation))%Z →
  (0 ≤ genetics.lucky_few self ≤ genetics.winners self)%Z →
  let winners := Z.to_nat (genetics.winners self) in
  let sorted_pop := genetics.by_score scored_generation in
  ∃ additions rest w',
    genetics.cull_the_herd self scored_generation genetics.SURVIVORS w
    = (Ok (genetics.painting
             <$> (drop (length sorted_pop - winners) sorted_pop ++ additions)),
       w')
    ∧ additions ++ rest ≡ₚ take winners sorted_pop
    ∧ Z.of_nat (length additions) = genetics.lucky_few self
    ∧ heap w' = heap w.
Proof.
  intros Hwin Hscored Hlucky. cbv zeta.
  pose proof (by_score_perm scored_generation) as Hperm.
  assert (Hlen : length (genetics.by_score scored_generation)
                 = length scored_generation) by (by rewrite Hperm).
  unfold genetics.cull_the_herd.
  destruct (decide (genetics.SURVIVORS = genetics.SURVIVORS)); [| done].
  unfold slice_from, slice_to.
  destruct (Z.leb_spec 0 (- genetics.winners self)); [lia |].
  destruct (Z.leb_spec 0 (genetics.winners self)); [| lia].
  rewrite Z.opp_involutive.
  destruct (sample_returns
              (take (Z.to_nat (genetics.winners self))
                 (genetics.by_score scored_generation))
              (genetics.lucky_few self) w)
    as (additions & w' & Hrun & Hcount & [rest Hrest] & Hheap).
  { rewrite length_take, Hlen. lia. }
  exists additions, rest, w'.
  split; [by rewrite (bind_ok _ _ _ _ _ Hrun) |]. auto.
Qed.

Lemma by_score_StronglySorted (scored : list genetics.ScoredPainting) :
  StronglySorted (λ a b, (genetics.score a <= genetics.score b)%Q)
    (genetics.by_score scored).
Proof.
  apply Sorted_StronglySorted; [| apply by_score_Sorted].
  intros a b c Hab Hbc. by eapply Qle_trans.
Qed.

(** X15. Under the bounds of selection (at least one winner, no more
    winners than scored entries, no more lucky ones than winners),
    [cull_the_herd] with strategy SURVIVORS keeps the best: the scored
    generation splits into [winners] fit entries and the entries left
    out, no entry left out scores higher than a fit one, and the result
    is the paintings of the fit entries followed by those of the lucky
    ones, which are entries of the scored generation too. *)
Theorem cull_the_herd_keeps_the_best (self : genetics.GeneticPainting)
    (scored_generation : list genetics.ScoredPainting) (w : world Painting) :
  (0 < genetics.winners self)%Z →
  (genetics.winners self ≤ Z.of_nat (length scored_generation))%Z →
  (0 ≤ genetics.lucky_few self ≤ genetics.winners self)%Z →
  ∃ fit left_out lucky w',
    genetics.cull_the_herd self scored_generation genetics.SURVIVORS w
    = (Ok (genetics.painting <$> (fit ++ lucky)), w')
    ∧ Z.of_nat (length fit) = genetics.winners self
    ∧ left_out ++ fit ≡ₚ scored_generation
    ∧ (∀ a b, a ∈ fit → b ∈ left_out →
              (genetics.score b <= genetics.score a)%Q)
    ∧ ∀ a, a ∈ lucky → a ∈ scored_generation.
Proof.
  intros Hwin Hscored Hlucky.
  destruct (cull_survivors_run self scored_generation w Hwin Hscored Hlucky)
    as (additions & rest & w' & Hrun & Hrest & _ & _).
  pose proof (by_score_perm scored_generation) as Hperm.
  assert (Hlen : length (genetics.by_score scored_generation)
                 = length scored_generation) by (by rewrite Hperm).
  set (sorted_pop := genetics.by_score scored_generation) in *.
  set (n := length sorted_pop - Z.to_nat (genetics.winners self)) in *.
  exists (drop n sorted_pop), (take n sorted_pop), additions, w'.
  split; [exact Hrun |].
  split; [rewrite length_drop; subst n; lia |].
  split; [by rewrite take_drop |].
  split.
  - intros a b Ha Hb.
    apply (StronglySorted_app_1_elem_of
             (λ a b, (genetics.score a <= genetics.score b)%Q)
             (take n sorted_pop) (drop n sorted_pop)); [| done | done].
    rewrite take_drop. apply by_score_StronglySorted.
  - intros a Ha. rewrite <- Hperm.
    assert (Hin : a ∈ take (Z.to_nat (genetics.winners self)) sorted_pop).
    { rewrite <- Hrest. apply elem_of_app. by left. }
    apply elem_of_take in Hin as (i & Hi & _).
    by eapply list_elem_of_lookup_2.
Qed.

Lemma cull_the_herd_keeps_the_best_atelier :
  ∃ fit left_out lucky w',
    genetics.cull_the_herd (engine 4 (1 # 2) 1 1 [1; 2; 3; 4]%positive)
      scored_atelier genetics.SURVIVORS atelier
    = (Ok (genetics.painting <$> (fit ++ lucky)), w')
    ∧ Z.of_nat (length fit)
      = genetics.winners (engine 4 (1 # 2) 1 1 [1; 2; 3; 4]%positive)
    ∧ left_out ++ fit ≡ₚ scored_atelier
    ∧ (∀ a b, a ∈ fit → b ∈ left_out →
              (genetics.score b <= genetics.score a)%Q)
    ∧ ∀ a, a ∈ lucky → a ∈ scored_atelier.
Proof.
  apply (cull_the_herd_keeps_the_best
           (engine 4 (1 # 2) 1 1 [1; 2; 3; 4]%positive) scored_atelier atelier).
  - reflexivity.
  - vm_compute. discriminate.
  - split; vm_compute; discriminate.
Defined.

(** X16. When the winners are at most half of the scored entries, and the
    scored entries are of different paintings, [cull_the_herd] with
    strategy SURVIVORS never returns a painting twice: the lucky ones come
    from the lowest [winners] entries, which then share nothing with the
    fit ones. *)
Theorem cull_the_herd_no_painting_twice (self : genetics.GeneticPainting)
    (scored_generation : list genetics.ScoredPainting) (w : world Painting) :
  (0 < genetics.winners self)%Z →
  (2 * genetics.winners self ≤ Z.of_nat (length scored_generation))%Z →
  (0 ≤ genetics.lucky_few self ≤ genetics.winners self)%Z →
  NoDup (genetics.painting <$> scored_generation) →
  ∃ survivors w',
    genetics.cull_the_herd self scored_generation genetics.SURVIVORS w
    = (Ok survivors, w')
    ∧ NoDup survivors.
Proof.
  intros Hwin Hhalf Hlucky Hnd.
  destruct (cull_survivors_run self scored_generation w Hwin ltac:(lia)
              Hlucky)
    as (additions & rest & w' & Hrun & Hrest & _ & _).
  pose proof (by_score_perm scored_generation) as Hperm.
  assert (Hlen : length (genetics.by_score scored_generation)
                 = length scored_generation) by (by rewrite Hperm).
  set (sorted_pop := genetics.by_score scored_generation) in *.
  set (k := Z.to_nat (genetics.winners self)) in *.
  eexists _, w'. split; [exact Hrun |].
  assert (Hsplit : sorted_pop
                   ≡ₚ (drop (length sorted_pop - k) sorted_pop ++ additions)
                      ++ (rest
                          ++ take (length sorted_pop - k - k)
                               (drop k sorted_pop))).
  { rewrite <- (take_drop k sorted_pop) at 1.
    rewrite <- Hrest.
    rewrite <- (take_drop (length sorted_pop - k - k) (drop k sorted_pop))
      at 1.
    rewrite drop_drop.
    replace (k + (length sorted_pop - k - k)) with (length sorted_pop - k)
      by lia.
    solve_Permutation. }
  rewrite <- Hperm, Hsplit, fmap_app in Hnd.
  by apply NoDup_app in Hnd as [Hnd _].
Qed.

Lemma cull_the_herd_no_painting_twice_atelier :
  ∃ survivors w',
    genetics.cull_the_herd (engine 4 (1 # 2) 1 1 [1; 2; 3; 4]%positive)
      scored_atelier genetics.SURVIVORS atelier
    = (Ok survivors, w')
    ∧ NoDup survivors.
Proof.
  apply (cull_the_herd_no_painting_twice
           (engine 4 (1 # 2) 1 1 [1; 2; 3; 4]%positive) scored_atelier atelier).
  - reflexivity.
  - vm_compute. discriminate.
  - split; vm_compute; discriminate.
  - apply (bool_decide_unpack _). vm_compute. exact I.
Defined.

(** With three winners out of four the lowest three entries and the top
    three overlap, and the lucky one can be a fit one: here the green
    painting survives twice. *)
Lemma cull_the_herd_painting_twice :
  (genetics.cull_the_herd (engine 4 (3 # 4) 1 1 [1; 2; 3; 4]%positive)
     scored_atelier genetics.SURVIVORS (World (λ _, 1%N) (heap atelier))).1
  = Ok [3; 4; 2; 3]%positive.
Proof. reflexivity. Qed.

(** X17. When [pop_size * fit_percentage] is below one there is no winner,
    and the slice [sorted_pop[-0:]] is the whole list: with no lucky ones
    to add, [cull_the_herd] returns every painting of the scored
    generation, in ascending order of score; with lucky ones to add,
    strategy SURVIVORS has nothing to draw them from and raises
    [ValueError]. *)
Theorem cull_the_herd_without_winners (self : genetics.GeneticPainting)
    (scored_generation : list genetics.ScoredPainting) (w : world Painting) :
  genetics.winners self = 0%Z →
  (genetics.lucky_few self = 0%Z →
   genetics.cull_the_herd self scored_generation genetics.SURVIVORS w
   = (Ok (genetics.painting <$> genetics.by_score scored_generation), w))
  ∧ ((0 < genetics.lucky_few self)%Z →
     genetics.cull_the_herd self scored_generation genetics.SURVIVORS w
     = (Raise ValueError, w)).
Proof.
  intros Hwin. unfold genetics.cull_the_herd. rewrite Hwin.
  destruct (decide (genetics.SURVIVORS = genetics.SURVIVORS)); [| done].
  change (slice_from (- 0) (genetics.by_score scored_generation))
    with (genetics.by_score scored_generation).
  change (slice_to 0 (genetics.by_score scored_generation))
    with (@nil genetics.ScoredPainting).
  split.
  - intros ->. rewrite bind_run. simpl. by rewrite app_nil_r.
  - intros Hlucky. apply bind_raise. apply sample_too_many. simpl. lia.
Qed.

Lemma cull_the_herd_without_winners_atelier :
  (genetics.lucky_few (engine 4 (1 # 8) 0 1 [1; 2; 3; 4]%positive) = 0%Z →
   genetics.cull_the_herd (engine 4 (1 # 8) 0 1 [1; 2; 3; 4]%positive)
     scored_atelier genetics.SURVIVORS atelier
   = (Ok (genetics.painting <$> genetics.by_score scored_atelier), atelier))
  ∧ ((0 < genetics.lucky_few (engine 4 (1 # 8) 0 1 [1; 2; 3; 4]%positive))%Z →
     genetics.cull_the_herd (engine 4 (1 # 8) 0 1 [1; 2; 3; 4]%positive)
       scored_atelier genetics.SURVIVORS atelier
     = (Raise ValueError, atelier)).
Proof.
  apply (cull_the_herd_without_winners
           (engine 4 (1 # 8) 0 1 [1; 2; 3; 4]%positive) scored_atelier atelier).
  reflexivity.
Defined.

(** X18. [cull_the_herd] with strategy RANDOM returns, when all its
    generations succeed, the paintings of the last [winners] entries of
    the sorted generation followed by [lucky_few] newly generated
    paintings: different objects, none of which existed before, of
    [num_strokes] strokes each. Objects that existed are untouched,
    whatever the outcome. *)
Theorem cull_the_herd_random_newcomers (self : genetics.GeneticPainting)
    (scored_generation : list genetics.ScoredPainting) (w : world Painting) :
  ensures
    (genetics.cull_the_herd self scored_generation genetics.RANDOM) w
    (λ r w', match r with
             | Ok survivors =>
                 ∃ newcomers,
                   survivors
                   = (genetics.painting
                        <$> slice_from (- genetics.winners self)
                              (genetics.by_score scored_generation))
                     ++ newcomers
                   ∧ length newcomers = Z.to_nat (genetics.lucky_few self)
                   ∧ NoDup newcomers
                   ∧ Forall (λ l, heap w !! l = None) newcomers
                   ∧ uniform w' (Z.to_nat (genetics.num_strokes self))
                       newcomers
                   ∧ heap_extended w w'
             | Raise _ => heap_extended w w'
             end).
Proof.
  unfold genetics.cull_the_herd.
  destruct (decide (genetics.RANDOM = genetics.SURVIVORS)) as [Heq | _];
    [done |].
  destruct (decide (genetics.RANDOM = genetics.RANDOM)) as [_ | Hne];
    [| done].
  apply ensures_bind.
  eapply ensures_mono.
  { apply (for_each_ensures
             (λ k additions w',
                heap_extended w w'
                ∧ length additions = k
                ∧ NoDup (genetics.painting <$> additions)
                ∧ uniform w' (Z.to_nat (genetics.num_strokes self))
                    (genetics.painting <$> additions)
                ∧ Forall (λ l, heap w !! l = None)
                    (genetics.painting <$> additions))
             (heap_extended w)).
    - split; [reflexivity |]. split; [reflexivity |].
      split; [constructor |]. split; constructor.
    - intros k i additions w1 _ (H1 & Hlen & Hnd & Huni & Hnew).
      apply ensures_bind. unfold genetics._generate_painting.
      eapply ensures_mono; [apply generate_stroke_count |].
      intros [l | err] w2 H2; cbv beta in *.
      + destruct H2 as (Hfresh & o & Hheap & Hcount & Hwf & _).
        assert (H12 : heap_extended w1 w2).
        { unfold heap_extended. rewrite Hheap. by apply insert_subseteq. }
        unfold ensures. simpl. rewrite !fmap_app. simpl.
        split; [by etrans |].
        split; [rewrite length_app; simpl; lia |].
        split; [| split].
        * apply NoDup_app. split; [exact Hnd |].
          split; [| apply NoDup_singleton].
          intros l' Hl' Hin. apply list_elem_of_singleton in Hin as ->.
          destruct (proj1 (Forall_forall _ _) Huni l Hl')
            as (o' & [Ho' _] & _).
          congruence.
        * apply Forall_app. split; [by eapply uniform_mono |].
          apply Forall_singleton. exists o.
          split; [split; [rewrite Hheap; apply lookup_insert_eq | exact Hwf]
                 | exact Hcount].
        * apply Forall_app. split; [exact Hnew |].
          apply Forall_singleton. by eapply lookup_weaken_None.
      + unfold heap_extended, same_heap in *. rewrite H2. exact H1. }
  intros [additions | err] w' H'; cbv beta in *; [| exact H'].
  destruct H' as (Hext & Hlen & Hnd & Huni & Hnew).
  unfold ensures. simpl. rewrite range_length in Hlen.
  exists (genetics.painting <$> additions).
  split; [by rewrite fmap_app |].
  split; [by rewrite length_fmap |]. auto.
Qed.

(** A run of strategy RANDOM in the atelier, with two winners and one
    newcomer: the paintings at 4 and 2 score best, and the newcomer is
    generated at the first free reference. *)
Lemma cull_the_herd_random_atelier :
  (genetics.cull_the_herd (engine 4 (1 # 2) 1 3 [1; 2; 3; 4]%positive)
     scored_atelier genetics.RANDOM atelier).1
  = Ok [4; 2; 5]%positive.
Proof. vm_compute. reflexivity. Qed.

(** ** Breeding, once more *)

(** X19. With fewer than two breeders and a population to fill, [breed]
    cannot pair anyone off: with strategy SPAN as with strategy RANDOM it
    raises the [ValueError] of [random.sample], before any draw, and the
    engine and the world are what they were. *)
Theorem breed_needs_two_breeders (self : genetics.GeneticPainting)
    (breeders : list loc) (strategy : string) (w : world Painting) :
  strategy = genetics.SPAN ∨ strategy = genetics.RANDOM →
  length breeders < 2 →
  (0 < genetics.pop_size self)%Z →
  genetics.breed self breeders strategy w = (Raise ValueError, self, w).
Proof.
  intros Hstrategy Hlen Hpop.
  assert (Hfill : genetics.fill_up self breeders [] w = (Raise ValueError, w)).
  { unfold genetics.fill_up. simpl length.
    replace (Z.to_nat (genetics.pop_size self - Z.of_nat 0))
      with (S (Z.to_nat (genetics.pop_size self - 1))) by lia.
    simpl genetics.fill. apply bind_raise.
    unfold genetics.pair_off. apply bind_raise, sample_too_many. lia. }
  assert (Hnext : genetics.next_generation_of self breeders strategy w
                  = (Raise ValueError, w)).
  { unfold genetics.next_generation_of.
    destruct (decide (strategy = genetics.RANDOM)) as [_ | Hnot];
      [exact Hfill |].
    destruct Hstrategy as [-> | ->]; [| done].
    destruct (decide (genetics.SPAN = genetics.SPAN)) as [_ | Hne]; [| done].
    assert (Hpairs : genetics.span_pairs self breeders w = (Ok [], w)).
    { unfold genetics.span_pairs.
      destruct breeders as [| a [| b l]]; [reflexivity | reflexivity |].
      simpl in Hlen. lia. }
    rewrite (bind_ok _ _ _ _ _ Hpairs). by apply bind_raise. }
  unfold genetics.breed. by rewrite Hnext.
Qed.

Lemma breed_needs_two_breeders_atelier :
  genetics.breed (engine 10 (1 # 5) 1 3 [1; 2; 3; 4]%positive) [1]%positive
    genetics.SPAN atelier
  = (Raise ValueError, engine 10 (1 # 5) 1 3 [1; 2; 3; 4]%positive, atelier).
Proof.
  apply (breed_needs_two_breeders
           (engine 10 (1 # 5) 1 3 [1; 2; 3; 4]%positive) [1]%positive
           genetics.SPAN atelier).
  - left. reflexivity.
  - simpl. lia.
  - reflexivity.
Defined.

(** ** Mutation, once more *)

Lemma fires_never (mutation_chance : Q) (w : world Painting) :
  (mutation_chance <= 0)%Q → fires mutation_chance w = false.
Proof.
  intros Hchance. unfold fires.
  destruct (random_below_one w) as (n & -> & Hn). simpl.
  apply negb_false_iff, Qle_bool_iff.
  eapply Qle_trans; [exact Hchance |].
  unfold Qle. simpl. lia.
Qed.

Lemma mutate_one_quiet_roll (mutation_chance : Q) (painting : loc)
    (w : world Painting) :
  fires mutation_chance w = false →
  genetics.mutate_one mutation_chance () painting w = (Ok (), drawn w).
Proof.
  unfold fires, genetics.mutate_one.
  destruct (random_below_one w) as (n & Hrandom & _).
  rewrite (bind_ok _ _ _ _ _ Hrandom), Hrandom. simpl.
  intros ->. reflexivity.
Qed.

(** X20. With a mutation chance of zero (or below) no roll fires:
    [mutate] returns, having taken one number off the tape per painting,
    and the heap is exactly what it was. *)
Theorem mutate_chance_zero (self : genetics.GeneticPainting)
    (w : world Painting) :
  (genetics.mutation_chance self <= 0)%Q →
  ∃ w', genetics.mutate self w = (Ok (), w') ∧ heap w' = heap w.
Proof.
  intros Hchance. unfold genetics.mutate. revert w.
  induction (genetics.population self) as [| painting rest IH]; intros w.
  - by exists w.
  - simpl.
    rewrite (bind_ok _ _ _ _ _
               (mutate_one_quiet_roll _ painting w
                  (fires_never _ w Hchance))).
    destruct (IH (drawn w)) as (w' & Hrun & Hheap). by exists w'.
Qed.

Lemma mutate_chance_zero_atelier :
  ∃ w',
    genetics.mutate
      (genetics.mkGeneticPainting "1.png" square_image 3 4 0 (1 # 2) 1 0 1
         RED scenario_sampler [1; 2; 3; 4]%positive) atelier
    = (Ok (), w')
    ∧ heap w' = heap atelier.
Proof.
  apply (mutate_chance_zero
           (genetics.mkGeneticPainting "1.png" square_image 3 4 0 (1 # 2) 1 0
              1 RED scenario_sampler [1; 2; 3; 4]%positive) atelier).
  vm_compute. discriminate.
Defined.

(** ** One generation after the other *)

Lemma next_generation_of_span (self : genetics.GeneticPainting)
    (breeders : list loc) (N : nat) (w : world Painting) :
  2 ≤ length breeders →
  (0 ≤ genetics.pop_size self)%Z →
  uniform w N breeders →
  returns (genetics.next_generation_of self breeders genetics.SPAN) w
    (λ next_generation w',
       Z.of_nat (length next_generation) = genetics.pop_size self
       ∧ bred w breeders next_generation w').
Proof.
  intros Hlen Hpop Huniform. unfold genetics.next_generation_of.
  destruct (decide (genetics.SPAN = genetics.RANDOM)) as [Heq | _];
    [done |].
  destruct (decide (genetics.SPAN = genetics.SPAN)) as [_ | Hne]; [| done].
  apply returns_bind.
  eapply returns_mono.
  { apply (span_pairs_returns breeders N w Huniform self w), bred_nil. }
  intros paired w1 (Hbred1 & Hlen1 & _). cbv beta.
  apply returns_bind. unfold genetics.fill_up.
  eapply returns_mono.
  { apply (fill_returns breeders N w Huniform _ paired w1 Hlen Hbred1). }
  intros filled w2 (Hbred2 & Hext2 & more & -> & Hmore). cbv beta.
  apply returns_ret.
  assert (Hslice : slice_to (genetics.pop_size self) (paired ++ more)
                   = take (Z.to_nat (genetics.pop_size self))
                       (paired ++ more)).
  { unfold slice_to.
    destruct (Z.leb_spec 0 (genetics.pop_size self)); [done | lia]. }
  rewrite Hslice. split.
  - rewrite length_take, length_app. lia.
  - by apply bred_take.
Qed.

Lemma mutate_run (self : genetics.GeneticPainting) (w : world Painting) :
  (∀ l, l ∈ genetics.population self → is_Some (heap w !! l)) →
  ∃ w', genetics.mutate self w = (Ok (), w')
        ∧ reordering w w'
        ∧ ∀ l, l ∉ genetics.population self → heap w' !! l = heap w !! l.
Proof.
  intros Hlive. unfold genetics.mutate.
  destruct (for_each_returns
              (λ _ _ w', ∀ l, is_Some (heap w !! l) → is_Some (heap w' !! l))
              (genetics.population self)
              (genetics.mutate_one (genetics.mutation_chance self)) () w)
    as ([] & w' & Hrun & _); [auto | |].
  { intros k painting [] w1 Hk Hinv.
    eapply returns_mono.
    - apply mutate_one_returns. apply Hinv, Hlive.
      by eapply list_elem_of_lookup_2.
    - cbv beta. intros _ w2 Hw2 l Hl. auto. }
  exists w'. split; [exact Hrun |]. split.
  - pose proof (stable_for_each reordering (genetics.population self)
                  (genetics.mutate_one (genetics.mutation_chance self)) ()
                  (λ _ x, mutate_one_reordering _ x) w) as Hstable.
    by rewrite Hrun in Hstable.
  - intros l Hl.
    pose proof (mutate_loop_elsewhere (genetics.mutation_chance self)
                  (genetics.population self) l w) as Helse.
    rewrite Hrun in Helse. apply Helse.
    intros i Hi. destruct Hl. by eapply list_elem_of_lookup_2.
Qed.

Lemma reordering_uniform (w w' : world Painting) (N : nat)
    (paintings : list loc) :
  reordering w w' → uniform w N paintings → uniform w' N paintings.
Proof.
  intros Hre Huniform. unfold uniform in *.
  eapply Forall_impl; [exact Huniform |].
  intros l (o & [Ho Hwf] & Hlen). specialize (Hre l). rewrite Ho in Hre.
  inversion Hre as [? o' (_ & _ & Hnum & Hperm) Heq1 Heq2 |]; subst.
  exists o'. unfold genome, well_formed in *.
  apply Permutation_length in Hperm.
  split; [split; [done | congruence] | congruence].
Qed.

(** X21. One round of the generation loop of [happy_little_accidents]
    (cull with strategy SURVIVORS, breed the survivors, mutate) on a
    scored generation of [N]-stroke genomes, with at least one winner, no
    more lucky ones than winners, and at least two survivors in all:
    the round raises nothing; the engine then holds [pop_size] different
    paintings, none of which existed before, again genomes of [N] strokes
    each, so that the next round can run; its generation counter is one
    higher; and every painting that existed before the round is exactly
    what it was. *)
Theorem next_generation_restores_population
    (self : genetics.GeneticPainting)
    (scored : list genetics.ScoredPainting) (N : nat) (w : world Painting) :
  (0 < genetics.winners self)%Z →
  (genetics.winners self ≤ Z.of_nat (length scored))%Z →
  (0 ≤ genetics.lucky_few self ≤ genetics.winners self)%Z →
  (2 ≤ genetics.winners self + genetics.lucky_few self)%Z →
  (0 ≤ genetics.pop_size self)%Z →
  uniform w N (genetics.painting <$> scored) →
  ∃ self' w',
    jop.next_generation self scored w = (Ok (), self', w')
    ∧ Z.of_nat (length (genetics.population self')) = genetics.pop_size self
    ∧ genetics.generation self' = (genetics.generation self + 1)%Z
    ∧ NoDup (genetics.population self')
    ∧ Forall (λ c, heap w !! c = None) (genetics.population self')
    ∧ uniform w' N (genetics.population self')
    ∧ ∀ l, is_Some (heap w !! l) → heap w' !! l = heap w !! l.
Proof.
  intros Hwin Hmany Hlucky Htwo Hpop Huniform.
  destruct (cull_survivors_run self scored w Hwin Hmany Hlucky)
    as (additions & rest & w1 & Hcull & Hperm & Hadd & Hheap1).
  cbv zeta in *.
  set (sorted_pop := genetics.by_score scored) in *.
  set (survivors :=
         genetics.painting
           <$> (drop (length sorted_pop - Z.to_nat (genetics.winners self))
                  sorted_pop ++ additions)) in *.
  assert (Hsorted_len : length sorted_pop = length scored).
  { apply Permutation_length, by_score_perm. }
  assert (Hsurvivors : 2 ≤ length survivors).
  { unfold survivors. rewrite length_fmap, length_app, length_drop. lia. }
  assert (Huniform1 : uniform w1 N survivors).
  { unfold uniform in *. apply Forall_forall. intros l Hl.
    assert (Hin : l ∈ genetics.painting <$> scored).
    { apply list_elem_of_fmap in Hl as (sp & -> & Hsp).
      apply list_elem_of_fmap. exists sp. split; [done |].
      rewrite <- (by_score_perm scored). fold sorted_pop.
      apply elem_of_app in Hsp as [Hsp | Hsp].
      - rewrite <- (take_drop
                      (length sorted_pop - Z.to_nat (genetics.winners self))
                      sorted_pop).
        apply elem_of_app. by right.
      - rewrite <- (take_drop (Z.to_nat (genetics.winners self)) sorted_pop).
        apply elem_of_app. left.
        rewrite <- Hperm. apply elem_of_app. by left. }
    destruct (proj1 (Forall_forall _ _) Huniform l Hin)
      as (o & [Ho Hwf] & HN).
    exists o. split; [split; [congruence | done] | done]. }
  destruct (next_generation_of_span self survivors N w1 Hsurvivors Hpop
              Huniform1)
    as (next_generation & w2 & Hnext & Hcount & Hbred).
  pose proof (bred_uniform w1 w2 N survivors next_generation Huniform1 Hbred)
    as Huniform2.
  destruct Hbred as (Hext & Hnd & Hnew).
  set (self' := genetics.increment_generation
                  (genetics.set_population next_generation self)).
  destruct (mutate_run self' w2) as (w3 & Hmutate & Hre & Helse).
  { intros l Hl.
    destruct (proj1 (Forall_forall _ _) Huniform2 l Hl) as (o & [Ho _] & _).
    by exists o. }
  exists self', w3. unfold jop.next_generation.
  rewrite Hcull. fold survivors. unfold genetics.breed. rewrite Hnext.
  fold self'. rewrite Hmutate.
  split; [reflexivity |]. split; [exact Hcount |]. split; [reflexivity |].
  split; [exact Hnd |]. split; [| split].
  - eapply Forall_impl; [exact Hnew |]. intros c [Hc _]. congruence.
  - by eapply reordering_uniform.
  - intros l Hl. rewrite Helse.
    + rewrite <- Hheap1. rewrite <- Hheap1 in Hl. destruct Hl as [o Ho].
      rewrite Ho. by eapply lookup_weaken.
    + intros Hin.
      destruct (proj1 (Forall_forall _ _) Hnew l Hin) as [Hnone _].
      rewrite Hheap1 in Hnone. rewrite Hnone in Hl. by destruct Hl.
Qed.

Lemma next_generation_restores_population_atelier :
  ∃ self' w',
    jop.next_generation (engine 4 (1 # 2) 1 3 [1; 2; 3; 4]%positive)
      scored_atelier atelier
    = (Ok (), self', w')
    ∧ Z.of_nat (length (genetics.population self')) = 4%Z
    ∧ genetics.generation self' = (0 + 1)%Z
    ∧ NoDup (genetics.population self')
    ∧ Forall (λ c, heap atelier !! c = None) (genetics.population self')
    ∧ uniform w' 3 (genetics.population self')
    ∧ ∀ l, is_Some (heap atelier !! l) → heap w' !! l = heap atelier !! l.
Proof.
  apply (next_generation_restores_population
           (engine 4 (1 # 2) 1 3 [1; 2; 3; 4]%positive) scored_atelier 3
           atelier).
  - vm_compute. reflexivity.
  - vm_compute. discriminate.
  - split; vm_compute; discriminate.
  - vm_compute. discriminate.
  - vm_compute. discriminate.
  - unfold uniform, genome, well_formed.
    repeat (constructor; [eexists; repeat split; reflexivity |]).
    constructor.
Defined.

(** ** What [to_json] keeps *)

Lemma Stroke_to_json_inj (s t : Stroke) :
  Stroke_to_json s = Stroke_to_json t → s = t.
Proof.
  destruct s as [[] ? [] []], t as [[] ? [] []].
  unfold Stroke_to_json, rgb_to_json. simpl. intros H.
  injection H as -> -> -> -> -> -> -> ->. reflexivity.
Qed.

Lemma strokes_to_json_inj (l k : list Stroke) :
  Stroke_to_json <$> l = Stroke_to_json <$> k → l = k.
Proof.
  revert k. induction l as [| s l IH]; intros [| t k] H; try done.
  rewrite !fmap_cons in H.
  assert (Hs : Stroke_to_json s = Stroke_to_json t) by congruence.
  assert (Hl : Stroke_to_json <$> l = Stroke_to_json <$> k) by congruence.
  by rewrite (Stroke_to_json_inj _ _ Hs), (IH _ Hl).
Qed.

(** X22. The JSON of a painting holds its canvas and its strokes, in
    order, and nothing else: [to_json] on two live paintings returns,
    changes nothing, and gives equal values exactly when the two have the
    same canvas and the same list of strokes, whatever their references
    and stroke counts. *)
Theorem to_json_canvas_and_strokes (a b : loc) (pa pb : Painting)
    (w : world Painting) :
  heap w !! a = Some pa →
  heap w !! b = Some pb →
  ∃ ja jb,
    Painting_to_json a w = (Ok ja, w)
    ∧ Painting_to_json b w = (Ok jb, w)
    ∧ (ja = jb ↔ canvas pa = canvas pb ∧ strokes pa = strokes pb).
Proof.
  intros Ha Hb. unfold Painting_to_json.
  rewrite !(bind_ok _ _ _ _ _ (getattr_run a canvas pa w Ha)).
  rewrite !(bind_ok _ _ _ _ _ (getattr_run a strokes pa w Ha)).
  rewrite !(bind_ok _ _ _ _ _ (getattr_run b canvas pb w Hb)).
  rewrite !(bind_ok _ _ _ _ _ (getattr_run b strokes pb w Hb)).
  eexists _, _. split; [reflexivity |]. split; [reflexivity |]. split.
  - intros H.
    assert (Hcanvas : rgb_to_json (canvas pa) = rgb_to_json (canvas pb))
      by congruence.
    assert (Hstrokes : Stroke_to_json <$> strokes pa
                       = Stroke_to_json <$> strokes pb) by congruence.
    split; [| by apply strokes_to_json_inj].
    destruct (canvas pa), (canvas pb). unfold rgb_to_json in Hcanvas.
    simpl in Hcanvas. congruence.
  - intros [-> ->]. reflexivity.
Qed.

Lemma to_json_canvas_and_strokes_atelier :
  ∃ ja jb,
    Painting_to_json 1%positive atelier = (Ok ja, atelier)
    ∧ Painting_to_json 2%positive atelier = (Ok jb, atelier)
    ∧ (ja = jb ↔ canvas red_painting = canvas blue_painting
                 ∧ strokes red_painting = strokes blue_painting).
Proof.
  apply (to_json_canvas_and_strokes 1%positive 2%positive red_painting
           blue_painting atelier); reflexivity.
Defined.
